(** * jSketch and the Memento plugin of Sketchable: a shallow embedding

    The development follows the two source files:
    - [jsketch.js]: the chainable wrapper over the canvas 2D context
      (module [Sketch]);
    - [sketchable.memento.js]: the undo/redo history (module [Memento]).

    JavaScript values are modelled as far as the code inspects them:
    truthiness ([if (!elem)], [val && ...], [a || b]), strict inequality
    ([val !== this.data[opt]]), property enumeration order ([for ... in])
    and JSON serialisation ([JSON.parse(JSON.stringify(x))]).

    A method body is a computation in a state-and-exception monad: the
    state is the object's fields, [throw] is a JavaScript exception, and
    what a method returns is a reference, so that [return this] and a
    chain [this.f().g()] read as in the source.

    What the browser provides is taken as it behaves when it works: the
    methods of the 2D context are recorded as calls and raise nothing of
    their own, [toDataURL] and [querySelector] are functions, an image
    loads (or not) as a separate event.  Strokes and call records are
    values: the [slice()] copies of the source are shallow, and the code
    under study never writes inside a stroke or a call record.

    An options object is a plain object: its own properties, in the
    order [for ... in] visits them, and [Object.prototype] above it,
    whose members it inherits ([__proto__] among them, an accessor).
    The values the code is given are primitives and host objects; a host
    object is known by its identity only, and shows no property to the
    code but what [Object.prototype] gives it.  A canvas element has a
    width, a height and a 2D context, unless it is said to have none. *)

From Stdlib Require Import ZArith Lia.
From stdpp Require Import base list strings.

Local Open Scope string_scope.
Local Open Scope list_scope.

(** ** JavaScript values *)

(** A number: a finite double [m * 2^e], the negative zero, NaN, or an
    infinity.  No arithmetic is performed on numbers by the code under
    study; they are compared and carried around. *)
Inductive JsNumber :=
| NFin (m e : Z)
| NNegZero
| NNaN
| NInf (negative : bool).

(** Primitive values, and host objects known only by their identity (an
    [Image], a [CanvasGradient], an element that is not a canvas). *)
Inductive Prim :=
| PUndefined
| PNull
| PBool (b : bool)
| PNumber (n : JsNumber)
| PString (s : string)
| PHost (id : nat).

(** Plain data: primitives, arrays and objects with their properties in
    enumeration order. *)
Local Unset Elimination Schemes.
Inductive JsValue :=
| VPrim (p : Prim)
| VArray (items : list JsValue)
| VObject (props : list (string * JsValue)).
Local Set Elimination Schemes.

Definition num (z : Z) : Prim := PNumber (NFin z 0).

(** The double nearest to [2 * Math.PI]. *)
Definition two_pi : Prim := PNumber (NFin 884279719003555 (-47)).

Definition number_truthy (n : JsNumber) : bool :=
  match n with
  | NFin m _ => negb (m =? 0)%Z
  | NNegZero => false
  | NNaN => false
  | NInf _ => true
  end.

(** ToBoolean. *)
Definition truthy (p : Prim) : bool :=
  match p with
  | PUndefined => false
  | PNull => false
  | PBool b => b
  | PNumber n => number_truthy n
  | PString s => negb (String.eqb s "")
  | PHost _ => true
  end.

(** [a || b] *)
Definition js_or (a b : Prim) : Prim := if truthy a then a else b.

Definition number_eq (a b : JsNumber) : bool :=
  match a, b with
  | NNaN, _ => false
  | _, NNaN => false
  | NInf s, NInf t => Bool.eqb s t
  | NInf _, _ => false
  | _, NInf _ => false
  | NNegZero, NNegZero => true
  | NNegZero, NFin m _ => (m =? 0)%Z
  | NFin m _, NNegZero => (m =? 0)%Z
  | NFin m e, NFin m' e' =>
      let k := Z.min e e' in
      (m * 2 ^ (e - k) =? m' * 2 ^ (e' - k))%Z
  end.

(** [a === b] on primitives and host references. *)
Definition strict_eq (a b : Prim) : bool :=
  match a, b with
  | PUndefined, PUndefined => true
  | PNull, PNull => true
  | PBool x, PBool y => Bool.eqb x y
  | PNumber x, PNumber y => number_eq x y
  | PString x, PString y => String.eqb x y
  | PHost x, PHost y => Nat.eqb x y
  | _, _ => false
  end.

(** ** Objects used as option bags *)

(** An object literal such as [{ fillStyle: ..., lineWidth: ... }]: its
    own properties in insertion order, which is the order [for ... in]
    visits them. *)
Definition Obj := list (string * Prim).

(** [o[k]]: [undefined] when the property is absent. *)
Fixpoint obj_get (o : Obj) (k : string) : Prim :=
  match o with
  | [] => PUndefined
  | (k', v) :: o' => if String.eqb k' k then v else obj_get o' k
  end.

(** [o[k] = v]: an existing property keeps its place, a new one goes
    last. *)
Fixpoint obj_set (o : Obj) (k : string) (v : Prim) : Obj :=
  match o with
  | [] => [(k, v)]
  | (k', v') :: o' =>
      if String.eqb k' k then (k, v) :: o' else (k', v') :: obj_set o' k v
  end.

(** ** JSON *)

Definition number_json (n : JsNumber) : Prim :=
  match n with
  | NFin m e => PNumber (NFin m e)
  | NNegZero => PNumber (NFin 0 0)
  | NNaN => PNull
  | NInf _ => PNull
  end.

(** [JSON.parse(JSON.stringify(v))], with [None] where [JSON.stringify]
    yields [undefined].  A host object has no enumerable property of its
    own and comes back as the empty object. *)
Fixpoint json_copy (v : JsValue) : option JsValue :=
  match v with
  | VPrim PUndefined => None
  | VPrim PNull => Some (VPrim PNull)
  | VPrim (PBool b) => Some (VPrim (PBool b))
  | VPrim (PNumber n) => Some (VPrim (number_json n))
  | VPrim (PString s) => Some (VPrim (PString s))
  | VPrim (PHost _) => Some (VObject [])
  | VArray items =>
      Some (VArray
        ((fix copy_items (l : list JsValue) : list JsValue :=
            match l with
            | [] => []
            | x :: l' =>
                match json_copy x with
                | Some y => y
                | None => VPrim PNull
                end :: copy_items l'
            end) items))
  | VObject props =>
      Some (VObject
        ((fix copy_props (l : list (string * JsValue)) : list (string * JsValue) :=
            match l with
            | [] => []
            | (k, x) :: l' =>
                match json_copy x with
                | Some y => (k, y) :: copy_props l'
                | None => copy_props l'
                end
            end) props))
  end.

(** An array element: [undefined] is written as [null]. *)
Definition json_item (v : JsValue) : JsValue :=
  match json_copy v with
  | Some y => y
  | None => VPrim PNull
  end.

Definition number_is_json (n : JsNumber) : bool :=
  match n with
  | NFin _ _ => true
  | _ => false
  end.

(** Values that JSON represents exactly. *)
Fixpoint json_clean (v : JsValue) : bool :=
  match v with
  | VPrim PUndefined => false
  | VPrim PNull => true
  | VPrim (PBool _) => true
  | VPrim (PNumber n) => number_is_json n
  | VPrim (PString _) => true
  | VPrim (PHost _) => false
  | VArray items =>
      (fix all_items (l : list JsValue) : bool :=
         match l with
         | [] => true
         | x :: l' => json_clean x && all_items l'
         end) items
  | VObject props =>
      (fix all_props (l : list (string * JsValue)) : bool :=
         match l with
         | [] => true
         | (_, x) :: l' => json_clean x && all_props l'
         end) props
  end.

(** ** Exceptions and the state monad of a method body *)

Inductive Exn :=
| Error (msg : string)
| TypeError
| SyntaxError.

Inductive Res (A : Type) :=
| Ok (a : A)
| Throw (e : Exn).
Arguments Ok {A} a.
Arguments Throw {A} e.

(** A computation over a mutable state [S]: what was mutated before an
    exception stays mutated. *)
Definition M (S A : Type) : Type := S -> Res A * S.

Definition ret {S A} (a : A) : M S A := fun s => (Ok a, s).

Definition throw {S A} (e : Exn) : M S A := fun s => (Throw e, s).

Definition bind {S A B} (m : M S A) (k : A -> M S B) : M S B :=
  fun s =>
    match m s with
    | (Ok a, s') => k a s'
    | (Throw e, s') => (Throw e, s')
    end.

Definition get {S} : M S S := fun s => (Ok s, s).

Definition modify {S} (f : S -> S) : M S unit := fun s => (Ok tt, f s).

Declare Scope js_scope.
Delimit Scope js_scope with js.
Notation "'let*' x ':=' m 'in' k" := (bind m (fun x => k))
  (at level 10, x name, m at level 100, k at level 200) : js_scope.
Notation "m ';>' k" := (bind m (fun _ => k))
  (at level 90, right associativity) : js_scope.
Local Open Scope js_scope.

(** [for (var k in o) body(k, o[k])] *)
Fixpoint for_in {S} (o : Obj) (body : string -> Prim -> M S unit) : M S unit :=
  match o with
  | [] => ret tt
  | (k, v) :: o' => body k v ;> for_in o' body
  end.

(** An object reference, as far as the code compares or returns one:
    [this]. *)
Definition Ref := nat.

(** ** jsketch.js *)

Module Sketch.

(** What the browser's canvas element and its 2D context hold.  A native
    call is recorded with its arguments; the model gives the browser no
    way to raise an exception of its own from such a call. *)
Inductive NativeArg :=
| APrim (p : Prim)
| AImage (src : string).

Definition NativeCall : Type := string * list NativeArg.

Record Canvas := {
  width : Prim;
  height : Prim;
  context_props : Obj;              (* fillStyle, lineWidth, ... as assigned *)
  context_calls : list NativeCall   (* moveTo(...), stroke(), ... in order *)
}.

Definition blank_canvas (w h : Prim) : Canvas :=
  {| width := w; height := h; context_props := []; context_calls := [] |}.

(** What may be given where an element is expected: a canvas element; a
    canvas element whose [getContext('2d')] answers [null], because it
    is in use with a context of another kind; or any other value, which
    has no [getContext]: a primitive (a falsy one, a string, a number)
    or, as a host object, another element or a plain object. *)
Inductive ElemArg :=
| ElValue (p : Prim)
| ElCanvas (c : Canvas)
| ElNoContext (w h : Prim).

(** A falsy value and a selector string, among the values. *)
Definition ElFalsy : ElemArg := ElValue PUndefined.

Definition ElSelector (selector : string) : ElemArg :=
  ElValue (PString selector).

(** [this.canvas] and [this.context] when they are not a canvas element
    and its own 2D context: [this.canvas] is [element], and
    [this.context] is the context of the canvas [context_of], one that
    an earlier [setContext] has assigned, or is not there at all. *)
Record Detached := {
  element : ElemArg;
  context_of : option Canvas
}.

(** The prototype of [this.data]: [Object.prototype], as for every plain
    object, until an assignment to [this.data.__proto__] puts a host
    object there, or [null]. *)
Inductive Proto :=
| ObjectPrototype
| HostPrototype (h : nat)
| NoPrototype.

(** The fields of a jSketch instance.  [canvas] is [this.canvas] together
    with [this.context], when that is its 2D context, as [setContext]
    assigns them; [detached] says what they are otherwise and counts only
    when [canvas] is [None].  [data] holds the own properties of
    [this.data], and [data_proto] is its prototype. *)
Record jSketch := {
  canvas : option Canvas;
  stageWidth : Prim;
  stageHeight : Prim;
  data : option Obj;
  callStack : list JsValue;
  detached : option Detached;
  data_proto : Proto
}.

(** The object [new] hands to the constructor. *)
Definition blank : jSketch :=
  {| canvas := None; stageWidth := PUndefined; stageHeight := PUndefined;
     data := None; callStack := [];
     detached := None; data_proto := ObjectPrototype |}.

Definition Method := Ref -> M jSketch Ref.

(** *** Field access *)

Definition set_canvas (c : option Canvas) (s : jSketch) : jSketch :=
  {| canvas := c; stageWidth := stageWidth s; stageHeight := stageHeight s;
     data := data s; callStack := callStack s;
     detached := detached s; data_proto := data_proto s |}.

Definition set_stage (w h : Prim) (s : jSketch) : jSketch :=
  {| canvas := canvas s; stageWidth := w; stageHeight := h;
     data := data s; callStack := callStack s;
     detached := detached s; data_proto := data_proto s |}.

Definition set_data (d : option Obj) (s : jSketch) : jSketch :=
  {| canvas := canvas s; stageWidth := stageWidth s; stageHeight := stageHeight s;
     data := d; callStack := callStack s;
     detached := detached s; data_proto := data_proto s |}.

Definition set_callStack (l : list JsValue) (s : jSketch) : jSketch :=
  {| canvas := canvas s; stageWidth := stageWidth s; stageHeight := stageHeight s;
     data := data s; callStack := l;
     detached := detached s; data_proto := data_proto s |}.

Definition set_detached (d : option Detached) (s : jSketch) : jSketch :=
  {| canvas := canvas s; stageWidth := stageWidth s; stageHeight := stageHeight s;
     data := data s; callStack := callStack s;
     detached := d; data_proto := data_proto s |}.

Definition set_data_proto (p : Proto) (s : jSketch) : jSketch :=
  {| canvas := canvas s; stageWidth := stageWidth s; stageHeight := stageHeight s;
     data := data s; callStack := callStack s;
     detached := detached s; data_proto := p |}.

(** [this.context], with the canvas it belongs to. *)
Definition context_canvas (s : jSketch) : option Canvas :=
  match canvas s with
  | Some c => Some c
  | None => d ← detached s; context_of d
  end.

(** [this.callStack.push(entry)] *)
Definition push (entry : JsValue) : M jSketch unit :=
  modify (fun s => set_callStack (callStack s ++ [entry]) s).

(** [{ property: opt, value: val }] *)
Definition property_entry (opt : string) (val : Prim) : JsValue :=
  VObject [("property", VPrim (PString opt)); ("value", VPrim val)].

(** [{ method: name, args: args }] *)
Definition method_entry (name : string) (args : list Prim) : JsValue :=
  VObject [("method", VPrim (PString name)); ("args", VArray (map VPrim args))].

(** [{ method: name }] *)
Definition bare_entry (name : string) : JsValue :=
  VObject [("method", VPrim (PString name))].

(** Something is done to [this.context]: a TypeError when there is
    none. *)
Definition on_canvas (f : Canvas -> Canvas) : M jSketch unit :=
  fun s =>
    match canvas s with
    | Some c => (Ok tt, set_canvas (Some (f c)) s)
    | None =>
        match detached s with
        | Some {| element := e; context_of := Some c |} =>
            (Ok tt,
             set_detached (Some {| element := e; context_of := Some (f c) |}) s)
        | _ => (Throw TypeError, s)
        end
    end.

(** [this.context.name.apply(this.context, args)] *)
Definition native (name : string) (args : list NativeArg) : M jSketch unit :=
  on_canvas (fun c =>
    {| width := width c; height := height c;
       context_props := context_props c;
       context_calls := context_calls c ++ [(name, args)] |}).

(** [this.context[opt] = val] *)
Definition context_set (opt : string) (val : Prim) : M jSketch unit :=
  on_canvas (fun c =>
    {| width := width c; height := height c;
       context_props := obj_set (context_props c) opt val;
       context_calls := context_calls c |}).

(** [elem.width = w; elem.height = h]: the browser resets the properties
    of the context of a canvas that is resized.  On a primitive the
    assignments do nothing (the code is not in strict mode), and on an
    object that is no canvas they set two properties that the code never
    reads. *)
Definition resized (w h : Prim) (c : Canvas) : Canvas :=
  {| width := w; height := h;
     context_props := [];
     context_calls := context_calls c |}.

Definition resize_element (w h : Prim) (e : ElemArg) : ElemArg :=
  match e with
  | ElValue p => ElValue p
  | ElCanvas c => ElCanvas (resized w h c)
  | ElNoContext _ _ => ElNoContext w h
  end.

(** [this.canvas.width = w; this.canvas.height = h]: a TypeError when
    [this.canvas] is [undefined].  The context that is reset is the one
    of [this.canvas], not [this.context] when that belongs to another
    canvas. *)
Definition canvas_resize (w h : Prim) : M jSketch unit :=
  fun s =>
    match canvas s with
    | Some c => (Ok tt, set_canvas (Some (resized w h c)) s)
    | None =>
        match detached s with
        | Some d =>
            (Ok tt,
             set_detached
               (Some {| element := resize_element w h (element d);
                        context_of := context_of d |}) s)
        | None => (Throw TypeError, s)
        end
    end.

(** The six style options that [setDefaults] reads. *)
Inductive StyleOption :=
| FillStyle
| StrokeStyle
| LineWidth
| LineCap
| LineJoin
| MiterLimit.

Definition style_name (opt : StyleOption) : string :=
  match opt with
  | FillStyle => "fillStyle"
  | StrokeStyle => "strokeStyle"
  | LineWidth => "lineWidth"
  | LineCap => "lineCap"
  | LineJoin => "lineJoin"
  | MiterLimit => "miterLimit"
  end.

(** [this.data.fillStyle] and the like: a TypeError when [this.data] is
    [undefined]; its own property, or [undefined], as [this.data]
    inherits none of these six names. *)
Definition data_get (opt : StyleOption) : M jSketch Prim :=
  fun s =>
    match data s with
    | Some d => (Ok (obj_get d (style_name opt)), s)
    | None => (Throw TypeError, s)
    end.

(** [o.hasOwnProperty(k)] *)
Definition has_own (o : Obj) (k : string) : bool :=
  existsb (fun kv => String.eqb (kv.1) k) o.

(** The properties of [Object.prototype], which an object inherits
    unless its prototype is [null]: eleven functions, and the accessor
    [__proto__]. *)
Definition object_prototype_functions : list string :=
  [ "constructor"; "__defineGetter__"; "__defineSetter__"; "hasOwnProperty";
    "__lookupGetter__"; "__lookupSetter__"; "isPrototypeOf";
    "propertyIsEnumerable"; "toString"; "valueOf"; "toLocaleString" ].

Definition inherits_function (k : string) : bool :=
  existsb (String.eqb k) object_prototype_functions.

(** [o[k] === val], for the object with own properties [o] and prototype
    [proto].  An own property is compared by value.  Otherwise [o[k]] is
    what [o] inherits: under [__proto__] its prototype, under the name
    of a function of [Object.prototype] that function, and [undefined]
    under any other name.  [Object.prototype] and its functions are
    objects of the language: no value of the model is one of them. *)
Definition same_value (proto : Proto) (o : Obj) (k : string) (val : Prim) : bool :=
  if has_own o k then strict_eq val (obj_get o k)
  else
    match proto with
    | NoPrototype => strict_eq val PUndefined
    | ObjectPrototype =>
        if String.eqb k "__proto__" then false
        else if inherits_function k then false
        else strict_eq val PUndefined
    | HostPrototype h =>
        if String.eqb k "__proto__" then strict_eq val (PHost h)
        else if inherits_function k then false
        else strict_eq val PUndefined
    end.

(** [this.data[opt] === val]: a TypeError when [this.data] is
    [undefined]. *)
Definition data_is (opt : string) (val : Prim) : M jSketch bool :=
  fun s =>
    match data s with
    | Some d => (Ok (same_value (data_proto s) d opt val), s)
    | None => (Throw TypeError, s)
    end.

(** Whether [o[k] = val] reaches the setter of the accessor [__proto__]
    that [o] inherits: it does when [o] has no own property of that name
    and has a prototype. *)
Definition sets_prototype (proto : Proto) (o : Obj) (k : string) : bool :=
  String.eqb k "__proto__" && negb (has_own o k) &&
  match proto with NoPrototype => false | _ => true end.

(** [this.data[opt] = val]: a TypeError when [this.data] is [undefined].
    The assignment sets an own property, but for [__proto__] when it
    reaches the inherited setter: that one makes an object, or [null],
    the prototype of [this.data], and does nothing with any other
    value. *)
Definition data_set (opt : string) (val : Prim) : M jSketch unit :=
  fun s =>
    match data s with
    | Some d =>
        if sets_prototype (data_proto s) d opt then
          match val with
          | PHost h => (Ok tt, set_data_proto (HostPrototype h) s)
          | PNull => (Ok tt, set_data_proto NoPrototype s)
          | _ => (Ok tt, s)
          end
        else (Ok tt, set_data (Some (obj_set d opt val)) s)
    | None => (Throw TypeError, s)
    end.

(** *** Methods, in the order of the source *)

(** [!!elem] *)
Definition elem_truthy (elem : ElemArg) : bool :=
  match elem with
  | ElValue p => truthy p
  | ElCanvas _ => true
  | ElNoContext _ _ => true
  end.

(** [this.canvas = elem], when [elem] is a canvas and
    [this.context = elem.getContext('2d')] follows. *)
Definition attach (c : Canvas) (s : jSketch) : jSketch :=
  set_detached None (set_canvas (Some c) s).

(** [this.canvas = elem], when [elem] is not: [this.context] stays what
    it is. *)
Definition detach (elem : ElemArg) (s : jSketch) : jSketch :=
  set_detached (Some {| element := elem; context_of := context_canvas s |})
    (set_canvas None s).

(** [this.context = null], after [this.canvas = elem]. *)
Definition without_context (elem : ElemArg) (s : jSketch) : jSketch :=
  set_detached (Some {| element := elem; context_of := None |})
    (set_canvas None s).

Definition setContext (elem : ElemArg) : Method := fun this =>
  if negb (elem_truthy elem) then throw (Error "No canvas element specified.")
  else
    match elem with
    | ElCanvas c =>
        modify (attach c) ;>
        ret this
    | ElNoContext _ _ =>
        modify (without_context elem) ;>
        ret this
    | ElValue _ =>
        (* [elem.getContext] is [undefined]: calling it is a TypeError *)
        modify (detach elem) ;>
        throw TypeError
    end.

(** The body of the loop of [saveGraphics]. *)
Definition save_option (opt : string) (val : Prim) : M jSketch unit :=
  if truthy val then
    let* same := data_is opt val in
    if negb same then
      data_set opt val ;>
      push (property_entry opt val)
    else ret tt
  else ret tt.

Definition saveGraphics (options : option Obj) : Method := fun this =>
  for_in (default [] options) save_option ;>
  ret this.

Definition restoreGraphics : Method := fun this =>
  let* s := get in
  for_in (default [] (data s)) (fun opt val => context_set opt val) ;>
  ret this.

Definition setDefaults : Method := fun this =>
  let* fillStyle := data_get FillStyle in
  let* strokeStyle := data_get StrokeStyle in
  let* lineWidth := data_get LineWidth in
  let* lineCap := data_get LineCap in
  let* lineJoin := data_get LineJoin in
  let* miterLimit := data_get MiterLimit in
  let options : Obj :=
    [ ("fillStyle", js_or fillStyle (PString "#F00"));
      ("strokeStyle", js_or strokeStyle (PString "#F0F"));
      ("lineWidth", js_or lineWidth (num 2));
      ("lineCap", js_or lineCap (PString "round"));
      ("lineJoin", js_or lineJoin (PString "round"));
      ("miterLimit", js_or miterLimit (num 10)) ] in
  for_in options (fun opt val => push (property_entry opt val)) ;>
  let* r := saveGraphics (Some options) this in
  restoreGraphics r.

Definition size (w h : Prim) : Method := fun this =>
  modify (set_stage w h) ;>
  canvas_resize w h ;>
  restoreGraphics this ;>
  ret this.

Definition beginFill (color : Prim) : Method := fun this =>
  saveGraphics None this ;>
  context_set "fillStyle" color ;>
  push (property_entry "fillStyle" color) ;>
  ret this.

Definition endFill : Method := fun this =>
  restoreGraphics this ;>
  ret this.

Definition background (color : Prim) : Method := fun this =>
  let* s := get in
  let args := [num 0; num 0; stageWidth s; stageHeight s] in
  beginFill color this ;>
  native "fillRect" (map APrim args) ;>
  endFill this ;>
  push (property_entry "fillStyle" color) ;>
  push (method_entry "fillRect" args) ;>
  ret this.

Definition stage (w h bgcolor : Prim) : Method := fun this =>
  let* r := size w h this in
  background bgcolor r ;>
  ret this.

Definition lineStyle (color thickness capStyle joinStyle miter : Prim) : Method :=
  fun this =>
  let options : Obj :=
    [ ("strokeStyle", color);
      ("lineWidth", thickness);
      ("lineCap", capStyle);
      ("lineJoin", joinStyle);
      ("miterLimit", miter) ] in
  let* r := saveGraphics (Some options) this in
  restoreGraphics r.

(** [moveTo] and [lineTo] forward whatever [arguments] they were given. *)
Definition moveTo (args : list Prim) : Method := fun this =>
  native "moveTo" (map APrim args) ;>
  push (method_entry "moveTo" args) ;>
  ret this.

Definition lineTo (args : list Prim) : Method := fun this =>
  native "lineTo" (map APrim args) ;>
  push (method_entry "lineTo" args) ;>
  ret this.

Definition line (x1 y1 x2 y2 : Prim) : Method := fun this =>
  moveTo [x1; y1] this ;>
  lineTo [x2; y2] this ;>
  ret this.

Definition curveTo (x y cpx cpy : Prim) : Method := fun this =>
  let args := [cpx; cpy; x; y] in
  native "quadraticCurveTo" (map APrim args) ;>
  push (method_entry "quadraticCurveTo" args) ;>
  ret this.

Definition curve (x1 y1 x2 y2 cpx cpy : Prim) : Method := fun this =>
  moveTo [x1; y1] this ;>
  curveTo x2 y2 cpx cpy this ;>
  ret this.

Definition stroke : Method := fun this =>
  native "stroke" [] ;>
  push (bare_entry "stroke") ;>
  ret this.

Definition strokeRect (args : list Prim) : Method := fun this =>
  native "beginPath" [] ;>
  native "strokeRect" (map APrim args) ;>
  native "closePath" [] ;>
  push (method_entry "strokeRect" args) ;>
  ret this.

Definition fillRect (args : list Prim) : Method := fun this =>
  native "beginPath" [] ;>
  native "fillRect" (map APrim args) ;>
  native "closePath" [] ;>
  push (method_entry "fillRect" args) ;>
  ret this.

Definition rect (args : list Prim) : Method := fun this =>
  fillRect args this ;>
  strokeRect args this ;>
  ret this.

Definition strokeCircle (x y radius : Prim) : Method := fun this =>
  let args := [x; y; radius; num 0; two_pi; PBool false] in
  native "beginPath" [] ;>
  native "arc" (map APrim args) ;>
  native "stroke" [] ;>
  native "closePath" [] ;>
  push (method_entry "strokeCircle" args) ;>
  ret this.

Definition fillCircle (x y radius : Prim) : Method := fun this =>
  let args := [x; y; radius; num 0; two_pi; PBool false] in
  native "beginPath" [] ;>
  native "arc" (map APrim args) ;>
  native "fill" [] ;>
  native "closePath" [] ;>
  push (method_entry "fillCircle" args) ;>
  ret this.

(** The [n]-th formal parameter of a call made with [apply(this, args)]. *)
Definition formal (args : list Prim) (n : nat) : Prim :=
  default PUndefined (args !! n).

Definition circle (args : list Prim) : Method := fun this =>
  fillCircle (formal args 0) (formal args 1) (formal args 2) this ;>
  strokeCircle (formal args 0) (formal args 1) (formal args 2) this ;>
  ret this.

Definition beginPath : Method := fun this =>
  saveGraphics None this ;>
  native "beginPath" [] ;>
  push (bare_entry "beginPath") ;>
  ret this.

Definition closePath : Method := fun this =>
  native "closePath" [] ;>
  push (bare_entry "closePath") ;>
  restoreGraphics this ;>
  ret this.

Definition eraser : Method := fun this =>
  context_set "globalCompositeOperation" (PString "destination-out") ;>
  push (property_entry "comp-op" (PString "dst_out")) ;>
  ret this.

Definition pencil : Method := fun this =>
  context_set "globalCompositeOperation" (PString "source-over") ;>
  push (property_entry "comp-op" (PString "src_over")) ;>
  ret this.

Definition clear : Method := fun this =>
  let* s := get in
  let args := [num 0; num 0; stageWidth s; stageHeight s] in
  native "clearRect" (map APrim args) ;>
  push (bare_entry "clear") ;>
  ret this.

Definition save : Method := fun this =>
  native "save" [] ;>
  push (bare_entry "save") ;>
  ret this.

Definition restore : Method := fun this =>
  native "restore" [] ;>
  push (bare_entry "restore") ;>
  ret this.

(** [typeof x === 'undefined'] replaces [x] by 0. *)
Definition or_zero (x : Prim) : Prim :=
  match x with
  | PUndefined => num 0
  | _ => x
  end.

(** [drawImage] only starts loading the image; one of the two callbacks
    below runs later, when the browser has loaded it or has failed to. *)
Definition drawImage (src : string) (x y : Prim) : Method := fun this =>
  push (bare_entry "addAsync") ;>
  ret this.

(** [img.onload], for the image [img] created by [drawImage src x y]. *)
Definition drawImage_onload (img : nat) (src : string) (x y : Prim) : M jSketch unit :=
  native "drawImage" [AImage src; APrim (or_zero x); APrim (or_zero y)] ;>
  push (method_entry "drawImage" [PHost img; or_zero x; or_zero y]) ;>
  push (bare_entry "removeAsync").

(** [img.onerror] *)
Definition drawImage_onerror : M jSketch unit :=
  push (bare_entry "removeAsync").

(** *** The constructor *)

(** [if (typeof elem === 'string') elem = document.querySelector(elem)];
    [document.querySelector] is the page's: a parameter, which answers
    [null], a canvas, or another element. *)
Definition selected (querySelector : string -> ElemArg) (elem : ElemArg) : ElemArg :=
  match elem with
  | ElValue (PString sel) => querySelector sel
  | _ => elem
  end.

(** [elem.width] and [elem.height], read once [setContext] has returned:
    a value that is no canvas does not get that far. *)
Definition elem_width (elem : ElemArg) : Prim :=
  match elem with
  | ElCanvas c => width c
  | ElNoContext w _ => w
  | ElValue _ => PUndefined
  end.

Definition elem_height (elem : ElemArg) : Prim :=
  match elem with
  | ElCanvas c => height c
  | ElNoContext _ h => h
  | ElValue _ => PUndefined
  end.

(** [this.data = options]: another object, with its own prototype. *)
Definition assign_data (options : option Obj) (s : jSketch) : jSketch :=
  set_data_proto ObjectPrototype (set_data options s).

Definition constructor (querySelector : string -> ElemArg)
    (elem : ElemArg) (options : option Obj) : Method := fun this =>
  if negb (elem_truthy elem) then throw (Error "Sketchable requires a DOM element.")
  else
    let elem := selected querySelector elem in
    setContext elem this ;>
    modify (set_stage (elem_width elem) (elem_height elem)) ;>
    modify (assign_data options) ;>
    modify (set_callStack []) ;>
    setDefaults this.

(** [new jSketch(elem, options)] *)
Definition new_jSketch (querySelector : string -> ElemArg)
    (elem : ElemArg) (options : option Obj) (this : Ref) : Res Ref * jSketch :=
  constructor querySelector elem options this blank.

(** *** The public methods, as calls *)

Inductive Call :=
| CSetContext (elem : ElemArg)
| CSetDefaults
| CSize (w h : Prim)
| CBackground (color : Prim)
| CStage (w h bgcolor : Prim)
| CBeginFill (color : Prim)
| CEndFill
| CLineStyle (color thickness capStyle joinStyle miter : Prim)
| CMoveTo (args : list Prim)
| CLineTo (args : list Prim)
| CLine (x1 y1 x2 y2 : Prim)
| CCurveTo (x y cpx cpy : Prim)
| CCurve (x1 y1 x2 y2 cpx cpy : Prim)
| CStroke
| CStrokeRect (args : list Prim)
| CFillRect (args : list Prim)
| CRect (args : list Prim)
| CStrokeCircle (x y radius : Prim)
| CFillCircle (x y radius : Prim)
| CCircle (args : list Prim)
| CBeginPath
| CClosePath
| CEraser
| CPencil
| CClear
| CSave
| CRestore
| CSaveGraphics (options : option Obj)
| CRestoreGraphics
| CDrawImage (src : string) (x y : Prim).

Definition call (c : Call) : Method :=
  match c with
  | CSetContext elem => setContext elem
  | CSetDefaults => setDefaults
  | CSize w h => size w h
  | CBackground color => background color
  | CStage w h bgcolor => stage w h bgcolor
  | CBeginFill color => beginFill color
  | CEndFill => endFill
  | CLineStyle color thickness capStyle joinStyle miter =>
      lineStyle color thickness capStyle joinStyle miter
  | CMoveTo args => moveTo args
  | CLineTo args => lineTo args
  | CLine x1 y1 x2 y2 => line x1 y1 x2 y2
  | CCurveTo x y cpx cpy => curveTo x y cpx cpy
  | CCurve x1 y1 x2 y2 cpx cpy => curve x1 y1 x2 y2 cpx cpy
  | CStroke => stroke
  | CStrokeRect args => strokeRect args
  | CFillRect args => fillRect args
  | CRect args => rect args
  | CStrokeCircle x y radius => strokeCircle x y radius
  | CFillCircle x y radius => fillCircle x y radius
  | CCircle args => circle args
  | CBeginPath => beginPath
  | CClosePath => closePath
  | CEraser => eraser
  | CPencil => pencil
  | CClear => clear
  | CSave => save
  | CRestore => restore
  | CSaveGraphics options => saveGraphics options
  | CRestoreGraphics => restoreGraphics
  | CDrawImage src x y => drawImage src x y
  end.

(** An instance as the constructor leaves it: bound to a canvas, with an
    options object. *)
Definition constructed (s : jSketch) : Prop :=
  is_Some (canvas s) ∧ is_Some (data s).

(** An option of [saveGraphics] that is set and differs from the own
    property of that name. *)
Definition differs (d : Obj) (o : string * Prim) : bool :=
  truthy (o.2) && negb (strict_eq (o.2) (obj_get d (o.1))).

(** An option of [saveGraphics] that is set and differs from what
    [this.data] has under that name: [val && this.data[opt] !== val]. *)
Definition changed (proto : Proto) (d : Obj) (o : string * Prim) : bool :=
  truthy (o.2) && negb (same_value proto d (o.1) (o.2)).

(** A computation that completes on every constructed instance, leaves
    it constructed, and returns a value satisfying [Q]. *)
Definition completes {A} (m : M jSketch A) (Q : A -> Prop) : Prop :=
  ∀ s, constructed s → ∃ a s', m s = (Ok a, s') ∧ constructed s' ∧ Q a.

(** A computation that leaves an instance without a canvas of its own
    without one. *)
Definition bare {A} (m : M jSketch A) : Prop :=
  ∀ s, canvas s = None → canvas (snd (m s)) = None.

(** A computation that only ever adds to the end of [callStack]. *)
Definition appends {A} (m : M jSketch A) : Prop :=
  ∀ s, ∃ added : list JsValue, callStack (snd (m s)) = callStack s ++ added.

(** A computation that completes on every constructed instance and adds
    exactly the entries [added] to the end of [callStack]. *)
Definition records {A} (m : M jSketch A) (added : list JsValue) : Prop :=
  ∀ s, constructed s →
    ∃ a s', m s = (Ok a, s') ∧ constructed s' ∧ callStack s' = callStack s ++ added.

(** The entries [saveGraphics(options)] adds when [this.data] is [d],
    with the prototype [proto]. *)
Definition changed_entries (proto : Proto) (d : Obj) (options : Obj) : list JsValue :=
  map (λ o, property_entry (o.1) (o.2)) (List.filter (changed proto d) options).

(** Examples: a 300x150 canvas and the instance made from it. *)
Definition demo_canvas : Canvas := blank_canvas (num 300) (num 150).

Definition demo_sketch : jSketch :=
  snd (new_jSketch (fun _ => ElValue PNull) (ElCanvas demo_canvas)
         (Some [("lineWidth", num 3)]) 1).

(** Its canvas and its options, as the constructor leaves them. *)
Definition demo_context : Canvas := default demo_canvas (canvas demo_sketch).

Definition demo_data : Obj := default [] (data demo_sketch).

(** *** What the settings become *)

Definition with_context_props (p : Obj) (c : Canvas) : Canvas :=
  {| width := width c; height := height c;
     context_props := p; context_calls := context_calls c |}.

(** The properties [p] of the context after
    [for (var opt in d) context[opt] = d[opt]]. *)
Definition assign_all (p d : Obj) : Obj :=
  foldl (fun p o => obj_set p (o.1) (o.2)) p d.

(** The own properties of [this.data] after the loop of
    [saveGraphics(options)], from [d], when no option is named
    [__proto__]. *)
Definition store_all (d options : Obj) : Obj :=
  foldl (fun d o => if differs d o then obj_set d (o.1) (o.2) else d) d options.

(** The context holds every stored option. *)
Definition in_sync (s : jSketch) : Prop :=
  ∃ c d, canvas s = Some c ∧ data s = Some d ∧ NoDup (d.*1) ∧
    ∀ k, k ∈ d.*1 → obj_get (context_props c) k = obj_get d k.

(** The options [setDefaults] sets, with their default values. *)
Definition style_defaults : Obj :=
  [ ("fillStyle", PString "#F00");
    ("strokeStyle", PString "#F0F");
    ("lineWidth", num 2);
    ("lineCap", PString "round");
    ("lineJoin", PString "round");
    ("miterLimit", num 10) ].

(** The options object that [setDefaults] builds from [this.data]. *)
Definition defaulted (d : Obj) : Obj :=
  (fun o => (o.1, js_or (obj_get d (o.1)) (o.2))) <$> style_defaults.

(** A computation that leaves the observation [f] of the instance as it
    is, also when it throws. *)
Definition keeps {A B} (f : jSketch -> B) (m : M jSketch A) : Prop :=
  ∀ s, f (snd (m s)) = f s.

(** The calls that may write to [this.data], and those that set the
    stage size. *)
Definition writes_data (c : Call) : bool :=
  match c with
  | CSetDefaults | CSaveGraphics _ | CLineStyle _ _ _ _ _ => true
  | _ => false
  end.

Definition sets_stage (c : Call) : bool :=
  match c with
  | CSize _ _ | CStage _ _ _ => true
  | _ => false
  end.

End Sketch.

(** ** sketchable.memento.js *)

Module Memento.

(** An object [{ image, strokes, callStack }]: a history entry, a copy
    returned by [state()], or a state object of the caller's. *)
Record Entry := {
  image : string;
  strokes : list JsValue;
  callStack : list JsValue
}.

(** What [instance.handler] passes to its callback: the widget's canvas
    element [elem], and [data] with its [strokes] and its [sketch].  The
    widget (sketchable.js) keeps them; to the Memento they are whatever
    they are when a callback runs. *)
Record Host := {
  elem : Sketch.Canvas;
  data_strokes : list JsValue;
  data_sketch : Sketch.jSketch
}.

(** An [Image] made by [restore], with the [state] its [onload] closure
    holds: a reference, not a copy. *)
Record Snapshot := {
  src : string;
  state_ref : nat
}.

Record World := {
  heap : list Entry;        (* the state-shaped objects, by address *)
  stack : list nat;         (* var stack: references to heap objects *)
  stpos : Z;                (* var stpos *)
  loading : list Snapshot;  (* snapshots whose onload has not run yet *)
  keypress : bool;          (* keyManager listens to document keypress *)
  host : Host
}.

(** [ev.identifier] is [undefined] on a mouse event. *)
Record TouchEvent := {
  identifier : option Z
}.

Record KeyEvent := {
  ctrlKey : bool;
  shiftKey : bool;
  which : Z
}.

Definition Method := Ref -> M World Ref.

(** *** Field access *)

Definition set_heap (h : list Entry) (w : World) : World :=
  {| heap := h; stack := stack w; stpos := stpos w; loading := loading w;
     keypress := keypress w; host := host w |}.

Definition set_stack (l : list nat) (w : World) : World :=
  {| heap := heap w; stack := l; stpos := stpos w; loading := loading w;
     keypress := keypress w; host := host w |}.

Definition set_stpos (p : Z) (w : World) : World :=
  {| heap := heap w; stack := stack w; stpos := p; loading := loading w;
     keypress := keypress w; host := host w |}.

Definition set_loading (l : list Snapshot) (w : World) : World :=
  {| heap := heap w; stack := stack w; stpos := stpos w; loading := l;
     keypress := keypress w; host := host w |}.

Definition set_keypress (b : bool) (w : World) : World :=
  {| heap := heap w; stack := stack w; stpos := stpos w; loading := loading w;
     keypress := b; host := host w |}.

Definition set_host (h : Host) (w : World) : World :=
  {| heap := heap w; stack := stack w; stpos := stpos w; loading := loading w;
     keypress := keypress w; host := h |}.

(** The [Image] whose source is the image of the entry at address [a]. *)
Definition snapshot_for (a : nat) (e : Entry) : Snapshot :=
  {| src := image e; state_ref := a |}.

Definition with_strokes (l : list JsValue) (e : Entry) : Entry :=
  {| image := image e; strokes := l; callStack := callStack e |}.

(** [l[i]] for a number [i]: [undefined] outside the array. *)
Definition index {A} (l : list A) (i : Z) : option A :=
  if (0 <=? i)%Z then l !! Z.to_nat i else None.

(** The entry a stack slot refers to. *)
Definition entry_at (w : World) (i : Z) : option Entry :=
  a ← index (stack w) i; heap w !! a.

(** A new object: its address is the next free one. *)
Definition alloc (e : Entry) : M World nat :=
  fun w => (Ok (length (heap w)), set_heap (heap w ++ [e]) w).

(** [instance.handler(callback)] runs the callback on the widget's
    element and data. *)
Definition handler (callback : Sketch.Canvas -> Host -> M World unit) : M World unit :=
  let* w := get in
  callback (elem (host w)) (host w).

(** A call on [data.sketch]; what it returns is dropped. *)
Definition on_sketch {A} (m : M Sketch.jSketch A) : M World unit :=
  fun w =>
    let h := host w in
    match m (data_sketch h) with
    | (r, sk) =>
        (match r with Ok _ => Ok tt | Throw e => Throw e end,
         set_host {| elem := elem h; data_strokes := data_strokes h;
                     data_sketch := sk |} w)
    end.

Definition host_restore (e : Entry) (h : Host) : Host :=
  {| elem := elem h;
     data_strokes := strokes e;
     data_sketch := Sketch.set_callStack (callStack e) (data_sketch h) |}.

(** [ev && ev.identifier > 0] *)
Definition multi_touch (ev : option TouchEvent) : bool :=
  match ev with
  | Some e =>
      match identifier e with
      | Some i => (0 <? i)%Z
      | None => false
      end
  | None => false
  end.

(** [{ image: state.image, strokes: ..., callStack: ... }] after
    [JSON.parse(JSON.stringify(...))]. *)
Definition json_entry (e : Entry) : Entry :=
  {| image := image e;
     strokes := map json_item (strokes e);
     callStack := map json_item (callStack e) |}.

Definition json_clean_entry (e : Entry) : bool :=
  forallb json_clean (strokes e) && forallb json_clean (callStack e).

Section WithCanvas.

(** [elem.toDataURL()] is the browser's. *)
Variable toDataURL : Sketch.Canvas -> string.

(** *** The private function [draw] *)

Definition draw (snapshot : Snapshot) : M World unit :=
  handler (fun elem data =>
    on_sketch (Sketch.clear 0) ;>
    on_sketch (Sketch.native "drawImage"
                 [Sketch.AImage (src snapshot);
                  Sketch.APrim (num 0); Sketch.APrim (num 0)]) ;>
    let* w := get in
    match heap w !! state_ref snapshot with
    | Some state => modify (fun w => set_host (host_restore state (host w)) w)
    | None => throw TypeError
    end).

(** *** Methods *)

Definition restore (state : option nat) : Method := fun this =>
  let* w := get in
  let state :=
    match state with
    | Some a => Some a
    | None => index (stack w) (stpos w)
    end in
  match state with
  | Some a =>
      match heap w !! a with
      | Some e =>
          modify (fun w => set_loading (loading w ++ [snapshot_for a e]) w) ;>
          ret this
      | None => throw TypeError
      end
  | None => throw TypeError
  end.

Definition undo : Method := fun this =>
  let* w := get in
  (if (0 <? stpos w)%Z then
     modify (set_stpos (stpos w - 1)) ;>
     restore None this ;>
     ret tt
   else ret tt) ;>
  ret this.

Definition redo : Method := fun this =>
  let* w := get in
  (if (stpos w <? Z.of_nat (length (stack w)) - 1)%Z then
     modify (set_stpos (stpos w + 1)) ;>
     restore None this ;>
     ret tt
   else ret tt) ;>
  ret this.

Definition save (ev : option TouchEvent) : Method := fun this =>
  handler (fun elem data =>
    if multi_touch ev then
      let* w := get in
      match index (stack w) (stpos w) with
      | Some a =>
          modify (fun w =>
            set_heap (alter (with_strokes (data_strokes data)) a (heap w)) w)
      | None => throw TypeError
      end
    else
      let* a := alloc {| image := toDataURL elem;
                         strokes := data_strokes data;
                         callStack := Sketch.callStack (data_sketch data) |} in
      modify (fun w => set_stack (stack w ++ [a]) w) ;>
      modify (fun w => set_stpos (stpos w + 1) w)) ;>
  ret this.

Definition reset : Method := fun this =>
  modify (set_stack []) ;>
  modify (set_stpos (-1)) ;>
  save None this.

Definition state : M World nat :=
  let* w := get in
  match entry_at w (stpos w) with
  | Some e => alloc (json_entry e)
  | None => throw SyntaxError
  end.

(** The key event manager, over whatever [self.undo] and [self.redo]
    are. *)
Definition keyManager_on {S} (undo redo : Ref -> M S Ref)
    (self : Ref) (ev : KeyEvent) : M S unit :=
  if ctrlKey ev then
    if (which ev =? 26)%Z then
      if shiftKey ev then redo self ;> ret tt
      else undo self ;> ret tt
    else if (which ev =? 25)%Z then
      redo self ;> ret tt
    else ret tt
  else ret tt.

Definition keyManager : Ref -> KeyEvent -> M World unit :=
  keyManager_on undo redo.

(** [Event.add] and [Event.remove] (sketchable.utils.js) attach and
    detach the listener. *)
Definition init : Method := fun this =>
  modify (set_keypress false) ;>
  modify (set_keypress true) ;>
  save None this.

Definition destroy : Method := fun this =>
  modify (set_keypress false) ;>
  reset this.

(** *** Runs *)

(** What can happen to a MementoCanvas: a call of one of its methods, a
    keypress, a snapshot that finishes loading, and what the widget and
    the caller do on their side. *)
Inductive Op :=
| OInit
| ODestroy
| OSave (ev : option TouchEvent)
| OUndo
| ORedo
| OReset
| OState
| ORestore (state : option nat)
| OKeypress (ev : KeyEvent)
| OLoaded (i : nat)
| OHost (h : Host)
| OCreate (e : Entry)
| OMutate (a : nat) (e : Entry).

Definition drop {A} (m : M World A) : M World unit := m ;> ret tt.

Definition perform (this : Ref) (op : Op) : M World unit :=
  match op with
  | OInit => drop (init this)
  | ODestroy => drop (destroy this)
  | OSave ev => drop (save ev this)
  | OUndo => drop (undo this)
  | ORedo => drop (redo this)
  | OReset => drop (reset this)
  | OState => drop state
  | ORestore st => drop (restore st this)
  | OKeypress ev =>
      let* w := get in
      if keypress w then keyManager this ev else ret tt
  | OLoaded i =>
      let* w := get in
      match loading w !! i with
      | Some snapshot =>
          modify (set_loading (delete i (loading w))) ;>
          draw snapshot
      | None => ret tt
      end
  | OHost h => modify (set_host h)
  | OCreate e => drop (alloc e)
  | OMutate a e =>
      (* the entries of the stack never leave the closure *)
      let* w := get in
      if bool_decide (a ∈ stack w) then ret tt
      else modify (set_heap (<[a:=e]> (heap w)))
  end.

(** An uncaught exception ends the call; the object lives on. *)
Definition step (this : Ref) (op : Op) (w : World) : World :=
  snd (perform this op w).

Definition run (this : Ref) (ops : list Op) (w : World) : World :=
  foldl (fun w op => step this op w) w ops.

(** [new MementoCanvas(instance)] *)
Definition new_MementoCanvas (h : Host) : World :=
  {| heap := []; stack := []; stpos := -1; loading := [];
     keypress := false; host := h |}.

Definition reachable (this : Ref) (w : World) : Prop :=
  ∃ h ops, w = run this ops (new_MementoCanvas h).

(** What [save] stores when it pushes. *)
Definition snapshot_of (h : Host) : Entry :=
  {| image := toDataURL (elem h);
     strokes := data_strokes h;
     callStack := Sketch.callStack (data_sketch h) |}.

End WithCanvas.

(** The history is well formed. *)
Record wf (w : World) : Prop := {
  wf_lower : (-1 <= stpos w)%Z;
  wf_upper : (stpos w <= Z.of_nat (length (stack w)) - 1)%Z;
  wf_nonempty : stack w ≠ [] → (0 <= stpos w)%Z;
  wf_alloc : Forall (λ a, a < length (heap w)) (stack w);
  wf_nodup : NoDup (stack w)
}.

(** *** Counting *)

(** The operations that push an entry, those that empty the stack first,
    and whether the key manager is attached after a run. *)
Definition pushes (op : Op) : bool :=
  match op with
  | OInit => true
  | OSave ev => negb (multi_touch ev)
  | _ => false
  end.

Definition resets (op : Op) : bool :=
  match op with
  | OReset | ODestroy => true
  | _ => false
  end.

Definition attached_after (b : bool) (ops : list Op) : bool :=
  foldl (fun b op =>
           match op with
           | OInit => true
           | ODestroy => false
           | _ => b
           end) b ops.

End Memento.

(** ** Examples *)

Module Examples.

Import Sketch Memento.

(** A browser whose [toDataURL] spells out the native calls the canvas
    has seen. *)
Definition demo_toDataURL (c : Canvas) : string :=
  String.concat "," ("data:" :: map fst (context_calls c)).

(** The widget before anything is drawn, after one stroke, and after
    two. *)
Definition host0 : Host :=
  {| elem := demo_canvas; data_strokes := []; data_sketch := demo_sketch |}.

Definition stroke1 : JsValue :=
  VArray [VArray [VPrim (num 10); VPrim (num 10)];
          VArray [VPrim (num 20); VPrim (num 15)]].

Definition stroke2 : JsValue :=
  VArray [VArray [VPrim (num 5); VPrim (num 40)];
          VArray [VPrim (num 6); VPrim (num 42)]].

Definition sketch1 : jSketch :=
  snd (stroke 1 (snd (line (num 10) (num 10) (num 20) (num 15) 1 demo_sketch))).

Definition sketch2 : jSketch :=
  snd (stroke 1 (snd (line (num 5) (num 40) (num 6) (num 42) 1 sketch1))).

Definition host1 : Host :=
  {| elem := default demo_canvas (canvas sketch1);
     data_strokes := [stroke1];
     data_sketch := sketch1 |}.

Definition host2 : Host :=
  {| elem := default demo_canvas (canvas sketch2);
     data_strokes := [stroke1; stroke2];
     data_sketch := sketch2 |}.

(** The widget after [drawImage] has loaded an image: the call stack
    holds the [Image] object itself. *)
Definition sketch_image : jSketch :=
  snd (drawImage_onload 7 "logo.png" PUndefined PUndefined
         (snd (drawImage "logo.png" PUndefined PUndefined 1 demo_sketch))).

Definition host_image : Host :=
  {| elem := default demo_canvas (canvas sketch_image);
     data_strokes := [];
     data_sketch := sketch_image |}.

(** A history of two entries, positioned on the second. *)
Definition world2 : World :=
  run demo_toDataURL 0 [OInit; OHost host1; OSave None]
    (new_MementoCanvas host0).

(** A history of three entries, positioned on the second. *)
Definition world3 : World :=
  run demo_toDataURL 0
    [OInit; OHost host1; OSave None; OHost host2; OSave None; OUndo]
    (new_MementoCanvas host0).

(** Undo, then draw again and save. *)
Definition save_after_undo : list Op :=
  [OInit; OHost host1; OSave None; OUndo; OHost host2; OSave None].

(** A history whose only entry was saved after an image was drawn. *)
Definition world_image : World :=
  run demo_toDataURL 0 [OHost host_image; OInit] (new_MementoCanvas host0).

(** A second finger goes down. *)
Definition second_touch : TouchEvent := {| identifier := Some 1%Z |}.

(** Ctrl+Z, Ctrl+Shift+Z, Ctrl+Y, and a plain "z". *)
Definition ctrl_z : KeyEvent := {| ctrlKey := true; shiftKey := false; which := 26 |}.
Definition ctrl_shift_z : KeyEvent :=
  {| ctrlKey := true; shiftKey := true; which := 26 |}.
Definition ctrl_y : KeyEvent := {| ctrlKey := true; shiftKey := false; which := 25 |}.
Definition plain_z : KeyEvent :=
  {| ctrlKey := false; shiftKey := false; which := 122 |}.

(** An object whose [undo] and [redo] only count their calls. *)
Definition count_undo : Ref -> M (nat * nat) Ref := fun this =>
  modify (fun c => (S (c.1), c.2)) ;> ret this.

Definition count_redo : Ref -> M (nat * nat) Ref := fun this =>
  modify (fun c => (c.1, S (c.2))) ;> ret this.

End Examples.

(** * Properties of jsketch.js *)

Section SketchFacts.

Import Sketch.

(** ** Objects *)

Lemma obj_get_set_eq (o : Obj) k v : obj_get (obj_set o k v) k = v.
Proof.
  induction o as [|[k' v'] o IH]; simpl.
  - by rewrite String.eqb_refl.
  - destruct (String.eqb k' k) eqn:E; simpl.
    + by rewrite String.eqb_refl.
    + by rewrite E.
Qed.

Lemma obj_get_set_ne (o : Obj) k k' v :
  k ≠ k' → obj_get (obj_set o k v) k' = obj_get o k'.
Proof.
  intros Hne. induction o as [|[k0 v0] o IH]; simpl.
  - destruct (String.eqb k k') eqn:E; [|done].
    apply String.eqb_eq in E. done.
  - destruct (String.eqb k0 k) eqn:E; simpl.
    + apply String.eqb_eq in E. subst k0.
      destruct (String.eqb k k') eqn:E'; [|done].
      apply String.eqb_eq in E'. done.
    + destruct (String.eqb k0 k'); [done|apply IH].
Qed.

Lemma has_own_set_ne (o : Obj) k k' v :
  k ≠ k' → has_own (obj_set o k v) k' = has_own o k'.
Proof.
  intros Hne. unfold has_own. induction o as [|[k0 v0] o IH]; simpl.
  - destruct (String.eqb k k') eqn:E; [|done].
    apply String.eqb_eq in E. done.
  - destruct (String.eqb k0 k) eqn:E; simpl.
    + apply String.eqb_eq in E. subst k0.
      destruct (String.eqb k k') eqn:E'; [|done].
      apply String.eqb_eq in E'. done.
    + by rewrite IH.
Qed.

Lemma has_own_elem (o : Obj) k : has_own o k = true ↔ k ∈ o.*1.
Proof.
  unfold has_own. induction o as [|[k0 v0] o IH]; simpl.
  - split; [done|by intros ?%elem_of_nil].
  - rewrite orb_true_iff, IH, elem_of_cons, String.eqb_eq.
    split; (intros [->|H]; [by left|by right]).
Qed.

(** ** Computations that complete *)

Lemma completes_ret {A} (a : A) (Q : A → Prop) : Q a → completes (ret a) Q.
Proof. intros HQ s Hs. by exists a, s. Qed.

Lemma completes_bind {A B} (m : M jSketch A) (k : A → M jSketch B)
    (Q : A → Prop) (R : B → Prop) :
  completes m Q → (∀ a, Q a → completes (k a) R) → completes (bind m k) R.
Proof.
  intros Hm Hk s Hs.
  destruct (Hm s Hs) as (a & s1 & E & Hs1 & Ha).
  destruct (Hk a Ha s1 Hs1) as (b & s2 & E2 & Hs2 & Hb).
  exists b, s2. unfold bind. by rewrite E.
Qed.

Lemma completes_weaken {A} (m : M jSketch A) (Q R : A → Prop) :
  completes m Q → (∀ a, Q a → R a) → completes m R.
Proof.
  intros Hm HQR s Hs. destruct (Hm s Hs) as (a & s' & E & Hs' & Ha).
  exists a, s'. auto.
Qed.

Lemma completes_get : completes get (λ s, constructed s).
Proof. intros s Hs. by exists s, s. Qed.

Lemma completes_modify (f : jSketch → jSketch) :
  (∀ s, constructed s → constructed (f s)) → completes (modify f) (λ _, True).
Proof. intros Hf s Hs. exists tt, (f s). auto. Qed.

Lemma completes_for_in (o : Obj) (body : string → Prim → M jSketch unit) :
  (∀ k v, completes (body k v) (λ _, True)) →
  completes (for_in o body) (λ _, True).
Proof.
  intros Hbody. induction o as [|[k v] o IH]; simpl.
  - by apply completes_ret.
  - eapply completes_bind; [apply Hbody|]. intros _ _. apply IH.
Qed.

Lemma completes_on_canvas (f : Canvas → Canvas) :
  completes (on_canvas f) (λ _, True).
Proof.
  intros s [[c Hc] Hd]. exists tt, (set_canvas (Some (f c)) s).
  unfold on_canvas. rewrite Hc. repeat split; by eauto.
Qed.

Lemma completes_data_get opt : completes (data_get opt) (λ _, True).
Proof.
  intros s [Hc [d Hd]]. exists (obj_get d (style_name opt)), s.
  unfold data_get. rewrite Hd. repeat split; by eauto.
Qed.

Lemma completes_data_is opt val : completes (data_is opt val) (λ _, True).
Proof.
  intros s [Hc [d Hd]]. exists (same_value (data_proto s) d opt val), s.
  unfold data_is. rewrite Hd. repeat split; by eauto.
Qed.

Lemma completes_data_set opt val : completes (data_set opt val) (λ _, True).
Proof.
  intros s [Hc [d Hd]]. unfold data_set. rewrite Hd.
  destruct (sets_prototype (data_proto s) d opt); [destruct val|];
    eexists tt, _; (split; [reflexivity|]); (split; [|done]);
    split; simpl; eauto.
Qed.

Lemma completes_push entry : completes (push entry) (λ _, True).
Proof. apply completes_modify. by intros s [Hc Hd]. Qed.

Lemma completes_native name args : completes (native name args) (λ _, True).
Proof. apply completes_on_canvas. Qed.

Lemma completes_context_set opt val : completes (context_set opt val) (λ _, True).
Proof. apply completes_on_canvas. Qed.

Lemma completes_canvas_resize w h : completes (canvas_resize w h) (λ _, True).
Proof.
  intros s [[c Hc] Hd]. exists tt, (set_canvas (Some (resized w h c)) s).
  unfold canvas_resize. rewrite Hc. repeat split; by eauto.
Qed.

Lemma completes_set_stage w h : completes (modify (set_stage w h)) (λ _, True).
Proof. apply completes_modify. by intros s [Hc Hd]. Qed.

Create HintDb completes.
Hint Resolve completes_push completes_native completes_context_set
  completes_canvas_resize completes_data_get completes_data_is
  completes_data_set completes_set_stage completes_get : completes.

(** One statement of a method body after the other. *)
Ltac completes_seq :=
  repeat first
    [ solve [ eauto with completes ]
    | apply completes_ret; reflexivity
    | eapply completes_bind;
      [ solve [ eauto with completes ] | intros ? ?; cbv beta in *; subst ] ].

(** A method that returns its receiver. *)
Local Abbreviation chainable m :=
  (∀ this : Ref, completes (m this) (λ r, r = this)) (only parsing).

Lemma chainable_setContext c : chainable (setContext (ElCanvas c)).
Proof.
  intros this. simpl. eapply completes_bind.
  - apply completes_modify. intros s [Hc Hd]. split; simpl; eauto.
  - intros _ _. by apply completes_ret.
Qed.

Lemma chainable_saveGraphics options : chainable (saveGraphics options).
Proof.
  intros this. unfold saveGraphics. eapply completes_bind.
  - apply completes_for_in. intros k v. unfold save_option.
    destruct (truthy v); [|by apply completes_ret].
    eapply completes_bind; [apply completes_data_is|].
    intros same _. destruct (negb same); [|by apply completes_ret].
    completes_seq.
  - intros _ _. by apply completes_ret.
Qed.

Lemma chainable_restoreGraphics : chainable restoreGraphics.
Proof.
  intros this. unfold restoreGraphics.
  eapply completes_bind; [apply completes_get|]. intros s _.
  eapply completes_bind.
  - apply completes_for_in. intros k v. apply completes_context_set.
  - intros _ _. by apply completes_ret.
Qed.

Hint Resolve chainable_saveGraphics chainable_restoreGraphics : completes.

Lemma chainable_setDefaults : chainable setDefaults.
Proof.
  intros this. unfold setDefaults.
  do 6 (eapply completes_bind; [apply completes_data_get|]; intros ? _).
  eapply completes_bind.
  { apply completes_for_in. intros k v. apply completes_push. }
  intros _ _. completes_seq.
Qed.

Lemma chainable_size w h : chainable (size w h).
Proof. intros this. unfold size. completes_seq. Qed.

Lemma chainable_beginFill color : chainable (beginFill color).
Proof. intros this. unfold beginFill. completes_seq. Qed.

Lemma chainable_endFill : chainable endFill.
Proof. intros this. unfold endFill. completes_seq. Qed.

Hint Resolve chainable_size chainable_beginFill chainable_endFill : completes.

Lemma chainable_background color : chainable (background color).
Proof. intros this. unfold background. completes_seq. Qed.

Hint Resolve chainable_background : completes.

Lemma chainable_stage w h bgcolor : chainable (stage w h bgcolor).
Proof. intros this. unfold stage. completes_seq. Qed.

Lemma chainable_lineStyle color thickness capStyle joinStyle miter :
  chainable (lineStyle color thickness capStyle joinStyle miter).
Proof.
  intros this. unfold lineStyle. completes_seq.
Qed.

Lemma chainable_moveTo args : chainable (moveTo args).
Proof. intros this. unfold moveTo. completes_seq. Qed.

Lemma chainable_lineTo args : chainable (lineTo args).
Proof. intros this. unfold lineTo. completes_seq. Qed.

Lemma chainable_curveTo x y cpx cpy : chainable (curveTo x y cpx cpy).
Proof. intros this. unfold curveTo. completes_seq. Qed.

Hint Resolve chainable_moveTo chainable_lineTo chainable_curveTo : completes.

Lemma chainable_line x1 y1 x2 y2 : chainable (line x1 y1 x2 y2).
Proof. intros this. unfold line. completes_seq. Qed.

Lemma chainable_curve x1 y1 x2 y2 cpx cpy : chainable (curve x1 y1 x2 y2 cpx cpy).
Proof. intros this. unfold curve. completes_seq. Qed.

Lemma chainable_stroke : chainable stroke.
Proof. intros this. unfold stroke. completes_seq. Qed.

Lemma chainable_strokeRect args : chainable (strokeRect args).
Proof. intros this. unfold strokeRect. completes_seq. Qed.

Lemma chainable_fillRect args : chainable (fillRect args).
Proof. intros this. unfold fillRect. completes_seq. Qed.

Lemma chainable_strokeCircle x y radius : chainable (strokeCircle x y radius).
Proof. intros this. unfold strokeCircle. completes_seq. Qed.

Lemma chainable_fillCircle x y radius : chainable (fillCircle x y radius).
Proof. intros this. unfold fillCircle. completes_seq. Qed.

Hint Resolve chainable_strokeRect chainable_fillRect chainable_strokeCircle
  chainable_fillCircle : completes.

Lemma chainable_rect args : chainable (rect args).
Proof. intros this. unfold rect. completes_seq. Qed.

Lemma chainable_circle args : chainable (circle args).
Proof. intros this. unfold circle. completes_seq. Qed.

Lemma chainable_beginPath : chainable beginPath.
Proof. intros this. unfold beginPath. completes_seq. Qed.

Lemma chainable_closePath : chainable closePath.
Proof. intros this. unfold closePath. completes_seq. Qed.

Lemma chainable_eraser : chainable eraser.
Proof. intros this. unfold eraser. completes_seq. Qed.

Lemma chainable_pencil : chainable pencil.
Proof. intros this. unfold pencil. completes_seq. Qed.

Lemma chainable_clear : chainable clear.
Proof. intros this. unfold clear. completes_seq. Qed.

Lemma chainable_save : chainable save.
Proof. intros this. unfold save. completes_seq. Qed.

Lemma chainable_restore : chainable restore.
Proof. intros this. unfold restore. completes_seq. Qed.

Lemma chainable_drawImage src x y : chainable (drawImage src x y).
Proof. intros this. unfold drawImage. completes_seq. Qed.

(** ** The call stack only grows *)

Lemma appends_ret {A} (a : A) : appends (ret a).
Proof. intros s. exists []. simpl. by rewrite app_nil_r. Qed.

Lemma appends_throw {A} e : appends (throw (A:=A) e).
Proof. intros s. exists []. simpl. by rewrite app_nil_r. Qed.

Lemma appends_bind {A B} (m : M jSketch A) (k : A → M jSketch B) :
  appends m → (∀ a, appends (k a)) → appends (bind m k).
Proof.
  intros Hm Hk s. destruct (Hm s) as [l1 E1]. unfold bind.
  destruct (m s) as [[a|e] s1]; simpl in E1.
  - destruct (Hk a s1) as [l2 E2]. exists (l1 ++ l2).
    by rewrite E2, E1, app_assoc.
  - by exists l1.
Qed.

Lemma appends_get : appends get.
Proof. intros s. exists []. simpl. by rewrite app_nil_r. Qed.

Lemma appends_modify (f : jSketch → jSketch) :
  (∀ s, callStack (f s) = callStack s) → appends (modify f).
Proof. intros Hf s. exists []. simpl. by rewrite Hf, app_nil_r. Qed.

Lemma appends_push entry : appends (push entry).
Proof. intros s. by exists [entry]. Qed.

Lemma appends_on_canvas f : appends (on_canvas f).
Proof.
  intros s. exists []. unfold on_canvas.
  destruct (canvas s); simpl; [by rewrite app_nil_r|].
  destruct (detached s) as [[e [c|]]|]; simpl; by rewrite app_nil_r.
Qed.

Lemma appends_native name args : appends (native name args).
Proof. apply appends_on_canvas. Qed.

Lemma appends_context_set opt val : appends (context_set opt val).
Proof. apply appends_on_canvas. Qed.

Lemma appends_canvas_resize w h : appends (canvas_resize w h).
Proof.
  intros s. exists []. unfold canvas_resize.
  destruct (canvas s); simpl; [by rewrite app_nil_r|].
  destruct (detached s); simpl; by rewrite app_nil_r.
Qed.

Lemma appends_data_get opt : appends (data_get opt).
Proof.
  intros s. exists []. unfold data_get.
  destruct (data s); simpl; by rewrite app_nil_r.
Qed.

Lemma appends_data_is opt val : appends (data_is opt val).
Proof.
  intros s. exists []. unfold data_is.
  destruct (data s); simpl; by rewrite app_nil_r.
Qed.

Lemma appends_data_set opt val : appends (data_set opt val).
Proof.
  intros s. exists []. unfold data_set.
  destruct (data s) as [d|]; simpl; [|by rewrite app_nil_r].
  destruct (sets_prototype (data_proto s) d opt); [destruct val|];
    simpl; by rewrite app_nil_r.
Qed.

Lemma appends_for_in (o : Obj) (body : string → Prim → M jSketch unit) :
  (∀ k v, appends (body k v)) → appends (for_in o body).
Proof.
  intros Hbody. induction o as [|[k v] o IH]; simpl.
  - apply appends_ret.
  - apply appends_bind; [apply Hbody|]. intros _. apply IH.
Qed.

Lemma appends_set_stage w h : appends (modify (set_stage w h)).
Proof. by apply appends_modify. Qed.

Create HintDb appends.
Hint Resolve appends_ret appends_throw appends_get appends_push
  appends_native appends_context_set appends_canvas_resize
  appends_data_get appends_data_is appends_data_set appends_set_stage
  : appends.

Ltac appends_seq :=
  repeat first
    [ solve [ eauto with appends ]
    | apply appends_bind; [ solve [ eauto with appends ] | intros ? ] ].

Lemma appends_setContext elem this : appends (setContext elem this).
Proof.
  unfold setContext. destruct (negb (elem_truthy elem)); [apply appends_throw|].
  destruct elem; (apply appends_bind; [by apply appends_modify|]); intros _;
    [apply appends_throw|apply appends_ret..].
Qed.

Lemma appends_saveGraphics options this : appends (saveGraphics options this).
Proof.
  unfold saveGraphics. apply appends_bind; [|intros _; apply appends_ret].
  apply appends_for_in. intros k v. unfold save_option.
  destruct (truthy v); [|apply appends_ret].
  apply appends_bind; [apply appends_data_is|]. intros same.
  destruct (negb same); appends_seq.
Qed.

Lemma appends_restoreGraphics this : appends (restoreGraphics this).
Proof.
  unfold restoreGraphics. apply appends_bind; [apply appends_get|]. intros s.
  apply appends_bind; [|intros _; apply appends_ret].
  apply appends_for_in. intros k v. apply appends_context_set.
Qed.

Hint Resolve appends_setContext appends_saveGraphics appends_restoreGraphics
  : appends.

Lemma appends_setDefaults this : appends (setDefaults this).
Proof.
  unfold setDefaults.
  do 6 (apply appends_bind; [apply appends_data_get|]; intros ?).
  apply appends_bind.
  { apply appends_for_in. intros k v. apply appends_push. }
  intros _. appends_seq.
Qed.

Lemma appends_size w h this : appends (size w h this).
Proof. unfold size. appends_seq. Qed.

Lemma appends_beginFill color this : appends (beginFill color this).
Proof. unfold beginFill. appends_seq. Qed.

Lemma appends_endFill this : appends (endFill this).
Proof. unfold endFill. appends_seq. Qed.

Hint Resolve appends_setDefaults appends_size appends_beginFill
  appends_endFill : appends.

Lemma appends_background color this : appends (background color this).
Proof. unfold background. appends_seq. Qed.

Lemma appends_moveTo args this : appends (moveTo args this).
Proof. unfold moveTo. appends_seq. Qed.

Lemma appends_lineTo args this : appends (lineTo args this).
Proof. unfold lineTo. appends_seq. Qed.

Lemma appends_curveTo x y cpx cpy this : appends (curveTo x y cpx cpy this).
Proof. unfold curveTo. appends_seq. Qed.

Lemma appends_strokeRect args this : appends (strokeRect args this).
Proof. unfold strokeRect. appends_seq. Qed.

Lemma appends_fillRect args this : appends (fillRect args this).
Proof. unfold fillRect. appends_seq. Qed.

Lemma appends_strokeCircle x y radius this : appends (strokeCircle x y radius this).
Proof. unfold strokeCircle. appends_seq. Qed.

Lemma appends_fillCircle x y radius this : appends (fillCircle x y radius this).
Proof. unfold fillCircle. appends_seq. Qed.

Hint Resolve appends_background appends_moveTo appends_lineTo appends_curveTo
  appends_strokeRect appends_fillRect appends_strokeCircle appends_fillCircle
  : appends.

Lemma appends_call c this : appends (call c this).
Proof.
  destruct c; cbn [call]; try solve [ eauto with appends ].
  - unfold stage. appends_seq.
  - unfold lineStyle. appends_seq.
  - unfold line. appends_seq.
  - unfold curve. appends_seq.
  - unfold stroke. appends_seq.
  - unfold rect. appends_seq.
  - unfold circle. appends_seq.
  - unfold beginPath. appends_seq.
  - unfold closePath. appends_seq.
  - unfold eraser. appends_seq.
  - unfold pencil. appends_seq.
  - unfold clear. appends_seq.
  - unfold save. appends_seq.
  - unfold restore. appends_seq.
  - unfold drawImage. appends_seq.
Qed.

(** ** What each operation records *)

Lemma records_ret {A} (a : A) : records (ret a) [].
Proof. intros s Hs. exists a, s. by rewrite app_nil_r. Qed.

Lemma records_bind {A B} (m : M jSketch A) (k : A → M jSketch B) l1 l2 l :
  records m l1 → (∀ a, records (k a) l2) → l = l1 ++ l2 → records (bind m k) l.
Proof.
  intros Hm Hk -> s Hs.
  destruct (Hm s Hs) as (a & s1 & E1 & Hs1 & C1).
  destruct (Hk a s1 Hs1) as (b & s2 & E2 & Hs2 & C2).
  exists b, s2. unfold bind. rewrite E1.
  split; [done|]. split; [done|]. by rewrite C2, C1, app_assoc.
Qed.

Lemma records_get : records get [].
Proof. intros s Hs. exists s, s. by rewrite app_nil_r. Qed.

Lemma records_push entry : records (push entry) [entry].
Proof.
  intros s [Hc Hd]. exists tt, (set_callStack (callStack s ++ [entry]) s).
  by repeat split.
Qed.

Lemma records_on_canvas f : records (on_canvas f) [].
Proof.
  intros s [[c Hc] Hd]. exists tt, (set_canvas (Some (f c)) s).
  unfold on_canvas. rewrite Hc. repeat split; simpl; eauto.
  by rewrite app_nil_r.
Qed.

Lemma records_native name args : records (native name args) [].
Proof. apply records_on_canvas. Qed.

Lemma records_context_set opt val : records (context_set opt val) [].
Proof. apply records_on_canvas. Qed.

Lemma records_for_in_silent (o : Obj) (body : string → Prim → M jSketch unit) :
  (∀ k v, records (body k v) []) → records (for_in o body) [].
Proof.
  intros Hbody. induction o as [|[k v] o IH]; simpl.
  - apply records_ret.
  - eapply records_bind; [apply Hbody|intros _; apply IH|done].
Qed.

Lemma records_restoreGraphics this : records (restoreGraphics this) [].
Proof.
  unfold restoreGraphics.
  eapply records_bind; [apply records_get| |reflexivity]. intros s.
  eapply records_bind;
    [ apply records_for_in_silent; intros k v; apply records_context_set
    | intros _; apply records_ret
    | reflexivity ].
Qed.

Lemma records_saveGraphics_none this : records (saveGraphics None this) [].
Proof.
  unfold saveGraphics. simpl.
  eapply records_bind; [apply records_ret|intros _; apply records_ret|done].
Qed.

Create HintDb records.
Hint Resolve records_ret records_get records_push records_native
  records_context_set records_restoreGraphics records_saveGraphics_none
  : records.

Ltac records_seq :=
  first
    [ solve [ eauto with records ]
    | eapply records_bind;
      [ solve [ eauto with records ] | intros ?; records_seq | reflexivity ] ].

Lemma records_moveTo args this :
  records (moveTo args this) [method_entry "moveTo" args].
Proof. unfold moveTo. records_seq. Qed.

Lemma records_lineTo args this :
  records (lineTo args this) [method_entry "lineTo" args].
Proof. unfold lineTo. records_seq. Qed.

Lemma records_curveTo x y cpx cpy this :
  records (curveTo x y cpx cpy this)
    [method_entry "quadraticCurveTo" [cpx; cpy; x; y]].
Proof. unfold curveTo. records_seq. Qed.

Lemma records_stroke this : records (stroke this) [bare_entry "stroke"].
Proof. unfold stroke. records_seq. Qed.

Lemma records_strokeRect args this :
  records (strokeRect args this) [method_entry "strokeRect" args].
Proof. unfold strokeRect. records_seq. Qed.

Lemma records_fillRect args this :
  records (fillRect args this) [method_entry "fillRect" args].
Proof. unfold fillRect. records_seq. Qed.

Lemma records_strokeCircle x y radius this :
  records (strokeCircle x y radius this)
    [method_entry "strokeCircle" [x; y; radius; num 0; two_pi; PBool false]].
Proof. unfold strokeCircle. records_seq. Qed.

Lemma records_fillCircle x y radius this :
  records (fillCircle x y radius this)
    [method_entry "fillCircle" [x; y; radius; num 0; two_pi; PBool false]].
Proof. unfold fillCircle. records_seq. Qed.

Lemma records_beginFill color this :
  records (beginFill color this) [property_entry "fillStyle" color].
Proof. unfold beginFill. records_seq. Qed.

Lemma records_endFill this : records (endFill this) [].
Proof. unfold endFill. records_seq. Qed.

Hint Resolve records_moveTo records_lineTo records_curveTo records_strokeRect
  records_fillRect records_strokeCircle records_fillCircle records_beginFill
  records_endFill : records.

Lemma records_background color this :
  ∀ s, constructed s →
    ∃ s', background color this s = (Ok this, s') ∧ constructed s' ∧
      callStack s' = callStack s ++
        [property_entry "fillStyle" color;
         property_entry "fillStyle" color;
         method_entry "fillRect" [num 0; num 0; stageWidth s; stageHeight s]].
Proof.
  intros s Hs.
  assert (records
    (beginFill color this ;>
     native "fillRect" (map APrim [num 0; num 0; stageWidth s; stageHeight s]) ;>
     endFill this ;>
     push (property_entry "fillStyle" color) ;>
     push (method_entry "fillRect" [num 0; num 0; stageWidth s; stageHeight s]) ;>
     ret this)
    [property_entry "fillStyle" color;
     property_entry "fillStyle" color;
     method_entry "fillRect" [num 0; num 0; stageWidth s; stageHeight s]]) as H
    by records_seq.
  destruct (H s Hs) as (a & s' & E & Hs' & C).
  destruct (chainable_background color this s Hs) as (a' & s'' & E' & _ & ->).
  unfold background, bind at 1, get in E'. rewrite E in E'.
  injection E' as -> ->. eauto.
Qed.

(** What [this.data[opt] = val] leaves of the instance. *)
Lemma data_set_frame opt val s d :
  data s = Some d →
  let s' := snd (data_set opt val s) in
  fst (data_set opt val s) = Ok tt ∧
  canvas s' = canvas s ∧ callStack s' = callStack s ∧
  stageWidth s' = stageWidth s ∧ stageHeight s' = stageHeight s ∧
  detached s' = detached s ∧ is_Some (data s').
Proof.
  intros Hd. unfold data_set. rewrite Hd.
  destruct (sets_prototype (data_proto s) d opt); [destruct val|];
    simpl; rewrite ?Hd; by eauto 10.
Qed.

(** An assignment to [this.data[opt]] does not change what [this.data]
    has under another name. *)
Lemma data_set_other opt val s d k v :
  data s = Some d → truthy val = true → k ≠ opt →
  let s' := snd (data_set opt val s) in
  ∃ d', data s' = Some d' ∧
        same_value (data_proto s') d' k v = same_value (data_proto s) d k v.
Proof.
  intros Hd Hv Hne. unfold data_set. rewrite Hd.
  destruct (sets_prototype (data_proto s) d opt) eqn:Hset.
  - unfold sets_prototype in Hset.
    apply andb_true_iff in Hset as [[Hopt _]%andb_true_iff Hp].
    apply String.eqb_eq in Hopt. subst opt.
    assert (String.eqb k "__proto__" = false) as Hk by by apply String.eqb_neq.
    destruct val; simpl in Hv; try done; simpl; exists d; (split; [done|]);
      unfold same_value; rewrite Hk; by destruct (data_proto s).
  - simpl. exists (obj_set d opt val). split; [done|].
    unfold same_value. rewrite has_own_set_ne, obj_get_set_ne by done. done.
Qed.

Lemma save_option_spec opt val s d :
  data s = Some d →
  save_option opt val s =
    (Ok tt,
     if changed (data_proto s) d (opt, val)
     then set_callStack (callStack s ++ [property_entry opt val])
            (snd (data_set opt val s))
     else s).
Proof.
  intros Hd. unfold save_option, changed. simpl.
  destruct (truthy val); [|done].
  unfold bind, data_is. rewrite Hd. simpl.
  destruct (same_value (data_proto s) d opt val); [done|]. simpl.
  destruct (data_set_frame opt val s d Hd) as (E & _ & Hl & _).
  destruct (data_set opt val s) as [r s1]. simpl in E, Hl. subst r.
  unfold push, modify. simpl. by rewrite Hl.
Qed.

(** [saveGraphics(options)]: one entry for each option that is set and
    differs from the stored one, in the order of the options. *)
Lemma for_in_save_option (options : Obj) :
  ∀ s d, constructed s → data s = Some d → NoDup (options.*1) →
    ∃ s',
      for_in options save_option s = (Ok tt, s') ∧
      constructed s' ∧
      callStack s' = callStack s ++ changed_entries (data_proto s) d options.
Proof.
  induction options as [|[k v] options IH]; intros s d Hs Hd Hnd.
  - exists s. simpl. by rewrite app_nil_r.
  - apply NoDup_cons in Hnd as [Hk Hnd]. simpl in Hk.
    assert (∀ p' d',
              (∀ k' v', k' ≠ k →
                 same_value p' d' k' v' = same_value (data_proto s) d k' v') →
              changed_entries p' d' options =
                changed_entries (data_proto s) d options) as Hsame.
    { intros p' d' Hd'. unfold changed_entries. f_equal.
      apply List.filter_ext_in. intros [k' v'] Hin. unfold changed. simpl.
      rewrite Hd'; [done|]. intros ->. apply Hk.
      apply list_elem_of_fmap. exists (k, v'). split; [done|].
      by apply list_elem_of_In. }
    cbn [for_in]. unfold bind at 1. rewrite (save_option_spec k v s d Hd).
    unfold changed_entries. cbn [List.filter].
    destruct (changed (data_proto s) d (k, v)) eqn:Hch.
    + assert (truthy v = true) as Hv.
      { unfold changed in Hch. by apply andb_true_iff in Hch as [? _]. }
      destruct (data_set_frame k v s d Hd) as (_ & Hc1 & Hl1 & _ & _ & _ & [d1 Hd1]).
      set (s1 := set_callStack _ _).
      destruct (IH s1 d1) as (s' & E & Hs' & C); [| done | done |].
      { destruct Hs as [Hc _]. split; simpl; [by rewrite Hc1|by eauto]. }
      exists s'. split; [done|]. split; [done|].
      rewrite C. subst s1. cbn [callStack set_callStack data_proto].
      rewrite Hsame.
      * by rewrite <- app_assoc.
      * intros k' v' Hne.
        destruct (data_set_other k v s d k' v' Hd Hv Hne) as (d' & Hd' & Heq).
        rewrite Hd1 in Hd'. by injection Hd' as <-.
    + destruct (IH s d Hs Hd Hnd) as (s' & E & Hs' & C). by exists s'.
Qed.

Lemma records_saveGraphics options this s d :
  constructed s → data s = Some d → NoDup (options.*1) →
  ∃ s', saveGraphics (Some options) this s = (Ok this, s') ∧ constructed s' ∧
    callStack s' = callStack s ++ changed_entries (data_proto s) d options.
Proof.
  intros Hs Hd Hnd.
  destruct (for_in_save_option options s d Hs Hd Hnd) as (s' & E & Hs' & C).
  exists s'. unfold saveGraphics, bind. simpl. by rewrite E.
Qed.


(** ** The constructor *)

Lemma setDefaults_without_options this s :
  data s = None → setDefaults this s = (Throw TypeError, s).
Proof. intros Hd. unfold setDefaults, bind, data_get. by rewrite Hd. Qed.

Lemma bare_ret {A} (a : A) : bare (ret a).
Proof. by intros s. Qed.

Lemma bare_bind {A B} (m : M jSketch A) (k : A → M jSketch B) :
  bare m → (∀ a, bare (k a)) → bare (bind m k).
Proof.
  intros Hm Hk s Hs. specialize (Hm s Hs). unfold bind.
  destruct (m s) as [[a|e] s1]; simpl in Hm; [|done]. by apply Hk.
Qed.

Lemma bare_for_in (o : Obj) (body : string → Prim → M jSketch unit) :
  (∀ k v, bare (body k v)) → bare (for_in o body).
Proof.
  intros Hbody. induction o as [|[k v] o IH]; simpl.
  - apply bare_ret.
  - apply bare_bind; [apply Hbody|]. intros _. apply IH.
Qed.

Lemma bare_on_canvas f : bare (on_canvas f).
Proof.
  intros s Hs. unfold on_canvas. rewrite Hs.
  by destruct (detached s) as [[e [c|]]|].
Qed.

Lemma bare_data_get opt : bare (data_get opt).
Proof. intros s Hs. unfold data_get. by destruct (data s). Qed.

Lemma bare_data_is opt val : bare (data_is opt val).
Proof. intros s Hs. unfold data_is. by destruct (data s). Qed.

Lemma bare_data_set opt val : bare (data_set opt val).
Proof.
  intros s Hs. unfold data_set. destruct (data s) as [d|]; [|done].
  destruct (sets_prototype (data_proto s) d opt); [by destruct val|done].
Qed.

Lemma bare_push entry : bare (push entry).
Proof. by intros s. Qed.

Lemma bare_setDefaults this : bare (setDefaults this).
Proof.
  unfold setDefaults.
  do 6 (apply bare_bind; [apply bare_data_get|]; intros ?).
  apply bare_bind; [apply bare_for_in; intros; apply bare_push|]. intros _.
  apply bare_bind.
  - unfold saveGraphics. apply bare_bind; [|intros; apply bare_ret].
    apply bare_for_in. intros k v. unfold save_option.
    destruct (truthy v); [|apply bare_ret].
    apply bare_bind; [apply bare_data_is|]. intros same.
    destruct (negb same); [|apply bare_ret].
    apply bare_bind; [apply bare_data_set|]. intros _. apply bare_push.
  - intros r. unfold restoreGraphics.
    apply bare_bind; [by intros s|]. intros s.
    apply bare_bind; [|intros; apply bare_ret].
    apply bare_for_in. intros k v. apply bare_on_canvas.
Qed.

(** The constructor, once [elem] is known to be a canvas. *)
Lemma constructor_on_canvas qs elem c options this :
  elem_truthy elem = true →
  selected qs elem = ElCanvas c →
  new_jSketch qs elem options this =
    setDefaults this
      {| canvas := Some c; stageWidth := width c; stageHeight := height c;
         data := options; callStack := [];
         detached := None; data_proto := ObjectPrototype |}.
Proof.
  intros Ht Hc. unfold new_jSketch, constructor. rewrite Ht. cbn [negb].
  rewrite Hc. reflexivity.
Qed.

(** The constructor, when the selector finds nothing. *)
Lemma constructor_no_element qs elem p options this :
  elem_truthy elem = true →
  selected qs elem = ElValue p → truthy p = false →
  new_jSketch qs elem options this =
    (Throw (Error "No canvas element specified."), blank).
Proof.
  intros Ht Hc Hp. unfold new_jSketch, constructor. rewrite Ht. cbn [negb].
  rewrite Hc. unfold bind, setContext. simpl. by rewrite Hp.
Qed.

(** The constructor, when [elem] is, or selects, something that is not a
    canvas. *)
Lemma constructor_no_canvas qs elem p options this :
  elem_truthy elem = true →
  selected qs elem = ElValue p → truthy p = true →
  new_jSketch qs elem options this =
    (Throw TypeError, detach (ElValue p) blank).
Proof.
  intros Ht Hc Hp. unfold new_jSketch, constructor. rewrite Ht. cbn [negb].
  rewrite Hc. unfold bind, setContext. simpl. by rewrite Hp.
Qed.

(** The constructor, when the canvas has no 2D context to give. *)
Lemma constructor_no_context qs elem w h options this :
  elem_truthy elem = true →
  selected qs elem = ElNoContext w h →
  new_jSketch qs elem options this =
    setDefaults this
      {| canvas := None; stageWidth := w; stageHeight := h;
         data := options; callStack := [];
         detached := Some {| element := ElNoContext w h; context_of := None |};
         data_proto := ObjectPrototype |}.
Proof.
  intros Ht Hc. unfold new_jSketch, constructor. rewrite Ht. cbn [negb].
  rewrite Hc. reflexivity.
Qed.

(** C10: the constructor throws 'Sketchable requires a DOM element.' for
    a falsy [elem]; with [options] omitted it throws as well, whatever
    [elem] is, and for a canvas element the exception is the TypeError of
    [setDefaults] reading a property of the undefined [this.data]; it
    returns the new instance exactly when [elem] is, or selects, a canvas
    element and [options] is an object. *)
Theorem constructor_precondition :
  (∀ qs elem options this,
     elem_truthy elem = false →
     new_jSketch qs elem options this =
       (Throw (Error "Sketchable requires a DOM element."), blank)) ∧
  (∀ this s, data s = None → setDefaults this s = (Throw TypeError, s)) ∧
  (∀ qs c this, fst (new_jSketch qs (ElCanvas c) None this) = Throw TypeError) ∧
  (∀ qs elem this, ∃ e, fst (new_jSketch qs elem None this) = Throw e) ∧
  (∀ qs elem options this,
     (∃ s, new_jSketch qs elem options this = (Ok this, s) ∧ constructed s) ↔
     (∃ c, elem = ElCanvas c ∨
           ∃ sel, elem = ElSelector sel ∧ sel ≠ "" ∧ qs sel = ElCanvas c) ∧
     is_Some options).
Proof.
  split; [|split; [|split; [|split]]].
  - intros qs elem options this Ht. unfold new_jSketch, constructor.
    by rewrite Ht.
  - apply setDefaults_without_options.
  - intros qs c this.
    rewrite (constructor_on_canvas qs (ElCanvas c) c None this) by done.
    by rewrite setDefaults_without_options.
  - intros qs elem this.
    destruct (elem_truthy elem) eqn:Ht.
    + destruct (selected qs elem) as [p|c|w h] eqn:Hc.
      * destruct (truthy p) eqn:Hp.
        -- rewrite (constructor_no_canvas qs elem p None this) by done. eauto.
        -- rewrite (constructor_no_element qs elem p None this) by done. eauto.
      * rewrite (constructor_on_canvas qs elem c None this) by done.
        rewrite setDefaults_without_options by done. eauto.
      * rewrite (constructor_no_context qs elem w h None this) by done.
        rewrite setDefaults_without_options by done. eauto.
    + unfold new_jSketch, constructor. rewrite Ht. eauto.
  - intros qs elem options this. split.
    + intros (s & E & Hs).
      destruct (elem_truthy elem) eqn:Ht.
      2:{ unfold new_jSketch, constructor in E. by rewrite Ht in E. }
      destruct (selected qs elem) as [p|c|w h] eqn:Hc.
      * destruct (truthy p) eqn:Hp.
        -- by rewrite (constructor_no_canvas qs elem p options this) in E.
        -- by rewrite (constructor_no_element qs elem p options this) in E.
      * rewrite (constructor_on_canvas qs elem c options this) in E by done.
        split.
        -- exists c. destruct elem as [[]|c'|w h]; try done.
           ++ right. eexists. split; [done|]. split; [|done].
              intros ->. done.
           ++ left. simpl in Hc. congruence.
        -- destruct options as [d|]; [by eauto|].
           by rewrite setDefaults_without_options in E.
      * rewrite (constructor_no_context qs elem w h options this) in E by done.
        pose proof (bare_setDefaults this _ (eq_refl : canvas
          {| canvas := None; stageWidth := w; stageHeight := h;
             data := options; callStack := [];
             detached := Some {| element := ElNoContext w h; context_of := None |};
             data_proto := ObjectPrototype |} = None)) as Hn.
        rewrite E in Hn. simpl in Hn. destruct Hs as [[c Hs] _]. congruence.
    + intros [(c & Hc) [d ->]].
      assert (elem_truthy elem = true ∧ selected qs elem = ElCanvas c)
        as [Ht Hr].
      { destruct Hc as [->|(sel & -> & Hne & Hq)]; [done|]. split; [|done].
        simpl. destruct (String.eqb sel "") eqn:E; [|done].
        apply String.eqb_eq in E. done. }
      rewrite (constructor_on_canvas qs elem c (Some d) this) by done.
      destruct (chainable_setDefaults this
        {| canvas := Some c; stageWidth := width c; stageHeight := height c;
           data := Some d; callStack := [];
           detached := None; data_proto := ObjectPrototype |})
        as (a & s' & E & Hs' & ->).
      { split; simpl; eauto. }
      eauto.
Qed.


End SketchFacts.

(** * Properties of sketchable.memento.js *)

Section MementoFacts.

Import Memento.

Variable toDataURL : Sketch.Canvas → string.

Local Open Scope Z_scope.

(** ** Array indexing *)

Lemma index_Some {A} (l : list A) i x :
  index l i = Some x → 0 ≤ i < Z.of_nat (length l).
Proof.
  unfold index. destruct (0 <=? i) eqn:E; [|done].
  intros H. apply lookup_lt_Some in H. lia.
Qed.

Lemma index_is_Some {A} (l : list A) i :
  0 ≤ i < Z.of_nat (length l) → is_Some (index l i).
Proof.
  intros H. unfold index. destruct (0 <=? i) eqn:E; [|lia].
  apply lookup_lt_is_Some. lia.
Qed.

Lemma index_None {A} (l : list A) i :
  i < 0 ∨ Z.of_nat (length l) ≤ i → index l i = None.
Proof.
  intros H. unfold index. destruct (0 <=? i) eqn:E; [|done].
  apply lookup_ge_None. lia.
Qed.

Lemma index_inj (l : list nat) i j x :
  NoDup l → index l i = Some x → index l j = Some x → i = j.
Proof.
  intros Hnd Hi Hj.
  pose proof (index_Some _ _ _ Hi). pose proof (index_Some _ _ _ Hj).
  unfold index in *.
  destruct (0 <=? i); [|done]. destruct (0 <=? j); [|done].
  pose proof (NoDup_lookup _ _ _ _ Hnd Hi Hj). lia.
Qed.

Lemma index_elem_of {A} (l : list A) i x : index l i = Some x → x ∈ l.
Proof.
  unfold index. destruct (0 <=? i); [|done]. apply list_elem_of_lookup_2.
Qed.

(** ** What each method does to the history *)

Lemma restore_spec (st : option nat) this w :
  restore st this w =
    match (match st with Some a => Some a | None => index (stack w) (stpos w) end) with
    | Some a =>
        match heap w !! a with
        | Some e =>
            (Ok this,
             set_loading (loading w ++ [{| src := image e; state_ref := a |}]) w)
        | None => (Throw TypeError, w)
        end
    | None => (Throw TypeError, w)
    end.
Proof.
  unfold restore, bind, get.
  destruct (match st with Some a => Some a | None => index (stack w) (stpos w) end)
    as [a|]; [|done].
  by destruct (heap w !! a).
Qed.

(** [restore] touches nothing but the list of loading snapshots. *)
Lemma restore_frame st this w :
  let w' := snd (restore st this w) in
  heap w' = heap w ∧ stack w' = stack w ∧ stpos w' = stpos w ∧
  host w' = host w ∧ keypress w' = keypress w.
Proof.
  rewrite restore_spec.
  destruct (match st with Some a => Some a | None => index (stack w) (stpos w) end)
    as [a|]; [|done].
  by destruct (heap w !! a).
Qed.

Lemma undo_spec this w :
  undo this w =
    if 0 <? stpos w
    then
      match restore None this (set_stpos (stpos w - 1) w) with
      | (Ok _, w') => (Ok this, w')
      | (Throw e, w') => (Throw e, w')
      end
    else (Ok this, w).
Proof.
  unfold undo, bind, get. destruct (0 <? stpos w); [|done].
  unfold modify.
  by destruct (restore None this (set_stpos (stpos w - 1) w)) as [[?|?] ?].
Qed.

Lemma redo_spec this w :
  redo this w =
    if stpos w <? Z.of_nat (length (stack w)) - 1
    then
      match restore None this (set_stpos (stpos w + 1) w) with
      | (Ok _, w') => (Ok this, w')
      | (Throw e, w') => (Throw e, w')
      end
    else (Ok this, w).
Proof.
  unfold redo, bind, get.
  destruct (stpos w <? Z.of_nat (length (stack w)) - 1); [|done].
  unfold modify.
  by destruct (restore None this (set_stpos (stpos w + 1) w)) as [[?|?] ?].
Qed.

Lemma save_push_spec ev this w :
  multi_touch ev = false →
  save toDataURL ev this w =
    (Ok this,
     set_stpos (stpos w + 1)
       (set_stack (stack w ++ [length (heap w)])
          (set_heap (heap w ++ [snapshot_of toDataURL (host w)]) w))).
Proof. intros Hev. unfold save, handler, bind, get. by rewrite Hev. Qed.

Lemma save_touch_spec ev this w :
  multi_touch ev = true →
  save toDataURL ev this w =
    match index (stack w) (stpos w) with
    | Some a =>
        (Ok this,
         set_heap (alter (with_strokes (data_strokes (host w))) a (heap w)) w)
    | None => (Throw TypeError, w)
    end.
Proof.
  intros Hev. unfold save, handler, bind, get. rewrite Hev.
  by destruct (index (stack w) (stpos w)).
Qed.

Lemma reset_spec this w :
  reset toDataURL this w =
    (Ok this,
     set_stpos 0
       (set_stack [length (heap w)]
          (set_heap (heap w ++ [snapshot_of toDataURL (host w)]) w))).
Proof. reflexivity. Qed.

Lemma init_spec this w :
  init toDataURL this w =
    save toDataURL None this (set_keypress true (set_keypress false w)).
Proof. reflexivity. Qed.

Lemma destroy_spec this w :
  destroy toDataURL this w = reset toDataURL this (set_keypress false w).
Proof. reflexivity. Qed.

Lemma state_spec w :
  state w =
    match entry_at w (stpos w) with
    | Some e => (Ok (length (heap w)), set_heap (heap w ++ [json_entry e]) w)
    | None => (Throw SyntaxError, w)
    end.
Proof. unfold state, bind, get. by destruct (entry_at w (stpos w)). Qed.

(** ** The history stays well formed *)

Lemma wf_frame w w' :
  stack w' = stack w → stpos w' = stpos w →
  (length (heap w) ≤ length (heap w'))%nat →
  wf w → wf w'.
Proof.
  intros Hst Hp Hh [H1 H2 H3 H4 H5].
  split; rewrite ?Hst, ?Hp; try done.
  eapply Forall_impl; [exact H4|]. simpl. lia.
Qed.

Lemma wf_new h : wf (new_MementoCanvas h).
Proof. split; simpl; try done; try lia. constructor. Qed.

Lemma wf_push e w :
  wf w →
  wf (set_stpos (stpos w + 1)
        (set_stack (stack w ++ [length (heap w)])
           (set_heap (heap w ++ [e]) w))).
Proof.
  intros [H1 H2 H3 H4 H5]. split; simpl.
  - lia.
  - rewrite length_app. simpl. lia.
  - lia.
  - rewrite length_app. simpl. apply Forall_app. split.
    + eapply Forall_impl; [exact H4|]. simpl. lia.
    + repeat constructor. lia.
  - apply NoDup_app. split; [done|]. split; [|apply NoDup_singleton].
    intros a Ha Hin. apply list_elem_of_singleton in Hin. subst a.
    rewrite Forall_forall in H4. specialize (H4 _ Ha). simpl in H4. lia.
Qed.

Lemma wf_reset e w :
  wf (set_stpos 0
        (set_stack [length (heap w)] (set_heap (heap w ++ [e]) w))).
Proof.
  split; simpl; try lia.
  - rewrite length_app. simpl. repeat constructor. lia.
  - apply NoDup_singleton.
Qed.

Lemma wf_set_stpos p w :
  wf w → -1 ≤ p ≤ Z.of_nat (length (stack w)) - 1 →
  (stack w ≠ [] → 0 ≤ p) → wf (set_stpos p w).
Proof. intros [H1 H2 H3 H4 H5] Hp Hne. split; simpl; try done; lia. Qed.

Lemma wf_restore st this w : wf w → wf (snd (restore st this w)).
Proof.
  intros Hw. destruct (restore_frame st this w) as (Hh & Hs & Hp & _).
  apply (wf_frame w); [done..| |done]. by rewrite Hh.
Qed.

Lemma wf_undo this w : wf w → wf (snd (undo this w)).
Proof.
  intros Hw. rewrite undo_spec. destruct (0 <? stpos w) eqn:E; [|done].
  apply Z.ltb_lt in E.
  assert (wf (set_stpos (stpos w - 1) w)) as Hw'.
  { destruct Hw. apply wf_set_stpos; [by split|simpl; lia|simpl; lia]. }
  pose proof (wf_restore None this _ Hw') as Hr.
  by destruct (restore None this (set_stpos (stpos w - 1) w)) as [[?|?] ?].
Qed.

Lemma wf_redo this w : wf w → wf (snd (redo this w)).
Proof.
  intros Hw. rewrite redo_spec.
  destruct (stpos w <? Z.of_nat (length (stack w)) - 1) eqn:E; [|done].
  apply Z.ltb_lt in E.
  assert (wf (set_stpos (stpos w + 1) w)) as Hw'.
  { destruct Hw. apply wf_set_stpos; [by split|simpl; lia|simpl; lia]. }
  pose proof (wf_restore None this _ Hw') as Hr.
  by destruct (restore None this (set_stpos (stpos w + 1) w)) as [[?|?] ?].
Qed.

Lemma wf_save ev this w : wf w → wf (snd (save toDataURL ev this w)).
Proof.
  intros Hw. destruct (multi_touch ev) eqn:Hev.
  - rewrite save_touch_spec by done.
    destruct (index (stack w) (stpos w)) as [a|]; [|done].
    apply (wf_frame w); [done..| |done]. simpl. by rewrite length_alter.
  - rewrite save_push_spec by done. by apply wf_push.
Qed.

Lemma wf_keyManager this ev w : wf w → wf (snd (keyManager this ev w)).
Proof.
  intros Hw. unfold keyManager, keyManager_on.
  destruct (ctrlKey ev); [|done].
  destruct (which ev =? 26).
  - destruct (shiftKey ev); unfold bind.
    + pose proof (wf_redo this w Hw). by destruct (redo this w) as [[?|?] ?].
    + pose proof (wf_undo this w Hw). by destruct (undo this w) as [[?|?] ?].
  - destruct (which ev =? 25); [|done]. unfold bind.
    pose proof (wf_redo this w Hw). by destruct (redo this w) as [[?|?] ?].
Qed.

(** [draw] changes the widget only. *)
Lemma draw_frame snapshot w :
  let w' := snd (draw snapshot w) in
  heap w' = heap w ∧ stack w' = stack w ∧ stpos w' = stpos w ∧
  loading w' = loading w ∧ keypress w' = keypress w.
Proof.
  unfold draw, handler, bind, get, on_sketch. simpl.
  destruct (Sketch.clear 0%nat (data_sketch (host w))) as [[?|?] sk]; [|done].
  simpl.
  destruct (Sketch.native _ _ sk) as [[?|?] sk']; [|done]. simpl.
  by destruct (heap w !! state_ref snapshot).
Qed.

Lemma wf_step this op w : wf w → wf (step toDataURL this op w).
Proof.
  intros Hw. unfold step, perform, drop.
  destruct op as [| |ev| | | | |st|ev|i|h|e|a e]; unfold bind.
  - rewrite init_spec.
    pose proof (wf_save None this (set_keypress true (set_keypress false w))) as H.
    destruct (save toDataURL None this _) as [[?|?] ?]; apply H;
      by apply (wf_frame w).
  - rewrite destroy_spec, reset_spec.
    exact (wf_reset _ (set_keypress false w)).
  - pose proof (wf_save ev this w Hw).
    by destruct (save toDataURL ev this w) as [[?|?] ?].
  - pose proof (wf_undo this w Hw). by destruct (undo this w) as [[?|?] ?].
  - pose proof (wf_redo this w Hw). by destruct (redo this w) as [[?|?] ?].
  - rewrite reset_spec. exact (wf_reset _ w).
  - rewrite state_spec. destruct (entry_at w (stpos w)); [|done]. simpl.
    apply (wf_frame w); [done..| |done]. simpl. rewrite length_app. lia.
  - pose proof (wf_restore st this w Hw).
    by destruct (restore st this w) as [[?|?] ?].
  - unfold get. destruct (keypress w); [|done]. by apply wf_keyManager.
  - unfold get. destruct (loading w !! i) as [sn|]; [|done].
    unfold modify.
    destruct (draw_frame sn (set_loading (delete i (loading w)) w))
      as (Hh & Hs & Hp & _).
    apply (wf_frame w); [exact Hs|exact Hp| |exact Hw]. by rewrite Hh.
  - by apply (wf_frame w).
  - simpl. apply (wf_frame w); [done..| |done]. simpl. rewrite length_app. lia.
  - unfold get. destruct (bool_decide (a ∈ stack w)); [done|]. simpl.
    apply (wf_frame w); [done..| |done]. simpl. by rewrite length_insert.
Qed.

Lemma wf_run this ops w : wf w → wf (run toDataURL this ops w).
Proof.
  revert w. induction ops as [|op ops IH]; intros w Hw; [done|].
  simpl. apply IH. by apply wf_step.
Qed.

Lemma reachable_wf this w : reachable toDataURL this w → wf w.
Proof. intros (h & ops & ->). apply wf_run, wf_new. Qed.

Lemma reachable_step this op w :
  reachable toDataURL this w → reachable toDataURL this (step toDataURL this op w).
Proof.
  intros (h & ops & ->). exists h, (ops ++ [op]).
  unfold run. by rewrite foldl_app.
Qed.

Lemma reachable_run this ops w :
  reachable toDataURL this w → reachable toDataURL this (run toDataURL this ops w).
Proof.
  revert w. induction ops as [|op ops IH]; intros w Hw; [done|].
  simpl. apply IH. by apply reachable_step.
Qed.

(** ** How one step changes the heap and the stack *)

Lemma undo_frame this w :
  let w' := snd (undo this w) in
  heap w' = heap w ∧ stack w' = stack w ∧ host w' = host w ∧
  keypress w' = keypress w.
Proof.
  rewrite undo_spec. destruct (0 <? stpos w); [|done].
  destruct (restore_frame None this (set_stpos (stpos w - 1) w))
    as (Hh & Hs & _ & Hho & Hk).
  by destruct (restore None this (set_stpos (stpos w - 1) w)) as [[?|?] ?].
Qed.

Lemma redo_frame this w :
  let w' := snd (redo this w) in
  heap w' = heap w ∧ stack w' = stack w ∧ host w' = host w ∧
  keypress w' = keypress w.
Proof.
  rewrite redo_spec.
  destruct (stpos w <? Z.of_nat (length (stack w)) - 1); [|done].
  destruct (restore_frame None this (set_stpos (stpos w + 1) w))
    as (Hh & Hs & _ & Hho & Hk).
  by destruct (restore None this (set_stpos (stpos w + 1) w)) as [[?|?] ?].
Qed.

Lemma keyManager_frame this ev w :
  let w' := snd (keyManager this ev w) in
  heap w' = heap w ∧ stack w' = stack w.
Proof.
  unfold keyManager, keyManager_on.
  destruct (ctrlKey ev); [|done].
  destruct (which ev =? 26).
  - destruct (shiftKey ev); unfold bind.
    + destruct (redo_frame this w) as (? & ? & _).
      by destruct (redo this w) as [[?|?] ?].
    + destruct (undo_frame this w) as (? & ? & _).
      by destruct (undo this w) as [[?|?] ?].
  - destruct (which ev =? 25); [|done]. unfold bind.
    destruct (redo_frame this w) as (? & ? & _).
    by destruct (redo this w) as [[?|?] ?].
Qed.

(** The heap after a step: untouched, one object longer, the current
    entry with new strokes, or an object outside the stack rewritten. *)
Lemma step_heap this op w :
  let w' := step toDataURL this op w in
  heap w' = heap w ∨
  (∃ x, heap w' = heap w ++ [x]) ∨
  (∃ a, index (stack w) (stpos w) = Some a ∧
        heap w' = alter (with_strokes (data_strokes (host w))) a (heap w)) ∨
  (∃ a x, (a ∉ stack w) ∧ heap w' = <[a:=x]> (heap w)).
Proof.
  unfold step, perform, drop.
  destruct op as [| |ev| | | | |st|ev|i|h|e|a e]; unfold bind.
  - rewrite init_spec, save_push_spec by done. right; left. by eexists.
  - rewrite destroy_spec, reset_spec. right; left. by eexists.
  - destruct (multi_touch ev) eqn:Hev.
    + rewrite save_touch_spec by done.
      destruct (index (stack w) (stpos w)) as [a|] eqn:Ha; [|by left].
      right; right; left. by exists a.
    + rewrite save_push_spec by done. right; left. by eexists.
  - destruct (undo_frame this w) as (? & _).
    left. by destruct (undo this w) as [[?|?] ?].
  - destruct (redo_frame this w) as (? & _).
    left. by destruct (redo this w) as [[?|?] ?].
  - rewrite reset_spec. right; left. by eexists.
  - rewrite state_spec. destruct (entry_at w (stpos w)); [|by left].
    right; left. by eexists.
  - destruct (restore_frame st this w) as (? & _).
    left. by destruct (restore st this w) as [[?|?] ?].
  - unfold get. destruct (keypress w); [|by left].
    left. by destruct (keyManager_frame this ev w).
  - unfold get. destruct (loading w !! i) as [sn|]; [|by left].
    unfold modify. left.
    by destruct (draw_frame sn (set_loading (delete i (loading w)) w)) as (-> & _).
  - by left.
  - right; left. by eexists.
  - unfold get. destruct (bool_decide (a ∈ stack w)) eqn:E; [by left|].
    apply bool_decide_eq_false in E. right; right; right. by exists a, e.
Qed.

(** The stack after a step: untouched, or the snapshot of the widget
    pushed onto it, or onto a stack emptied by [reset]. *)
Lemma step_stack this op w :
  let w' := step toDataURL this op w in
  stack w' = stack w ∨
  (heap w' = heap w ++ [snapshot_of toDataURL (host w)] ∧
   (stack w' = stack w ++ [length (heap w)] ∨ stack w' = [length (heap w)])).
Proof.
  unfold step, perform, drop.
  destruct op as [| |ev| | | | |st|ev|i|h|e|a e]; unfold bind.
  - rewrite init_spec, save_push_spec by done. right. split; [done|by left].
  - rewrite destroy_spec, reset_spec. right. split; [done|by right].
  - destruct (multi_touch ev) eqn:Hev.
    + rewrite save_touch_spec by done.
      left. by destruct (index (stack w) (stpos w)).
    + rewrite save_push_spec by done. right. split; [done|by left].
  - destruct (undo_frame this w) as (_ & ? & _).
    left. by destruct (undo this w) as [[?|?] ?].
  - destruct (redo_frame this w) as (_ & ? & _).
    left. by destruct (redo this w) as [[?|?] ?].
  - rewrite reset_spec. right. split; [done|by right].
  - rewrite state_spec. left. by destruct (entry_at w (stpos w)).
  - destruct (restore_frame st this w) as (_ & ? & _).
    left. by destruct (restore st this w) as [[?|?] ?].
  - unfold get. destruct (keypress w); [|by left].
    left. by destruct (keyManager_frame this ev w).
  - unfold get. destruct (loading w !! i) as [sn|]; [|by left].
    unfold modify. left.
    by destruct (draw_frame sn (set_loading (delete i (loading w)) w)) as (_ & -> & _).
  - by left.
  - by left.
  - unfold get. left. by destruct (bool_decide (a ∈ stack w)).
Qed.

(** In a well-formed history every slot of the stack holds an entry. *)
Lemma wf_entry_at w i :
  wf w → 0 ≤ i < Z.of_nat (length (stack w)) → is_Some (entry_at w i).
Proof.
  intros Hw Hi. destruct (index_is_Some (stack w) i Hi) as [a Ha].
  unfold entry_at. rewrite Ha. simpl.
  apply lookup_lt_is_Some.
  pose proof (wf_alloc w Hw) as Hall. rewrite Forall_forall in Hall.
  apply (Hall a). by eapply index_elem_of.
Qed.

(** C1: whatever happens to a MementoCanvas (calls of [save], [undo],
    [redo], [reset], [restore], and also [init], [destroy], [state],
    keypresses, snapshots that load, the widget drawing, the caller
    handling state objects), [stpos] stays within the stack: between -1
    and [stack.length - 1], and at least 0 when the stack is not empty;
    every slot of the stack holds an entry; every entry a step pushes
    holds the three components of the widget as they are at that step
    (the bitmap snapshot, the strokes, the sketch's call stack); and once
    pushed an entry keeps its image and its call stack, its strokes being
    replaced only by those of the widget (the multi-touch [save]). *)
Theorem history_invariant (this : Ref) (h : Host) (ops : list Op) :
  let w := run toDataURL this ops (new_MementoCanvas h) in
  (-1 ≤ stpos w ≤ Z.of_nat (length (stack w)) - 1) ∧
  (stack w ≠ [] → 0 ≤ stpos w) ∧
  (∀ i, 0 ≤ i < Z.of_nat (length (stack w)) → is_Some (entry_at w i)) ∧
  (∀ op a,
     a ∈ stack (step toDataURL this op w) → a ∉ stack w →
     heap (step toDataURL this op w) !! a =
       Some {| image := toDataURL (elem (host w));
               strokes := data_strokes (host w);
               callStack := Sketch.callStack (data_sketch (host w)) |}) ∧
  (∀ op a e,
     a ∈ stack w → heap w !! a = Some e →
     ∃ e', heap (step toDataURL this op w) !! a = Some e' ∧
           image e' = image e ∧ callStack e' = callStack e ∧
           (strokes e' = strokes e ∨ strokes e' = data_strokes (host w))).
Proof.
  intros w.
  assert (wf w) as Hw by apply wf_run, wf_new.
  split; [destruct Hw; lia|].
  split; [by destruct Hw|].
  split; [intros i; by apply wf_entry_at|].
  split.
  - intros op a Hin Hnin.
    destruct (step_stack this op w) as [E|[Eh [E|E]]].
    + by rewrite E in Hin.
    + rewrite E in Hin. apply elem_of_app in Hin as [?|Hin]; [done|].
      apply list_elem_of_singleton in Hin. subst a.
      rewrite Eh. by apply list_lookup_middle.
    + rewrite E in Hin. apply list_elem_of_singleton in Hin. subst a.
      rewrite Eh. by apply list_lookup_middle.
  - intros op a e Hin He.
    destruct (step_heap this op w) as [E|[[x E]|[(a0 & Ha0 & E)|(a0 & x & Ha0 & E)]]];
      rewrite E.
    + exists e. auto.
    + exists e. split; [|auto]. by apply lookup_app_l_Some.
    + destruct (decide (a0 = a)) as [->|Hne].
      * exists (with_strokes (data_strokes (host w)) e).
        rewrite list_lookup_alter_eq, He. auto.
      * exists e. rewrite list_lookup_alter_ne by done. auto.
    + exists e. rewrite list_lookup_insert_ne; [auto|]. by intros ->.
Qed.

(** ** Multi-touch *)

(** C2: [save(ev)] with [ev.identifier > 0] pushes nothing and leaves
    [stpos] alone (and the widget, and the snapshots that are loading).
    In a well-formed history, as every reachable one is, that is not
    empty, the call returns the instance, and the current entry
    [stack[stpos]] gets the widget's strokes and keeps its image and its
    call stack; every other slot of the stack holds what it held.  (With
    no current entry, in an empty history, the call throws a TypeError
    and changes nothing at all.) *)
Theorem multi_touch_save_updates_strokes
    (this : Ref) (ev : TouchEvent) (id : Z) (w : World) :
  wf w →
  identifier ev = Some id → 0 < id →
  let w' := snd (save toDataURL (Some ev) this w) in
  stack w' = stack w ∧ stpos w' = stpos w ∧
  host w' = host w ∧ loading w' = loading w ∧
  (stack w ≠ [] →
     fst (save toDataURL (Some ev) this w) = Ok this ∧
     ∃ e, entry_at w (stpos w) = Some e ∧
          entry_at w' (stpos w) =
            Some {| image := image e;
                    strokes := data_strokes (host w);
                    callStack := callStack e |}) ∧
  (∀ i, i ≠ stpos w → entry_at w' i = entry_at w i) ∧
  (stack w = [] → save toDataURL (Some ev) this w = (Throw TypeError, w)).
Proof.
  intros Hw Hid Hpos.
  assert (multi_touch (Some ev) = true) as Hev.
  { simpl. rewrite Hid. by apply Z.ltb_lt. }
  rewrite (save_touch_spec _ this w Hev).
  destruct (index (stack w) (stpos w)) as [a|] eqn:Ha; cbn [fst snd].
  - do 4 (split; [done|]). split; [|split].
    + intros _. split; [done|].
      assert (is_Some (heap w !! a)) as [e He'].
      { apply lookup_lt_is_Some.
        pose proof (wf_alloc w Hw) as Hall. rewrite Forall_forall in Hall.
        apply (Hall a). by eapply index_elem_of. }
      exists e. split.
      { unfold entry_at. by rewrite Ha. }
      unfold entry_at. cbn [stack heap set_heap]. rewrite Ha.
      change (alter (with_strokes (data_strokes (host w))) a (heap w) !! a =
              Some (with_strokes (data_strokes (host w)) e)).
      by rewrite list_lookup_alter_eq, He'.
    + intros i Hi. unfold entry_at. cbn [stack heap set_heap].
      destruct (index (stack w) i) as [b|] eqn:Hb; [|done].
      change (alter (with_strokes (data_strokes (host w))) a (heap w) !! b =
              heap w !! b).
      apply list_lookup_alter_ne. intros ->. apply Hi.
      eapply index_inj; [by apply wf_nodup|done..].
    + intros Hempty. rewrite Hempty in Ha. unfold index in Ha.
      by destruct (0 <=? stpos w).
  - do 4 (split; [done|]). split; [|done].
    intros Hne. exfalso.
    assert (is_Some (index (stack w) (stpos w))) as [? E]; [|congruence].
    apply index_is_Some. destruct Hw as [H1 H2 H3 _ _].
    specialize (H3 Hne). lia.
Qed.

(** ** Undo and redo *)

Lemma restore_current this w :
  wf w → 0 ≤ stpos w →
  ∃ a e,
    index (stack w) (stpos w) = Some a ∧ heap w !! a = Some e ∧
    restore None this w =
      (Ok this, set_loading (loading w ++ [snapshot_for a e]) w).
Proof.
  intros Hw Hp.
  assert (0 ≤ stpos w < Z.of_nat (length (stack w))) as Hi
    by (destruct Hw; lia).
  destruct (wf_entry_at w _ Hw Hi) as [e He]. unfold entry_at in He.
  destruct (index (stack w) (stpos w)) as [a|] eqn:Ha; [|done]. simpl in He.
  exists a, e. rewrite restore_spec, Ha, He. done.
Qed.

Lemma undo_moves this w :
  wf w → 0 < stpos w →
  ∃ b f,
    index (stack w) (stpos w - 1) = Some b ∧ heap w !! b = Some f ∧
    undo this w =
      (Ok this,
       set_loading (loading w ++ [snapshot_for b f]) (set_stpos (stpos w - 1) w)).
Proof.
  intros Hw Hp.
  assert (wf (set_stpos (stpos w - 1) w)) as Hw'.
  { destruct Hw. apply wf_set_stpos; [by split|simpl; lia|simpl; lia]. }
  destruct (restore_current this _ Hw') as (b & f & Hb & Hf & E); [simpl; lia|].
  exists b, f. rewrite undo_spec, E.
  by destruct (0 <? stpos w) eqn:El; [|apply Z.ltb_ge in El; lia].
Qed.

Lemma redo_moves this w :
  wf w → stpos w < Z.of_nat (length (stack w)) - 1 →
  ∃ b f,
    index (stack w) (stpos w + 1) = Some b ∧ heap w !! b = Some f ∧
    redo this w =
      (Ok this,
       set_loading (loading w ++ [snapshot_for b f]) (set_stpos (stpos w + 1) w)).
Proof.
  intros Hw Hp.
  assert (wf (set_stpos (stpos w + 1) w)) as Hw'.
  { destruct Hw. apply wf_set_stpos; [by split|simpl; lia|simpl; lia]. }
  destruct (restore_current this _ Hw') as (b & f & Hb & Hf & E).
  { destruct Hw. simpl. lia. }
  exists b, f. rewrite redo_spec, E.
  by destruct (stpos w <? Z.of_nat (length (stack w)) - 1) eqn:El;
    [|apply Z.ltb_ge in El; lia].
Qed.

(** C4: where [undo] applies ([stpos > 0]), [undo] then [redo] brings
    [stpos] back and the snapshot [redo] starts loading is that of the
    entry that was current before; where [redo] applies
    ([stpos < stack.length - 1]), [redo] then [undo] brings [stpos] back
    likewise, to the same entry.  Neither ever changes the stack or an
    entry. *)
Theorem undo_redo_inverse (this : Ref) (w : World) :
  reachable toDataURL this w →
  (0 < stpos w →
     let w1 := snd (undo this w) in
     let w2 := snd (redo this w1) in
     fst (undo this w) = Ok this ∧ fst (redo this w1) = Ok this ∧
     stpos w1 = stpos w - 1 ∧ stpos w2 = stpos w ∧
     ∃ a e, index (stack w) (stpos w) = Some a ∧ heap w !! a = Some e ∧
            last (loading w2) = Some {| src := image e; state_ref := a |}) ∧
  (stpos w < Z.of_nat (length (stack w)) - 1 →
     let w1 := snd (redo this w) in
     let w2 := snd (undo this w1) in
     fst (redo this w) = Ok this ∧ fst (undo this w1) = Ok this ∧
     stpos w1 = stpos w + 1 ∧ stpos w2 = stpos w ∧
     ∃ a e, index (stack w) (stpos w) = Some a ∧ heap w !! a = Some e ∧
            last (loading w2) = Some {| src := image e; state_ref := a |}) ∧
  (stack (snd (undo this w)) = stack w ∧ heap (snd (undo this w)) = heap w ∧
   stack (snd (redo this w)) = stack w ∧ heap (snd (redo this w)) = heap w).
Proof.
  intros Hr. apply reachable_wf in Hr as Hw. split; [|split].
  - intros Hp.
    destruct (undo_moves this w Hw Hp) as (b & f & Hb & Hf & E1).
    rewrite E1. cbn [fst snd].
    set (w1 := set_loading _ _).
    assert (wf w1) as Hw1.
    { destruct Hw. split; simpl; try done; lia. }
    destruct (redo_moves this w1 Hw1) as (a & e & Ha & He & E2).
    { destruct Hw. simpl. lia. }
    rewrite E2. cbn [fst snd].
    repeat split; [simpl; lia|].
    exists a, e. simpl in Ha, He.
    replace (stpos w - 1 + 1) with (stpos w) in Ha by lia.
    repeat split; [done..|]. simpl. by rewrite last_snoc.
  - intros Hp.
    destruct (redo_moves this w Hw Hp) as (b & f & Hb & Hf & E1).
    rewrite E1. cbn [fst snd].
    set (w1 := set_loading _ _).
    assert (wf w1) as Hw1.
    { destruct Hw. split; simpl; try done; lia. }
    assert (0 ≤ stpos w) as H0.
    { apply (wf_nonempty w Hw). intros Heq. rewrite Heq in Hp. simpl in Hp.
      destruct Hw. lia. }
    destruct (undo_moves this w1 Hw1) as (a & e & Ha & He & E2).
    { simpl. lia. }
    rewrite E2. cbn [fst snd].
    repeat split; [simpl; lia|].
    exists a, e. simpl in Ha, He.
    replace (stpos w + 1 - 1) with (stpos w) in Ha by lia.
    repeat split; [done..|]. simpl. by rewrite last_snoc.
  - destruct (undo_frame this w) as (? & ? & _).
    destruct (redo_frame this w) as (? & ? & _). done.
Qed.

(** C5: at the ends of the history [undo] and [redo] do nothing at all,
    and return the instance: [undo] when [stpos <= 0], [redo] when
    [stpos >= stack.length - 1]; the stack, [stpos], the entries, the
    widget with its canvas, the snapshots that are loading, all stay as
    they are.  So [undo] never takes [stpos] below 0 once it is there:
    the first snapshot is never undone away. *)
Theorem undo_redo_at_the_ends (this : Ref) (w : World) :
  (stpos w ≤ 0 → undo this w = (Ok this, w)) ∧
  (Z.of_nat (length (stack w)) - 1 ≤ stpos w → redo this w = (Ok this, w)) ∧
  (0 ≤ stpos w → 0 ≤ stpos (snd (undo this w))).
Proof.
  split; [|split].
  - intros Hp. rewrite undo_spec.
    by destruct (0 <? stpos w) eqn:E; [apply Z.ltb_lt in E; lia|].
  - intros Hp. rewrite redo_spec.
    by destruct (stpos w <? Z.of_nat (length (stack w)) - 1) eqn:E;
      [apply Z.ltb_lt in E; lia|].
  - intros Hp. rewrite undo_spec.
    destruct (0 <? stpos w) eqn:E; [|done]. apply Z.ltb_lt in E.
    destruct (restore_frame None this (set_stpos (stpos w - 1) w))
      as (_ & _ & Hs & _).
    destruct (restore None this (set_stpos (stpos w - 1) w)) as [[?|?] ?];
      simpl in *; lia.
Qed.

(** ** Keyboard shortcuts *)

(** C8: the key event manager calls [redo] on Ctrl+Shift+Z (key code 26
    with [shiftKey]), [undo] on Ctrl+Z (key code 26 without), [redo] on
    Ctrl+Y (key code 25), and for every other event, any event without
    [ctrlKey] among them, it calls neither and does nothing: this holds
    whatever [undo] and [redo] are, so no call of them goes unseen.  The
    MementoCanvas installs this manager with its own [undo] and [redo],
    and a keypress reaches it only while it is attached. *)
Theorem keyManager_dispatch {S : Type} (on_undo on_redo : Ref → M S Ref)
    (self : Ref) (ev : KeyEvent) :
  (ctrlKey ev = true → which ev = 26 → shiftKey ev = true →
     keyManager_on on_undo on_redo self ev = (on_redo self ;> ret tt)%js) ∧
  (ctrlKey ev = true → which ev = 26 → shiftKey ev = false →
     keyManager_on on_undo on_redo self ev = (on_undo self ;> ret tt)%js) ∧
  (ctrlKey ev = true → which ev = 25 →
     keyManager_on on_undo on_redo self ev = (on_redo self ;> ret tt)%js) ∧
  (ctrlKey ev = false ∨ (which ev ≠ 26 ∧ which ev ≠ 25) →
     keyManager_on on_undo on_redo self ev = ret tt) ∧
  keyManager self ev = keyManager_on undo redo self ev ∧
  (∀ w, step toDataURL self (OKeypress ev) w =
          if keypress w then snd (keyManager self ev w) else w).
Proof.
  unfold keyManager_on. repeat split.
  - by intros -> -> ->.
  - by intros -> -> ->.
  - by intros -> ->.
  - intros [->|[H26 H25]]; [done|].
    destruct (ctrlKey ev); [|done].
    apply Z.eqb_neq in H26, H25. by rewrite H26, H25.
  - intros w. unfold step, perform, bind, get. by destruct (keypress w).
Qed.

(** ** Reading the current state *)

Lemma JsValue_nested_ind (P : JsValue → Prop) :
  (∀ p, P (VPrim p)) →
  (∀ items, Forall P items → P (VArray items)) →
  (∀ props, Forall (λ kv, P (kv.2)) props → P (VObject props)) →
  ∀ v, P v.
Proof.
  intros HP HA HO. fix IH 1. intros [p|items|props].
  - apply HP.
  - apply HA. induction items as [|x items IHl]; constructor;
      [apply IH|apply IHl].
  - apply HO. induction props as [|[k x] props IHl]; constructor;
      [apply IH|apply IHl].
Qed.

(** JSON gives back what it represents exactly. *)
Lemma json_copy_clean v : json_clean v = true → json_copy v = Some v.
Proof.
  induction v as [p|items IH|props IH] using JsValue_nested_ind.
  - destruct p as [| | |n| |]; simpl; try done. by destruct n.
  - simpl. intros Hc. do 2 f_equal.
    induction IH as [|x items Hx _ IHl]; [done|].
    apply andb_true_iff in Hc as [Hcx Hcl].
    rewrite (Hx Hcx). f_equal. by apply IHl.
  - simpl. intros Hc. do 2 f_equal.
    induction IH as [|[k x] props Hx _ IHl]; [done|].
    apply andb_true_iff in Hc as [Hcx Hcl]. simpl in Hx.
    rewrite (Hx Hcx). f_equal. by apply IHl.
Qed.

Lemma json_item_clean v : json_clean v = true → json_item v = v.
Proof. intros Hc. unfold json_item. by rewrite json_copy_clean. Qed.

Lemma json_items_clean (l : list JsValue) :
  forallb json_clean l = true → map json_item l = l.
Proof.
  induction l as [|x l IH]; [done|]. simpl.
  intros [Hx Hl]%andb_true_iff. by rewrite json_item_clean, IH.
Qed.

Lemma json_entry_clean e : json_clean_entry e = true → json_entry e = e.
Proof.
  destruct e as [im st cs]. unfold json_clean_entry, json_entry. simpl.
  intros [Hs Hc]%andb_true_iff. by rewrite !json_items_clean.
Qed.

Lemma step_nonempty this op w :
  stack w ≠ [] → stack (step toDataURL this op w) ≠ [].
Proof.
  intros Hne. destruct (step_stack this op w) as [E|[_ [E|E]]]; rewrite E.
  - done.
  - by destruct (stack w).
  - done.
Qed.

Lemma run_nonempty this ops w :
  stack w ≠ [] → stack (run toDataURL this ops w) ≠ [].
Proof.
  revert w. induction ops as [|op ops IH]; intros w Hne; [done|].
  simpl. apply IH. by apply step_nonempty.
Qed.

Lemma state_succeeds w :
  wf w → stack w ≠ [] → ∃ r w', state w = (Ok r, w').
Proof.
  intros Hw Hne. rewrite state_spec.
  destruct (wf_entry_at w (stpos w) Hw) as [e He].
  { pose proof (wf_nonempty w Hw Hne). destruct Hw. lia. }
  rewrite He. eauto.
Qed.

(** C9, as amended: on a history that is not empty ([stpos >= 0])
    [state()] returns a new object, the JSON copy of the current entry:
    equal to the entry in value when the entry holds nothing but what
    JSON represents (no [undefined], no NaN or infinity, no negative
    zero, no host object such as the [Image] that [drawImage] records),
    and in every case an object of its own, so that whatever is later
    written to it leaves every entry of the stack as it was.  On an
    empty history ([stpos = -1]) [state()] throws (a SyntaxError:
    [JSON.parse(undefined)]) and returns nothing.  Once [init] or [reset]
    has run, and whatever happens afterwards, [state()] returns. *)
Theorem state_returns_json_copy (this : Ref) (w : World) :
  reachable toDataURL this w →
  (0 ≤ stpos w →
     ∃ e, entry_at w (stpos w) = Some e ∧
       state w = (Ok (length (heap w)), set_heap (heap w ++ [json_entry e]) w) ∧
       (json_clean_entry e = true → json_entry e = e) ∧
       (∀ e' i,
          entry_at (step toDataURL this (OMutate (length (heap w)) e')
                      (snd (state w))) i = entry_at w i)) ∧
  (stpos w = -1 → state w = (Throw SyntaxError, w)) ∧
  (∀ ops, ∃ r w',
     state (run toDataURL this ops (step toDataURL this OInit w)) = (Ok r, w')) ∧
  (∀ ops, ∃ r w',
     state (run toDataURL this ops (step toDataURL this OReset w)) = (Ok r, w')).
Proof.
  intros Hr. apply reachable_wf in Hr as Hw. split; [|split; [|split]].
  - intros Hp.
    destruct (wf_entry_at w (stpos w) Hw) as [e He]; [destruct Hw; lia|].
    exists e. split; [done|]. rewrite state_spec, He. split; [done|].
    split; [apply json_entry_clean|].
    intros e' i. cbn [snd]. unfold step, perform, bind, get.
    cbn [stack set_heap].
    assert (length (heap w) ∉ stack w) as Hfresh.
    { intros Hin. pose proof (wf_alloc w Hw) as Hall.
      rewrite Forall_forall in Hall. specialize (Hall _ Hin). simpl in Hall. lia. }
    rewrite bool_decide_eq_false_2 by done.
    unfold entry_at, modify. cbn [snd stack heap set_heap].
    destruct (index (stack w) i) as [b|] eqn:Hb; [|done].
    change ((<[length (heap w):=e']> (heap w ++ [json_entry e])) !! b = heap w !! b).
    assert (b < length (heap w))%nat as Hlt.
    { pose proof (wf_alloc w Hw) as Hall. rewrite Forall_forall in Hall.
      apply (Hall b). by eapply index_elem_of. }
    rewrite list_lookup_insert_ne by lia. by apply lookup_app_l.
  - intros Hp. rewrite state_spec. unfold entry_at.
    rewrite index_None by lia. done.
  - intros ops. apply state_succeeds.
    + apply wf_run. by apply wf_step.
    + apply run_nonempty. unfold step, perform, drop, bind.
      rewrite init_spec, save_push_spec by done. simpl.
      by destruct (stack w).
  - intros ops. apply state_succeeds.
    + apply wf_run. by apply wf_step.
    + apply run_nonempty. unfold step, perform, drop, bind.
      by rewrite reset_spec.
Qed.

(** X1: what [save] does in every state, when the event is not a
    further touch point: it returns the instance; one entry, the
    snapshot of the widget, goes to the end of the stack; [stpos] goes
    up by one.  The new [stpos] is the slot of the new entry exactly
    when [stpos] was on the last slot before. *)
Theorem save_pushes_snapshot (this : Ref) (ev : option TouchEvent) (w : World) :
  reachable toDataURL this w →
  multi_touch ev = false →
  let w' := snd (save toDataURL ev this w) in
  fst (save toDataURL ev this w) = Ok this ∧
  stack w' = stack w ++ [length (heap w)] ∧
  stpos w' = stpos w + 1 ∧
  (∀ i, i < Z.of_nat (length (stack w)) → entry_at w' i = entry_at w i) ∧
  entry_at w' (Z.of_nat (length (stack w))) =
    Some {| image := toDataURL (elem (host w));
            strokes := data_strokes (host w);
            callStack := Sketch.callStack (data_sketch (host w)) |} ∧
  (stpos w' = Z.of_nat (length (stack w)) ↔
   stpos w = Z.of_nat (length (stack w)) - 1).
Proof.
  intros Hr Hev. apply reachable_wf in Hr as Hw.
  rewrite save_push_spec by done. cbn [fst snd].
  split; [done|]. split; [done|]. split; [done|]. split; [|split].
  - intros i Hi. unfold entry_at. cbn [stack heap set_stpos set_stack set_heap].
    unfold index. destruct (0 <=? i) eqn:E; [|done].
    apply Z.leb_le in E.
    rewrite lookup_app_l by lia.
    destruct (stack w !! Z.to_nat i) as [a|] eqn:Ha; [|done].
    change ((heap w ++ [snapshot_of toDataURL (host w)]) !! a = heap w !! a).
    apply lookup_app_l.
    pose proof (wf_alloc w Hw) as Hall. rewrite Forall_forall in Hall.
    apply (Hall a). by eapply list_elem_of_lookup_2.
  - unfold entry_at. cbn [stack heap set_stpos set_stack set_heap].
    unfold index. rewrite (proj2 (Z.leb_le 0 _)) by lia.
    rewrite Nat2Z.id, list_lookup_middle by done.
    change ((heap w ++ [snapshot_of toDataURL (host w)]) !! length (heap w) =
            Some (snapshot_of toDataURL (host w))).
    by apply list_lookup_middle.
  - simpl. lia.
Qed.


(** ** Saving after an undo *)

(** C3, at the failing input: after [init], a stroke and a [save], an
    [undo], another stroke and a [save], the stack holds three entries,
    the last being the one just saved, but [stpos] is 1: the current
    entry is the one that was undone, not the new one.  A further touch
    point then puts its strokes into the undone entry, and leaves the
    snapshot just stored as it is. *)
Theorem save_after_undo_is_not_current (this : Ref) :
  let w := run toDataURL this Examples.save_after_undo
             (new_MementoCanvas Examples.host0) in
  let w' := run toDataURL this
              [OHost Examples.host0; OSave (Some Examples.second_touch)] w in
  stack w = [0; 1; 2]%nat ∧
  stpos w = 1 ∧
  entry_at w 2 = Some (snapshot_of toDataURL Examples.host2) ∧
  entry_at w (stpos w) = Some (snapshot_of toDataURL Examples.host1) ∧
  snapshot_of toDataURL Examples.host1 ≠ snapshot_of toDataURL Examples.host2 ∧
  entry_at w' 2 = entry_at w 2 ∧
  strokes <$> entry_at w 1 = Some [Examples.stroke1] ∧
  strokes <$> entry_at w' 1 = Some [].
Proof.
  do 4 (split; [vm_compute; reflexivity|]).
  split; [|split; [|split]; vm_compute; reflexivity].
  intros H. apply (f_equal strokes) in H. discriminate H.
Qed.

End MementoFacts.

(** * The theorems at work *)

Section Instances.

Import Memento Examples.

Lemma world2_reachable : reachable demo_toDataURL 0 world2.
Proof. exists host0. eexists. reflexivity. Defined.

Lemma world3_reachable : reachable demo_toDataURL 0 world3.
Proof. exists host0. eexists. reflexivity. Defined.

Lemma world_image_reachable : reachable demo_toDataURL 0 world_image.
Proof. exists host0. eexists. reflexivity. Defined.

(** The key manager on the counting object: Ctrl+Z is one [undo],
    Ctrl+Shift+Z and Ctrl+Y are one [redo] each, a plain "z" is
    nothing. *)
Example keyManager_counts :
  snd (keyManager_on count_undo count_redo 0 ctrl_z (0, 0)) = (1, 0) ∧
  snd (keyManager_on count_undo count_redo 0 ctrl_shift_z (0, 0)) = (0, 1) ∧
  snd (keyManager_on count_undo count_redo 0 ctrl_y (0, 0)) = (0, 1) ∧
  snd (keyManager_on count_undo count_redo 0 plain_z (0, 0)) = (0, 0).
Proof. by repeat split. Qed.

(** C2 on the three-entry history: a second finger lifts while the
    second entry is current.  That entry held the first stroke; it gets
    the two strokes the widget has by then. *)
Lemma multi_touch_save_updates_strokes_witness :
  wf world3 ∧
  identifier second_touch = Some 1%Z ∧ (0 < 1)%Z ∧
  stack world3 ≠ [] ∧
  entry_at world3 (stpos world3) = Some (snapshot_of demo_toDataURL host1) ∧
  strokes (snapshot_of demo_toDataURL host1) = [stroke1] ∧
  fst (save demo_toDataURL (Some second_touch) 0 world3) = Ok 0 ∧
  entry_at (snd (save demo_toDataURL (Some second_touch) 0 world3))
      (stpos world3) =
    Some {| image := image (snapshot_of demo_toDataURL host1);
            strokes := [stroke1; stroke2];
            callStack := callStack (snapshot_of demo_toDataURL host1) |}.
Proof.
  assert (wf world3) as Hw
    by exact (reachable_wf demo_toDataURL 0 world3 world3_reachable).
  assert (stack world3 ≠ []) as Hne by (vm_compute; discriminate).
  assert (entry_at world3 (stpos world3) =
          Some (snapshot_of demo_toDataURL host1)) as Hcur
    by (vm_compute; reflexivity).
  destruct (multi_touch_save_updates_strokes demo_toDataURL 0 second_touch
              1%Z world3 Hw eq_refl eq_refl)
    as (_ & _ & _ & _ & Hsave & _).
  destruct (Hsave Hne) as (Hok & e & He & He').
  rewrite Hcur in He. injection He as <-.
  split; [exact Hw|]. split; [reflexivity|]. split; [lia|].
  split; [exact Hne|]. split; [exact Hcur|]. split; [reflexivity|].
  split; [exact Hok|]. exact He'.
Defined.

(** C4 on the three-entry history, where both [undo] and [redo] apply. *)
Lemma undo_redo_inverse_witness :
  reachable demo_toDataURL 0 world3 ∧
  (0 < stpos world3)%Z ∧
  stpos (snd (redo 0 (snd (undo 0 world3)))) = stpos world3 ∧
  (stpos world3 < Z.of_nat (length (stack world3)) - 1)%Z ∧
  stpos (snd (undo 0 (snd (redo 0 world3)))) = stpos world3.
Proof.
  pose proof (undo_redo_inverse demo_toDataURL 0 world3 world3_reachable)
    as (Hur & Hru & _).
  split; [exact world3_reachable|].
  split; [reflexivity|].
  split; [exact (proj1 (proj2 (proj2 (proj2 (Hur eq_refl)))))|].
  split; [reflexivity|].
  exact (proj1 (proj2 (proj2 (proj2 (Hru eq_refl))))).
Defined.



(** C9 on the two-entry history. *)
Lemma state_returns_json_copy_witness :
  reachable demo_toDataURL 0 world2 ∧
  (0 ≤ stpos world2)%Z ∧
  ∃ e, entry_at world2 (stpos world2) = Some e ∧
       state world2 =
         (Ok (length (heap world2)),
          set_heap (heap world2 ++ [json_entry e]) world2) ∧
       (json_clean_entry e = true → json_entry e = e) ∧
       (∀ e' i,
          entry_at (step demo_toDataURL 0 (OMutate (length (heap world2)) e')
                      (snd (state world2))) i = entry_at world2 i).
Proof.
  split; [exact world2_reachable|]. split; [vm_compute; discriminate|].
  refine (proj1 (state_returns_json_copy demo_toDataURL 0 world2
                   world2_reachable) _).
  vm_compute. discriminate.
Defined.

(** C9 does not hold as stated: when the sketch has drawn an image, the
    entry saved holds the [Image] in its call stack, and the copy that
    [state()] returns holds an empty object in its place. *)
Lemma state_copy_differs_from_entry :
  reachable demo_toDataURL 0 world_image ∧
  (0 ≤ stpos world_image)%Z ∧
  ∃ e e' r,
    entry_at world_image (stpos world_image) = Some e ∧
    fst (state world_image) = Ok r ∧
    heap (snd (state world_image)) !! r = Some e' ∧
    e' ≠ e.
Proof.
  split; [exact world_image_reachable|]. split; [vm_compute; discriminate|].
  eexists. eexists. eexists.
  split; [vm_compute; reflexivity|].
  split; [vm_compute; reflexivity|].
  split; [vm_compute; reflexivity|].
  intros H. apply (f_equal callStack) in H. vm_compute in H. discriminate H.
Qed.

(** X1 on the two-entry history, positioned on its last entry. *)
Lemma save_pushes_snapshot_witness :
  reachable demo_toDataURL 0 world2 ∧
  multi_touch None = false ∧
  let w' := snd (save demo_toDataURL None 0 world2) in
  stack w' = [0; 1; 2] ∧ stpos w' = 2%Z ∧
  (stpos w' = Z.of_nat (length (stack world2)) ↔
   stpos world2 = (Z.of_nat (length (stack world2)) - 1)%Z).
Proof.
  pose proof (save_pushes_snapshot demo_toDataURL 0 None world2
                world2_reachable eq_refl) as (_ & Hs & Hp & _ & _ & Hiff).
  split; [exact world2_reachable|]. split; [reflexivity|].
  split; [exact Hs|]. split; [exact Hp|]. exact Hiff.
Defined.


End Instances.

(** * More on jsketch.js: the drawing settings *)

Section SketchSettings.

Import Sketch.

(** ** Strict equality and truthiness *)

Lemma strict_eq_refl v : truthy v = true → strict_eq v v = true.
Proof.
  destruct v as [| |b|n|str|id]; simpl; try done.
  - by intros ->.
  - destruct n as [m e| | |neg]; simpl; try done.
    + intros _. rewrite Z.min_id. by apply Z.eqb_refl.
    + intros _. by destruct neg.
  - intros _. apply String.eqb_refl.
  - intros _. apply Nat.eqb_refl.
Qed.

Lemma strict_eq_truthy a b : strict_eq a b = true → truthy a = truthy b.
Proof.
  destruct a as [| |x|x|x|x], b as [| |y|y|y|y]; simpl; try done.
  - intros H. by apply Bool.eqb_prop in H.
  - destruct x as [m e| | |s], y as [m' e'| | |t]; simpl; try done.
    + intros H. apply Z.eqb_eq in H.
      assert (0 < 2 ^ (e - Z.min e e'))%Z by (apply Z.pow_pos_nonneg; lia).
      assert (0 < 2 ^ (e' - Z.min e e'))%Z by (apply Z.pow_pos_nonneg; lia).
      destruct (Z.eqb_spec m 0) as [->|Hm], (Z.eqb_spec m' 0) as [->|Hm'];
        simpl; try done; nia.
    + by intros ->.
    + by intros ->.
  - intros H. apply String.eqb_eq in H. by subst.
Qed.

(** ** Objects *)

Lemma obj_set_fresh (o : Obj) k v : k ∉ o.*1 → obj_set o k v = o ++ [(k, v)].
Proof.
  induction o as [|[k' v'] o IH]; [done|]. simpl. intros Hk.
  apply not_elem_of_cons in Hk as [Hne Hk].
  destruct (String.eqb k' k) eqn:E.
  - apply String.eqb_eq in E. by subst.
  - by rewrite IH.
Qed.

Lemma obj_set_keys (o : Obj) k v k' :
  k' ∈ (obj_set o k v).*1 ↔ k' = k ∨ k' ∈ o.*1.
Proof.
  induction o as [|[k0 v0] o IH]; simpl.
  - rewrite list_elem_of_singleton. split; [auto|].
    intros [?|H]; [done|by apply elem_of_nil in H].
  - destruct (String.eqb k0 k) eqn:E; simpl.
    + apply String.eqb_eq in E. subst k0. rewrite !elem_of_cons. tauto.
    + rewrite !elem_of_cons, IH. tauto.
Qed.

Lemma obj_set_NoDup (o : Obj) k v : NoDup (o.*1) → NoDup ((obj_set o k v).*1).
Proof.
  induction o as [|[k0 v0] o IH]; simpl.
  - intros _. apply NoDup_singleton.
  - intros [Hk Hnd]%NoDup_cons.
    destruct (String.eqb k0 k) eqn:E; simpl.
    + apply String.eqb_eq in E. subst k0. by apply NoDup_cons.
    + apply NoDup_cons. split; [|by apply IH].
      rewrite obj_set_keys. intros [->|?]; [|done].
      by rewrite String.eqb_refl in E.
Qed.

Lemma obj_get_elem (o : Obj) k v : NoDup (o.*1) → (k, v) ∈ o → obj_get o k = v.
Proof.
  induction o as [|[k0 v0] o IH]; [by intros _ ?%elem_of_nil|]. simpl.
  intros [Hk Hnd]%NoDup_cons [E|Hin]%elem_of_cons.
  - injection E as -> ->. by rewrite String.eqb_refl.
  - destruct (String.eqb k0 k) eqn:E; [|by apply IH].
    apply String.eqb_eq in E. subst k0. exfalso. apply Hk.
    apply list_elem_of_fmap. by exists (k, v).
Qed.

Lemma obj_get_absent (o : Obj) k : k ∉ o.*1 → obj_get o k = PUndefined.
Proof.
  induction o as [|[k0 v0] o IH]; [done|]. simpl.
  intros [Hne Hk]%not_elem_of_cons.
  destruct (String.eqb k0 k) eqn:E; [|by apply IH].
  apply String.eqb_eq in E. by subst.
Qed.

Lemma obj_get_truthy_key (d : Obj) k : truthy (obj_get d k) = true → k ∈ d.*1.
Proof.
  intros Ht. destruct (decide (k ∈ d.*1)) as [|Hk]; [done|].
  by rewrite (obj_get_absent d k Hk) in Ht.
Qed.

(** ** Copying the stored options to the context *)

Lemma obj_get_assign_all_notin (d p : Obj) k :
  k ∉ d.*1 → obj_get (assign_all p d) k = obj_get p k.
Proof.
  revert p. induction d as [|[k0 v0] d IH]; intros p; [done|]. simpl.
  intros [Hne Hk]%not_elem_of_cons.
  change (obj_get (assign_all (obj_set p k0 v0) d) k = obj_get p k).
  rewrite IH by done. by apply obj_get_set_ne.
Qed.

Lemma obj_get_assign_all_in (d p : Obj) k v :
  NoDup (d.*1) → (k, v) ∈ d → obj_get (assign_all p d) k = v.
Proof.
  revert p. induction d as [|[k0 v0] d IH]; intros p;
    [by intros _ ?%elem_of_nil|]. simpl.
  intros [Hk Hnd]%NoDup_cons [E|Hin]%elem_of_cons.
  - injection E as -> ->.
    change (obj_get (assign_all (obj_set p k0 v0) d) k0 = v0).
    rewrite obj_get_assign_all_notin by done. apply obj_get_set_eq.
  - by apply IH.
Qed.

Lemma assign_all_fresh (d p : Obj) :
  NoDup (p.*1 ++ d.*1) → assign_all p d = p ++ d.
Proof.
  revert p. induction d as [|[k0 v0] d IH]; intros p.
  - intros _. simpl. by rewrite app_nil_r.
  - intros Hnd.
    change (assign_all (obj_set p k0 v0) d = p ++ (k0, v0) :: d).
    rewrite fmap_cons in Hnd. cbn [fst] in Hnd.
    apply NoDup_app in Hnd as (Hp & Hdis & Hd).
    assert (k0 ∉ p.*1) as Hk0.
    { intros Hin. apply (Hdis _ Hin). by left. }
    rewrite obj_set_fresh by done.
    rewrite IH; [by rewrite <- app_assoc|].
    rewrite fmap_app. simpl. rewrite <- app_assoc. simpl.
    apply NoDup_app. split; [done|]. split; [|done].
    intros k Hin. by apply Hdis.
Qed.

Lemma for_in_context_set (d : Obj) s c :
  canvas s = Some c →
  for_in d (λ opt val, context_set opt val) s =
    (Ok tt, set_canvas (Some (with_context_props (assign_all (context_props c) d) c)) s).
Proof.
  revert s c. induction d as [|[k v] d IH]; intros s c Hc.
  - simpl. unfold ret. f_equal. destruct s, c. simpl in *. by subst.
  - cbn [for_in]. unfold bind at 1, context_set at 1, on_canvas. rewrite Hc.
    erewrite IH by reflexivity. done.
Qed.

Lemma restoreGraphics_spec this s c :
  canvas s = Some c →
  restoreGraphics this s =
    (Ok this,
     set_canvas
       (Some (with_context_props
                (assign_all (context_props c) (default [] (data s))) c)) s).
Proof.
  intros Hc. unfold restoreGraphics, bind, get.
  by rewrite (for_in_context_set _ s c Hc).
Qed.

(** ** Storing the options *)

Lemma obj_get_store_all_notin (o d : Obj) k :
  k ∉ o.*1 → obj_get (store_all d o) k = obj_get d k.
Proof.
  revert d. induction o as [|[k0 v0] o IH]; intros d; [done|]. simpl.
  intros [Hne Hk]%not_elem_of_cons.
  change (obj_get (store_all (if differs d (k0, v0) then obj_set d k0 v0 else d) o) k
          = obj_get d k).
  rewrite IH by done.
  destruct (differs d (k0, v0)); [by apply obj_get_set_ne|done].
Qed.

Lemma obj_get_store_all_in (o d : Obj) k v :
  NoDup (o.*1) → (k, v) ∈ o →
  obj_get (store_all d o) k = if differs d (k, v) then v else obj_get d k.
Proof.
  revert d. induction o as [|[k0 v0] o IH]; intros d;
    [by intros _ ?%elem_of_nil|]. simpl.
  intros [Hk Hnd]%NoDup_cons [E|Hin]%elem_of_cons.
  - injection E as -> ->.
    change (obj_get (store_all (if differs d (k0, v0) then obj_set d k0 v0 else d) o) k0
            = if differs d (k0, v0) then v0 else obj_get d k0).
    rewrite obj_get_store_all_notin by done.
    destruct (differs d (k0, v0)); [apply obj_get_set_eq|done].
  - assert (k0 ≠ k) as Hne.
    { intros ->. apply Hk. apply list_elem_of_fmap. by exists (k, v). }
    change (obj_get (store_all (if differs d (k0, v0) then obj_set d k0 v0 else d) o) k
            = if differs d (k, v) then v else obj_get d k).
    rewrite (IH _ Hnd Hin). unfold differs. simpl.
    destruct (truthy v0 && negb (strict_eq v0 (obj_get d k0))); [|done].
    by rewrite obj_get_set_ne.
Qed.

Lemma store_all_NoDup (o d : Obj) : NoDup (d.*1) → NoDup ((store_all d o).*1).
Proof.
  revert d. induction o as [|[k0 v0] o IH]; intros d Hd; [done|].
  change (NoDup ((store_all (if differs d (k0, v0) then obj_set d k0 v0 else d) o).*1)).
  apply IH. destruct (differs d (k0, v0)); [by apply obj_set_NoDup|done].
Qed.

Lemma store_all_keys (o d : Obj) k : k ∈ d.*1 → k ∈ (store_all d o).*1.
Proof.
  revert d. induction o as [|[k0 v0] o IH]; intros d Hd; [done|].
  change (k ∈ (store_all (if differs d (k0, v0) then obj_set d k0 v0 else d) o).*1).
  apply IH. destruct (differs d (k0, v0)); [|done].
  apply obj_set_keys. by right.
Qed.

Lemma store_all_unchanged (o d : Obj) :
  (∀ kv, kv ∈ o → differs d kv = false) → store_all d o = d.
Proof.
  induction o as [|[k0 v0] o IH]; intros H; [done|].
  change (store_all (if differs d (k0, v0) then obj_set d k0 v0 else d) o = d).
  rewrite (H (k0, v0)) by left. apply IH. intros kv Hin. apply H. by right.
Qed.

(** Once stored, nothing is left to store. *)
Lemma store_all_settled (o d : Obj) kv :
  NoDup (o.*1) → kv ∈ o → differs (store_all d o) kv = false.
Proof.
  destruct kv as [k v]. intros Hnd Hin. unfold differs at 1. simpl.
  rewrite (obj_get_store_all_in o d k v Hnd Hin).
  destruct (truthy v) eqn:Ht; [|done]. simpl. unfold differs. simpl. rewrite Ht.
  simpl. destruct (strict_eq v (obj_get d k)) eqn:E; simpl.
  - by rewrite E.
  - by rewrite strict_eq_refl.
Qed.

(** Under a name other than [__proto__], what [this.data] has is its
    own property, as far as a value that is set can tell. *)
Lemma strict_eq_undefined v : truthy v = true → strict_eq v PUndefined = false.
Proof. by destruct v. Qed.

Lemma changed_ordinary p d k v :
  k ≠ "__proto__" → changed p d (k, v) = differs d (k, v).
Proof.
  intros Hk. unfold changed, differs, same_value. simpl.
  destruct (truthy v) eqn:Ht; [|done]. simpl.
  destruct (has_own d k) eqn:Ho; [done|].
  assert (obj_get d k = PUndefined) as ->.
  { apply obj_get_absent. rewrite <- has_own_elem. by rewrite Ho. }
  assert (String.eqb k "__proto__" = false) as -> by by apply String.eqb_neq.
  rewrite (strict_eq_undefined v Ht).
  destruct p; [by destruct (inherits_function k)..|done].
Qed.

Lemma data_set_ordinary opt val s d :
  data s = Some d → opt ≠ "__proto__" →
  data_set opt val s = (Ok tt, set_data (Some (obj_set d opt val)) s).
Proof.
  intros Hd Hk. unfold data_set, sets_prototype. rewrite Hd.
  assert (String.eqb opt "__proto__" = false) as -> by by apply String.eqb_neq.
  done.
Qed.

Lemma save_option_ordinary opt val s d :
  data s = Some d → opt ≠ "__proto__" →
  save_option opt val s =
    (Ok tt,
     if differs d (opt, val)
     then set_callStack (callStack s ++ [property_entry opt val])
            (set_data (Some (obj_set d opt val)) s)
     else s).
Proof.
  intros Hd Hk.
  by rewrite (save_option_spec opt val s d Hd), changed_ordinary,
    (data_set_ordinary opt val s d Hd Hk).
Qed.

Lemma changed_entries_ordinary p d (o : Obj) :
  "__proto__" ∉ o.*1 →
  changed_entries p d o =
    map (λ o, property_entry (o.1) (o.2)) (List.filter (differs d) o).
Proof.
  intros Ho. unfold changed_entries. f_equal.
  apply List.filter_ext_in. intros [k v] Hin. apply changed_ordinary.
  intros ->. apply Ho. apply list_elem_of_fmap. exists ("__proto__", v).
  split; [done|]. by apply list_elem_of_In.
Qed.

Lemma not_elem_computed (k : string) (l : list string) :
  bool_decide (k ∈ l) = false → k ∉ l.
Proof. apply bool_decide_eq_false_1. Qed.

(** The loop of [saveGraphics], as to everything but the call stack,
    when no option is named [__proto__]. *)
Lemma for_in_save_option_data (o : Obj) :
  ∀ s d, data s = Some d → "__proto__" ∉ o.*1 →
    ∃ s', for_in o save_option s = (Ok tt, s') ∧
      data s' = Some (store_all d o) ∧ canvas s' = canvas s ∧
      stageWidth s' = stageWidth s ∧ stageHeight s' = stageHeight s ∧
      detached s' = detached s ∧ data_proto s' = data_proto s.
Proof.
  induction o as [|[k v] o IH]; intros s d Hd Ho.
  - by exists s.
  - rewrite fmap_cons in Ho. apply not_elem_of_cons in Ho as [Hk Ho].
    cbn [for_in]. unfold bind at 1.
    rewrite (save_option_ordinary k v s d Hd) by done.
    change (store_all d ((k, v) :: o))
      with (store_all (if differs d (k, v) then obj_set d k v else d) o).
    destruct (differs d (k, v)).
    + set (s1 := set_callStack _ _).
      destruct (IH s1 (obj_set d k v) eq_refl Ho) as (s' & E & ? & ? & ? & ? & ? & ?).
      by exists s'.
    + destruct (IH s d Hd Ho) as (s' & E & ? & ? & ? & ? & ? & ?). by exists s'.
Qed.

Lemma saveGraphics_data this (o : Obj) s d :
  data s = Some d → "__proto__" ∉ o.*1 →
  ∃ s', saveGraphics (Some o) this s = (Ok this, s') ∧
    data s' = Some (store_all d o) ∧ canvas s' = canvas s ∧
    stageWidth s' = stageWidth s ∧ stageHeight s' = stageHeight s ∧
    detached s' = detached s ∧ data_proto s' = data_proto s.
Proof.
  intros Hd Ho. destruct (for_in_save_option_data o s d Hd Ho) as (s' & E & H).
  exists s'. split; [|done]. unfold saveGraphics, bind.
  change (default [] (Some o)) with o. by rewrite E.
Qed.

Lemma saveGraphics_full this (o : Obj) s d :
  constructed s → data s = Some d → NoDup (o.*1) → "__proto__" ∉ o.*1 →
  ∃ s', saveGraphics (Some o) this s = (Ok this, s') ∧
    data s' = Some (store_all d o) ∧ canvas s' = canvas s ∧
    stageWidth s' = stageWidth s ∧ stageHeight s' = stageHeight s ∧
    callStack s' =
      callStack s ++
        map (λ o, property_entry (o.1) (o.2)) (List.filter (differs d) o).
Proof.
  intros Hs Hd Hnd Ho.
  destruct (records_saveGraphics o this s d Hs Hd Hnd) as (s2 & E & _ & Hcs).
  destruct (saveGraphics_data this o s d Hd Ho)
    as (s2' & E' & H1 & H2 & H3 & H4 & _).
  pose proof (eq_trans (eq_sym E) E') as Heq. injection Heq as <-.
  rewrite changed_entries_ordinary in Hcs by done. by exists s2.
Qed.

Lemma jSketch_eq (s t : jSketch) :
  canvas s = canvas t → stageWidth s = stageWidth t →
  stageHeight s = stageHeight t → data s = data t →
  callStack s = callStack t → detached s = detached t →
  data_proto s = data_proto t → s = t.
Proof. destruct s, t. simpl. by intros -> -> -> -> -> -> ->. Qed.

Lemma obj_get_assign_all_key (d p : Obj) k :
  NoDup (d.*1) → k ∈ d.*1 → obj_get (assign_all p d) k = obj_get d k.
Proof.
  intros Hnd Hk. apply list_elem_of_fmap in Hk as ([k' v] & -> & Hin). simpl.
  by rewrite (obj_get_assign_all_in d p k' v), (obj_get_elem d k' v).
Qed.

Lemma for_in_save_option_settled (o : Obj) s d :
  data s = Some d → "__proto__" ∉ o.*1 →
  (∀ kv, kv ∈ o → differs d kv = false) →
  for_in o save_option s = (Ok tt, s).
Proof.
  intros Hd. induction o as [|[k v] o IH]; intros Ho H; [done|].
  rewrite fmap_cons in Ho. apply not_elem_of_cons in Ho as [Hk Ho].
  cbn [for_in]. unfold bind at 1.
  rewrite (save_option_ordinary k v s d Hd) by done.
  rewrite (H (k, v)) by left. apply IH; [done|].
  intros kv Hin. apply H. by right.
Qed.

(** ** [saveGraphics] *)

(** X3: [saveGraphics(options)], for options none of which is named
    [__proto__], stores every option that is set (truthy): afterwards
    the own property [this.data[opt]] is [===] to [val]; an option that
    is not set ([undefined], [null], [0], the empty string, [false],
    NaN) is ignored, so that a setting cannot be taken back to such a
    value; the options not named stay, none is removed, and neither the
    canvas, nor the stage size, nor the prototype of [this.data] is
    touched. *)
Theorem saveGraphics_stores_options (this : Ref) (options : Obj) (s : jSketch) (d : Obj) :
  data s = Some d → NoDup (options.*1) → "__proto__" ∉ options.*1 →
  ∃ s' d',
    saveGraphics (Some options) this s = (Ok this, s') ∧
    data s' = Some d' ∧ canvas s' = canvas s ∧
    stageWidth s' = stageWidth s ∧ stageHeight s' = stageHeight s ∧
    data_proto s' = data_proto s ∧
    (∀ k v, (k, v) ∈ options → truthy v = true →
       strict_eq v (obj_get d' k) = true ∧ k ∈ d'.*1) ∧
    (∀ k v, (k, v) ∈ options → truthy v = false → obj_get d' k = obj_get d k) ∧
    (∀ k, k ∉ options.*1 → obj_get d' k = obj_get d k) ∧
    (∀ k, k ∈ d.*1 → k ∈ d'.*1).
Proof.
  intros Hd Hnd Hproto.
  destruct (for_in_save_option_data options s d Hd Hproto)
    as (s' & E & Hd' & Hc & Hw & Hh & _ & Hp).
  exists s', (store_all d options). unfold saveGraphics, bind. simpl. rewrite E.
  do 6 (split; [done|]). split; [|split; [|split]].
  - intros k v Hin Ht.
    assert (strict_eq v (obj_get (store_all d options) k) = true) as Hv.
    { rewrite (obj_get_store_all_in options d k v Hnd Hin).
      unfold differs. simpl. rewrite Ht. simpl.
      destruct (strict_eq v (obj_get d k)) eqn:Eq; simpl; [done|].
      by apply strict_eq_refl. }
    split; [done|]. apply obj_get_truthy_key.
    apply strict_eq_truthy in Hv. by rewrite <- Hv.
  - intros k v Hin Ht. rewrite (obj_get_store_all_in options d k v Hnd Hin).
    unfold differs. simpl. by rewrite Ht.
  - intros k Hk. by apply obj_get_store_all_notin.
  - intros k Hk. by apply store_all_keys.
Qed.

(** X4: [saveGraphics] is idempotent for options none of which is named
    [__proto__]: the first call stores every option that is set, and
    called again with the same options it returns the receiver and
    changes nothing, neither the stored options nor the call stack. *)
Theorem saveGraphics_idempotent (this : Ref) (options : Obj) (s : jSketch) :
  is_Some (data s) → NoDup (options.*1) → "__proto__" ∉ options.*1 →
  ∃ s' d',
    saveGraphics (Some options) this s = (Ok this, s') ∧
    data s' = Some d' ∧
    (∀ k v, (k, v) ∈ options → truthy v = true →
       strict_eq v (obj_get d' k) = true) ∧
    saveGraphics (Some options) this s' = (Ok this, s').
Proof.
  intros [d Hd] Hnd Hproto.
  destruct (for_in_save_option_data options s d Hd Hproto) as (s' & E & Hd' & _).
  exists s', (store_all d options). unfold saveGraphics, bind. simpl. rewrite E.
  split; [done|]. split; [done|]. split.
  - intros k v Hin Ht. rewrite (obj_get_store_all_in options d k v Hnd Hin).
    unfold differs. simpl. rewrite Ht. simpl.
    destruct (strict_eq v (obj_get d k)) eqn:Eq; simpl; [done|].
    by apply strict_eq_refl.
  - rewrite (for_in_save_option_settled options s' (store_all d options) Hd');
      [done|done|].
    intros kv Hin. by apply store_all_settled.
Qed.

Lemma saveGraphics_single this k v t d :
  data t = Some d →
  saveGraphics (Some [(k, v)]) this t =
    (Ok this,
     if changed (data_proto t) d (k, v)
     then set_callStack (callStack t ++ [property_entry k v])
            (snd (data_set k v t))
     else t).
Proof.
  intros Ht. unfold saveGraphics.
  change (default [] (Some [(k, v)])) with [(k, v)]. cbn [for_in].
  unfold bind. by rewrite (save_option_spec k v t d Ht).
Qed.

(** X20: on a plain options object [saveGraphics] never stores an
    option named [__proto__] as a property.  When its value is a
    primitive the assignment does nothing, and every call records the
    entry again: two calls, two entries, and [this.data] as it was.
    When its value is a host object, that object becomes the prototype
    of [this.data]; the entry is recorded once, and a second call does
    nothing. *)
Theorem saveGraphics_proto_is_not_stored
    (this : Ref) (v : Prim) (s : jSketch) (d : Obj) :
  data s = Some d → "__proto__" ∉ d.*1 → data_proto s = ObjectPrototype →
  truthy v = true →
  let entry := property_entry "__proto__" v in
  let once := snd (saveGraphics (Some [("__proto__", v)]) this s) in
  let twice := snd (saveGraphics (Some [("__proto__", v)]) this once) in
  fst (saveGraphics (Some [("__proto__", v)]) this s) = Ok this ∧
  fst (saveGraphics (Some [("__proto__", v)]) this once) = Ok this ∧
  data once = Some d ∧ data twice = Some d ∧
  match v with
  | PHost h =>
      once = set_callStack (callStack s ++ [entry])
               (set_data_proto (HostPrototype h) s) ∧
      twice = once
  | _ =>
      once = set_callStack (callStack s ++ [entry]) s ∧
      twice = set_callStack (callStack s ++ [entry; entry]) s
  end.
Proof.
  intros Hd Hk Hp Hv.
  assert (has_own d "__proto__" = false) as Ho.
  { destruct (has_own d "__proto__") eqn:E; [|done].
    by apply has_own_elem in E. }
  assert (∀ t, data t = Some d → data_proto t = ObjectPrototype →
            saveGraphics (Some [("__proto__", v)]) this t =
              (Ok this,
               set_callStack (callStack t ++ [property_entry "__proto__" v])
                 (snd (data_set "__proto__" v t)))) as Hfirst.
  { intros t Ht Hpt. rewrite (saveGraphics_single this _ _ t d Ht).
    unfold changed, same_value. cbn [fst snd]. by rewrite Hv, Ho, Hpt. }
  assert (∀ t, data t = Some d → data_proto t = ObjectPrototype →
            data_set "__proto__" v t =
              (Ok tt,
               match v with
               | PHost h => set_data_proto (HostPrototype h) t
               | _ => t
               end)) as Hset.
  { intros t Ht Hpt. unfold data_set, sets_prototype. rewrite Ht, Ho, Hpt.
    simpl. by destruct v. }
  cbv zeta. rewrite (Hfirst s Hd Hp), (Hset s Hd Hp). cbn [fst snd].
  destruct v as [| |b|n|str|h]; simpl in Hv; try done;
    try (rewrite Hfirst, Hset by done; cbn [fst snd data data_proto
           set_callStack callStack]; rewrite Hd;
         split; [done|]; split; [done|]; split; [done|]; split; [done|];
         split; [done|]; by rewrite <- app_assoc).
  set (s1 := set_callStack _ _).
  rewrite (saveGraphics_single this _ _ s1 d) by (simpl; done).
  unfold changed, same_value. cbn [fst snd truthy data_proto s1 set_callStack
    set_data_proto]. rewrite Ho. simpl.
  rewrite Nat.eqb_refl. simpl. by rewrite Hd.
Qed.

(** ** [restoreGraphics] *)

(** X5: [restoreGraphics] copies every stored option to the context,
    leaves the other properties of the context, the canvas size and the
    drawing done so far as they are, and changes nothing else of the
    instance; with no options object at all it does nothing (and does
    not throw). *)
Theorem restoreGraphics_applies_options (this : Ref) (s : jSketch) :
  (∀ c d, canvas s = Some c → data s = Some d → NoDup (d.*1) →
     ∃ c', restoreGraphics this s = (Ok this, set_canvas (Some c') s) ∧
       width c' = width c ∧ height c' = height c ∧
       context_calls c' = context_calls c ∧
       (∀ k, k ∈ d.*1 → obj_get (context_props c') k = obj_get d k) ∧
       (∀ k, k ∉ d.*1 → obj_get (context_props c') k = obj_get (context_props c) k)) ∧
  (data s = None → restoreGraphics this s = (Ok this, s)).
Proof.
  split.
  - intros c d Hc Hd Hnd. rewrite (restoreGraphics_spec this s c Hc), Hd. simpl.
    eexists. split; [reflexivity|]. simpl. do 3 (split; [done|]). split.
    + intros k Hk. by apply obj_get_assign_all_key.
    + intros k Hk. by apply obj_get_assign_all_notin.
  - intros Hd. unfold restoreGraphics, bind, get. by rewrite Hd.
Qed.

(** ** [size] *)

(** X6: [size(width, height)] sets the stage size and the canvas size,
    and after the resize, which resets the context, the context holds
    exactly the stored options, in their order; the stored options, the
    call stack and the drawing done so far are as before. *)
Theorem size_reapplies_options (this : Ref) (w h : Prim) (s : jSketch)
    (c : Canvas) (d : Obj) :
  canvas s = Some c → data s = Some d → NoDup (d.*1) →
  size w h this s =
    (Ok this,
     {| canvas := Some {| width := w; height := h; context_props := d;
                          context_calls := context_calls c |};
        stageWidth := w; stageHeight := h;
        data := Some d; callStack := callStack s;
        detached := detached s; data_proto := data_proto s |}).
Proof.
  intros Hc Hd Hnd. unfold size, bind, modify, canvas_resize, on_canvas.
  cbn [canvas set_stage]. rewrite Hc.
  erewrite restoreGraphics_spec by reflexivity. simpl. rewrite Hd. simpl.
  rewrite (assign_all_fresh d []) by exact Hnd.
  unfold ret, set_canvas, set_stage, with_context_props. simpl. by rewrite Hd.
Qed.

(** ** [lineStyle] *)

Lemma NoDup_keys_computed (l : list string) : bool_decide (NoDup l) = true → NoDup l.
Proof. apply bool_decide_eq_true_1. Qed.

(** X7: [lineStyle(color, thickness, capStyle, joinStyle, miter)] stores
    each argument that is set and applies it to the context at once:
    afterwards the stored option and the context property are the same
    value, [===] to the argument; an argument left out (or [0], or the
    empty string) leaves its option as it was.  Afterwards the context
    holds every stored option. *)
Theorem lineStyle_sets_and_applies
    (this : Ref) (color thickness capStyle joinStyle miter : Prim)
    (s : jSketch) (c : Canvas) (d : Obj) :
  canvas s = Some c → data s = Some d → NoDup (d.*1) →
  ∃ s' c' d',
    lineStyle color thickness capStyle joinStyle miter this s = (Ok this, s') ∧
    canvas s' = Some c' ∧ data s' = Some d' ∧ in_sync s' ∧
    stageWidth s' = stageWidth s ∧ stageHeight s' = stageHeight s ∧
    context_calls c' = context_calls c ∧
    (∀ k v,
       (k, v) ∈ [("strokeStyle", color); ("lineWidth", thickness);
                 ("lineCap", capStyle); ("lineJoin", joinStyle);
                 ("miterLimit", miter)] →
       if truthy v
       then strict_eq v (obj_get d' k) = true ∧
            obj_get (context_props c') k = obj_get d' k
       else obj_get d' k = obj_get d k).
Proof.
  intros Hc Hd Hnd. unfold lineStyle.
  set (options := [("strokeStyle", color); ("lineWidth", thickness);
                   ("lineCap", capStyle); ("lineJoin", joinStyle);
                   ("miterLimit", miter)]).
  assert (NoDup (options.*1)) as Hopt.
  { apply NoDup_keys_computed. by vm_compute. }
  assert ("__proto__" ∉ options.*1) as Hproto.
  { apply not_elem_computed. by vm_compute. }
  destruct (saveGraphics_data this options s d Hd Hproto)
    as (s1 & E & Hd1 & Hc1 & Hw & Hh & _).
  rewrite Hc in Hc1.
  assert (NoDup ((store_all d options).*1)) as Hnd' by by apply store_all_NoDup.
  eexists _, _, _. split.
  { unfold bind. rewrite E.
    rewrite (restoreGraphics_spec this s1 c Hc1), Hd1. reflexivity. }
  cbn [canvas data stageWidth stageHeight set_canvas default
       with_context_props context_calls context_props].
  split; [done|]. split; [done|]. split.
  { eexists _, _. split; [reflexivity|]. split; [exact Hd1|]. split; [done|].
    intros k Hk. by apply obj_get_assign_all_key. }
  split; [done|]. split; [done|]. split; [done|].
  intros k v Hin.
  pose proof (obj_get_store_all_in options d k v Hopt Hin) as Hget.
  destruct (truthy v) eqn:Ht.
  - assert (strict_eq v (obj_get (store_all d options) k) = true) as Hv.
    { rewrite Hget. unfold differs. cbn [fst snd]. rewrite Ht. cbn [andb].
      destruct (strict_eq v (obj_get d k)) eqn:Eq; cbn [negb]; [done|].
      by apply strict_eq_refl. }
    split; [done|].
    apply obj_get_assign_all_key; [done|]. apply obj_get_truthy_key.
    apply strict_eq_truthy in Hv. by rewrite <- Hv.
  - rewrite Hget. unfold differs. cbn [fst snd]. by rewrite Ht.
Qed.

(** ** The constructor's defaults *)

Lemma for_in_push (o : Obj) s :
  for_in o (λ opt val, push (property_entry opt val)) s =
    (Ok tt, set_callStack (callStack s ++ map (λ o, property_entry (o.1) (o.2)) o) s).
Proof.
  revert s. induction o as [|[k v] o IH]; intros s.
  - simpl. unfold ret. f_equal. destruct s. simpl. by rewrite app_nil_r.
  - cbn [for_in]. unfold bind at 1, push at 1, modify. rewrite IH. simpl.
    by rewrite <- app_assoc.
Qed.

Lemma setDefaults_unfold this s d :
  data s = Some d →
  setDefaults this s =
    ((for_in (defaulted d) (λ opt val, push (property_entry opt val)) ;>
      let* r := saveGraphics (Some (defaulted d)) this in
      restoreGraphics r)%js s).
Proof.
  intros Hd. unfold setDefaults.
  do 6 (unfold bind at 1; unfold data_get at 1; rewrite Hd; cbv beta iota).
  reflexivity.
Qed.

Lemma style_defaults_truthy k def : (k, def) ∈ style_defaults → truthy def = true.
Proof.
  unfold style_defaults. rewrite !elem_of_cons, elem_of_nil.
  intros [E|[E|[E|[E|[E|[E|[]]]]]]]; by injection E as -> ->.
Qed.

(** What [setDefaults] has to store: the defaults of the options that
    are not set. *)
Lemma differs_defaulted d k def :
  truthy def = true →
  differs d (k, js_or (obj_get d k) def) = negb (truthy (obj_get d k)).
Proof.
  intros Hdef. unfold differs, js_or. simpl.
  destruct (truthy (obj_get d k)) eqn:Ht; simpl.
  - by rewrite Ht, strict_eq_refl.
  - rewrite Hdef. simpl.
    destruct (strict_eq def (obj_get d k)) eqn:E; [|done].
    apply strict_eq_truthy in E. congruence.
Qed.

Lemma differing_defaulted d (l : Obj) :
  (∀ o, o ∈ l → truthy (o.2) = true) →
  map (λ o, property_entry (o.1) (o.2))
    (List.filter (differs d) ((λ o, (o.1, js_or (obj_get d (o.1)) (o.2))) <$> l)) =
    map (λ o, property_entry (o.1) (o.2))
      (List.filter (λ o, negb (truthy (obj_get d (o.1)))) l).
Proof.
  induction l as [|[k def] l IH]; intros Hall; [done|].
  rewrite fmap_cons. cbn [List.filter fst snd].
  rewrite differs_defaulted by (apply (Hall (k, def)); by left).
  destruct (truthy (obj_get d k)) eqn:Ht; cbn [negb].
  - apply IH. intros o Ho. apply Hall. by right.
  - cbn [map fst snd]. unfold js_or at 1. rewrite Ht. f_equal.
    apply IH. intros o Ho. apply Hall. by right.
Qed.

(** X8: [new jSketch(canvas, options)] fills in the drawing defaults:
    afterwards each of fillStyle, strokeStyle, lineWidth, lineCap,
    lineJoin and miterLimit is the given option when that is set
    (truthy), and '#F00', '#F0F', 2, 'round', 'round', 10 otherwise
    (so a lineWidth of 0 becomes 2); the other options given are kept;
    the context holds every stored option; the stage has the size of
    the canvas; and the call stack starts with one entry for each of the
    six, followed by one more for each default that had to be filled
    in. *)
Theorem constructor_applies_defaults
    (qs : string → ElemArg) (c : Canvas) (options : Obj) (this : Ref) :
  NoDup (options.*1) →
  ∃ s c' d,
    new_jSketch qs (ElCanvas c) (Some options) this = (Ok this, s) ∧
    canvas s = Some c' ∧ data s = Some d ∧ in_sync s ∧
    stageWidth s = width c ∧ stageHeight s = height c ∧
    width c' = width c ∧ height c' = height c ∧
    context_calls c' = context_calls c ∧
    (∀ k def, (k, def) ∈ style_defaults →
       obj_get d k = js_or (obj_get options k) def) ∧
    (∀ k, k ∉ style_defaults.*1 → obj_get d k = obj_get options k) ∧
    callStack s =
      map (λ o, property_entry (o.1) (o.2)) (defaulted options) ++
      map (λ o, property_entry (o.1) (o.2))
        (List.filter (λ o, negb (truthy (obj_get options (o.1)))) style_defaults).
Proof.
  intros Hnd.
  rewrite (constructor_on_canvas qs (ElCanvas c) c (Some options) this) by done.
  set (s0 := {| canvas := Some c; stageWidth := width c; stageHeight := height c;
                data := Some options; callStack := [];
                detached := None; data_proto := ObjectPrototype |}).
  rewrite (setDefaults_unfold this s0 options) by done.
  unfold bind at 1. rewrite for_in_push. cbn [callStack s0 app].
  set (s1 := set_callStack _ s0).
  assert (NoDup ((defaulted options).*1)) as Hdef.
  { apply NoDup_keys_computed. by vm_compute. }
  assert ("__proto__" ∉ (defaulted options).*1) as Hproto.
  { apply not_elem_computed. by vm_compute. }
  assert (constructed s1) as Hs1 by (split; simpl; eauto).
  destruct (saveGraphics_full this (defaulted options) s1 options Hs1 eq_refl
              Hdef Hproto)
    as (s2 & E & Hd2 & Hc2 & Hw2 & Hh2 & Hcs).
  assert (NoDup ((store_all options (defaulted options)).*1)) as Hnd'
    by by apply store_all_NoDup.
  eexists _, _, _. split.
  { unfold bind at 1. rewrite E.
    rewrite (restoreGraphics_spec this s2 c Hc2), Hd2. reflexivity. }
  cbn [canvas data stageWidth stageHeight callStack set_canvas default
       with_context_props context_calls context_props width height].
  split; [done|]. split; [exact Hd2|]. split.
  { eexists _, _. split; [reflexivity|]. split; [exact Hd2|]. split; [done|].
    intros k Hk. by apply obj_get_assign_all_key. }
  do 5 (split; [done|]). split; [|split].
  - intros k def Hin.
    assert ((k, js_or (obj_get options k) def) ∈ defaulted options) as Hin'.
    { unfold defaulted.
      apply (list_elem_of_fmap_2
               (λ o : string * Prim, (o.1, js_or (obj_get options (o.1)) (o.2)))
               _ _ Hin). }
    rewrite (obj_get_store_all_in _ options _ _ Hdef Hin').
    rewrite differs_defaulted by by eapply style_defaults_truthy.
    unfold js_or. by destruct (truthy (obj_get options k)).
  - intros k Hk. apply obj_get_store_all_notin.
    unfold defaulted. by rewrite <- list_fmap_compose.
  - rewrite Hcs. unfold s1, defaulted at 2. cbn [callStack set_callStack].
    rewrite differing_defaulted; [done|].
    intros [k def]. apply style_defaults_truthy.
Qed.

(** ** Filling *)

Lemma beginFill_spec this color s c :
  canvas s = Some c →
  beginFill color this s =
    (Ok this,
     set_callStack (callStack s ++ [property_entry "fillStyle" color])
       (set_canvas
          (Some (with_context_props (obj_set (context_props c) "fillStyle" color) c))
          s)).
Proof.
  intros Hc. unfold beginFill, saveGraphics, bind, context_set, on_canvas. simpl.
  by rewrite Hc.
Qed.

(** The context after [beginFill(color)] and then [restoreGraphics]. *)
Lemma refilled_props (p d : Obj) color k :
  NoDup (d.*1) → (∀ k, k ∈ d.*1 → obj_get p k = obj_get d k) →
  "fillStyle" ∈ d.*1 →
  obj_get (assign_all (obj_set p "fillStyle" color) d) k = obj_get p k.
Proof.
  intros Hnd Hsync Hfill. destruct (decide (k ∈ d.*1)) as [Hk|Hk].
  - rewrite obj_get_assign_all_key by done. by rewrite Hsync.
  - rewrite obj_get_assign_all_notin by done.
    apply obj_get_set_ne. by intros <-.
Qed.

(** X9: [endFill()] takes back what [beginFill(color)] did to the
    context.  On an instance whose context holds the stored options,
    [beginFill] makes [color] the fill style of the context and stores
    nothing; after [endFill] every property of the context is what it
    was before (fillStyle being a stored option, as it is from the
    constructor on); the call stack has got the one entry of
    [beginFill], and [endFill] has recorded nothing. *)
Theorem beginFill_endFill_restores_context
    (this : Ref) (color : Prim) (s : jSketch) (c : Canvas) (d : Obj) :
  canvas s = Some c → data s = Some d → NoDup (d.*1) →
  (∀ k, k ∈ d.*1 → obj_get (context_props c) k = obj_get d k) →
  "fillStyle" ∈ d.*1 →
  ∃ s1 s2 c1 c2,
    beginFill color this s = (Ok this, s1) ∧ endFill this s1 = (Ok this, s2) ∧
    canvas s1 = Some c1 ∧ canvas s2 = Some c2 ∧
    obj_get (context_props c1) "fillStyle" = color ∧
    data s1 = Some d ∧ data s2 = Some d ∧
    (∀ k, obj_get (context_props c2) k = obj_get (context_props c) k) ∧
    context_calls c2 = context_calls c ∧
    width c2 = width c ∧ height c2 = height c ∧
    stageWidth s2 = stageWidth s ∧ stageHeight s2 = stageHeight s ∧
    callStack s2 = callStack s ++ [property_entry "fillStyle" color].
Proof.
  intros Hc Hd Hnd Hsync Hfill.
  eexists _, _, _, _. split; [by apply beginFill_spec|]. split.
  { unfold endFill, bind. erewrite restoreGraphics_spec by reflexivity.
    reflexivity. }
  cbn [canvas data stageWidth stageHeight callStack set_canvas set_callStack
       with_context_props context_calls context_props width height].
  split; [done|]. split; [done|]. split; [apply obj_get_set_eq|].
  split; [done|]. split; [done|]. rewrite Hd. cbn [default].
  split; [|done]. intros k. by apply refilled_props.
Qed.


(** ** What a call leaves alone *)

Section Keeps.

Context {B : Type} (f : jSketch → B).
Variables stage_free data_free : Prop.
Hypothesis f_canvas : ∀ c s, f (set_canvas c s) = f s.
Hypothesis f_callStack : ∀ l s, f (set_callStack l s) = f s.
Hypothesis f_stage : stage_free → ∀ w h s, f (set_stage w h s) = f s.
Hypothesis f_data : data_free → ∀ d s, f (set_data d s) = f s.
Hypothesis f_data_proto : data_free → ∀ p s, f (set_data_proto p s) = f s.
Hypothesis f_detached : ∀ d s, f (set_detached d s) = f s.

Lemma keeps_ret {A} (a : A) : keeps f (ret a).
Proof. by intros s. Qed.

Lemma keeps_throw {A} e : keeps f (throw (A:=A) e).
Proof. by intros s. Qed.

Lemma keeps_bind {A C} (m : M jSketch A) (k : A → M jSketch C) :
  keeps f m → (∀ a, keeps f (k a)) → keeps f (bind m k).
Proof.
  intros Hm Hk s. specialize (Hm s). unfold bind.
  destruct (m s) as [[a|e] s1]; simpl in Hm; [|done].
  by rewrite Hk.
Qed.

Lemma keeps_get : keeps f get.
Proof. by intros s. Qed.

Lemma keeps_push entry : keeps f (push entry).
Proof. intros s. apply f_callStack. Qed.

Lemma keeps_on_canvas g : keeps f (on_canvas g).
Proof.
  intros s. unfold on_canvas. destruct (canvas s); [apply f_canvas|].
  destruct (detached s) as [[e [c|]]|]; [apply f_detached|done..].
Qed.

Lemma keeps_native name args : keeps f (native name args).
Proof. apply keeps_on_canvas. Qed.

Lemma keeps_context_set opt val : keeps f (context_set opt val).
Proof. apply keeps_on_canvas. Qed.

Lemma keeps_canvas_resize w h : keeps f (canvas_resize w h).
Proof.
  intros s. unfold canvas_resize. destruct (canvas s); [apply f_canvas|].
  destruct (detached s); [apply f_detached|done].
Qed.

Lemma keeps_data_get opt : keeps f (data_get opt).
Proof. intros s. unfold data_get. by destruct (data s). Qed.

Lemma keeps_for_in (o : Obj) (body : string → Prim → M jSketch unit) :
  (∀ k v, keeps f (body k v)) → keeps f (for_in o body).
Proof.
  intros Hbody. induction o as [|[k v] o IH]; simpl.
  - apply keeps_ret.
  - apply keeps_bind; [apply Hbody|]. intros _. apply IH.
Qed.

Lemma keeps_restoreGraphics this : keeps f (restoreGraphics this).
Proof.
  unfold restoreGraphics. apply keeps_bind; [apply keeps_get|]. intros s.
  apply keeps_bind; [|intros _; apply keeps_ret].
  apply keeps_for_in. intros k v. apply keeps_context_set.
Qed.

Lemma keeps_saveGraphics_none this : keeps f (saveGraphics None this).
Proof. by intros s. Qed.

Lemma keeps_saveGraphics options this :
  data_free → keeps f (saveGraphics options this).
Proof.
  intros Hfree. unfold saveGraphics.
  apply keeps_bind; [|intros _; apply keeps_ret].
  apply keeps_for_in. intros k v. unfold save_option.
  destruct (truthy v); [|apply keeps_ret].
  apply keeps_bind; [|intros same].
  { intros s. unfold data_is. by destruct (data s). }
  destruct (negb same); [|apply keeps_ret].
  apply keeps_bind; [|intros _; apply keeps_push].
  intros s. unfold data_set. destruct (data s) as [d|]; [|done].
  destruct (sets_prototype (data_proto s) d k); [|by apply f_data].
  destruct v; simpl; try done; by apply f_data_proto.
Qed.

Create HintDb keeps.
Hint Resolve keeps_ret keeps_throw keeps_get keeps_push keeps_native
  keeps_context_set keeps_canvas_resize keeps_data_get keeps_restoreGraphics
  keeps_saveGraphics_none : keeps.

Ltac keeps_seq :=
  repeat first
    [ solve [ eauto with keeps ]
    | apply keeps_bind; [ solve [ eauto with keeps ] | intros ? ] ].

Lemma keeps_beginFill color this : keeps f (beginFill color this).
Proof. unfold beginFill. keeps_seq. Qed.

Lemma keeps_endFill this : keeps f (endFill this).
Proof. unfold endFill. keeps_seq. Qed.

Hint Resolve keeps_beginFill keeps_endFill : keeps.

Lemma keeps_background color this : keeps f (background color this).
Proof. unfold background. keeps_seq. Qed.

Lemma keeps_size w h this : stage_free → keeps f (size w h this).
Proof.
  intros Hfree. unfold size.
  apply keeps_bind; [intros s; by apply f_stage|]. intros _. keeps_seq.
Qed.

Lemma keeps_moveTo args this : keeps f (moveTo args this).
Proof. unfold moveTo. keeps_seq. Qed.

Lemma keeps_lineTo args this : keeps f (lineTo args this).
Proof. unfold lineTo. keeps_seq. Qed.

Lemma keeps_curveTo x y cpx cpy this : keeps f (curveTo x y cpx cpy this).
Proof. unfold curveTo. keeps_seq. Qed.

Lemma keeps_strokeRect args this : keeps f (strokeRect args this).
Proof. unfold strokeRect. keeps_seq. Qed.

Lemma keeps_fillRect args this : keeps f (fillRect args this).
Proof. unfold fillRect. keeps_seq. Qed.

Lemma keeps_strokeCircle x y radius this : keeps f (strokeCircle x y radius this).
Proof. unfold strokeCircle. keeps_seq. Qed.

Lemma keeps_fillCircle x y radius this : keeps f (fillCircle x y radius this).
Proof. unfold fillCircle. keeps_seq. Qed.

Hint Resolve keeps_background keeps_moveTo keeps_lineTo keeps_curveTo
  keeps_strokeRect keeps_fillRect keeps_strokeCircle keeps_fillCircle : keeps.

Lemma keeps_call c this :
  (sets_stage c = true → stage_free) →
  (writes_data c = true → data_free) →
  keeps f (call c this).
Proof.
  intros Hstage Hdata.
  destruct c; cbn [call]; try solve [ eauto with keeps ].
  - unfold setContext. destruct (negb (elem_truthy elem)); [apply keeps_throw|].
    destruct elem;
      (apply keeps_bind;
       [intros s; unfold modify, attach, detach, without_context; simpl;
        by rewrite f_detached, f_canvas|]);
      intros _; [apply keeps_throw|apply keeps_ret..].
  - unfold setDefaults.
    do 6 (apply keeps_bind; [apply keeps_data_get|]; intros ?).
    apply keeps_bind; [apply keeps_for_in; intros; apply keeps_push|]. intros _.
    apply keeps_bind; [apply keeps_saveGraphics; by apply Hdata|]. intros r.
    apply keeps_restoreGraphics.
  - apply keeps_size. by apply Hstage.
  - unfold stage. apply keeps_bind; [apply keeps_size; by apply Hstage|].
    intros r. keeps_seq.
  - unfold lineStyle.
    apply keeps_bind; [apply keeps_saveGraphics; by apply Hdata|]. intros r.
    apply keeps_restoreGraphics.
  - unfold line. keeps_seq.
  - unfold curve. keeps_seq.
  - unfold stroke. keeps_seq.
  - unfold rect. keeps_seq.
  - unfold circle. keeps_seq.
  - unfold beginPath. keeps_seq.
  - unfold closePath. keeps_seq.
  - unfold eraser. keeps_seq.
  - unfold pencil. keeps_seq.
  - unfold clear. keeps_seq.
  - unfold save. keeps_seq.
  - unfold restore. keeps_seq.
  - apply keeps_saveGraphics. by apply Hdata.
  - unfold drawImage. keeps_seq.
Qed.

End Keeps.

(** X11: only [setDefaults], [saveGraphics] and [lineStyle] ever write
    to the stored options, and only [size] and [stage] change the stage
    size: every other public method, whatever its arguments and whether
    it returns or throws, leaves the options object, respectively the
    stage size, exactly as it was.  Drawing never changes a setting. *)
Theorem drawing_keeps_settings (c : Call) (this : Ref) (s : jSketch) :
  (writes_data c = false → data (snd (call c this s)) = data s) ∧
  (sets_stage c = false →
     stageWidth (snd (call c this s)) = stageWidth s ∧
     stageHeight (snd (call c this s)) = stageHeight s).
Proof.
  split.
  - intros Hw.
    apply (keeps_call data True False); try done.
    by rewrite Hw.
  - intros Hst.
    pose proof (keeps_call (λ s, (stageWidth s, stageHeight s)) False True) as H.
    specialize (H ltac:(done) ltac:(done) ltac:(done) ltac:(done)
                  ltac:(done) ltac:(done) c this).
    rewrite Hst in H. specialize (H ltac:(done) ltac:(done) s).
    simpl in H. by injection H.
Qed.

End SketchSettings.

(** * More on jsketch.js: the stage *)

Section SketchStage.

Import Sketch.


End SketchStage.

(** * More on sketchable.memento.js: runs *)

Section MementoRuns.

Import Memento.

Variable toDataURL : Sketch.Canvas → string.

Local Open Scope Z_scope.

Lemma snd_drop {A} (m : M World A) w : snd (drop m w) = snd (m w).
Proof. unfold drop, bind. by destruct (m w) as [[?|?] ?]. Qed.

Lemma run_cons this op ops w :
  run toDataURL this (op :: ops) w =
    run toDataURL this ops (step toDataURL this op w).
Proof. reflexivity. Qed.

Lemma run_app this ops1 ops2 w :
  run toDataURL this (ops1 ++ ops2) w =
    run toDataURL this ops2 (run toDataURL this ops1 w).
Proof. unfold run. by rewrite foldl_app. Qed.

(** ** Undo and redo, again and again *)

Lemma step_undo this w :
  wf w → 0 ≤ stpos w →
  let w' := step toDataURL this OUndo w in
  stpos w' = Z.max 0 (stpos w - 1) ∧ stack w' = stack w ∧ heap w' = heap w ∧
  host w' = host w ∧ wf w'.
Proof.
  intros Hw Hp. unfold step, perform. rewrite snd_drop.
  destruct (Z.ltb_spec 0 (stpos w)) as [Hlt|Hge].
  - destruct (undo_moves this w Hw Hlt) as (b & f & _ & _ & E).
    pose proof (wf_undo this w Hw) as Hw'. rewrite E in *. simpl in *.
    split_and!; [lia|done..].
  - rewrite undo_spec. destruct (Z.ltb_spec 0 (stpos w)); [lia|]. simpl.
    split_and!; [lia|done..].
Qed.

Lemma step_redo this w :
  wf w →
  let w' := step toDataURL this ORedo w in
  stpos w' = Z.min (Z.of_nat (length (stack w)) - 1) (stpos w + 1) ∧
  stack w' = stack w ∧ heap w' = heap w ∧ host w' = host w ∧ wf w'.
Proof.
  intros Hw. unfold step, perform. rewrite snd_drop.
  destruct (Z.ltb_spec (stpos w) (Z.of_nat (length (stack w)) - 1)) as [Hlt|Hge].
  - destruct (redo_moves this w Hw Hlt) as (b & f & _ & _ & E).
    pose proof (wf_redo this w Hw) as Hw'. rewrite E in *. simpl in *.
    split_and!; [lia|done..].
  - rewrite redo_spec.
    destruct (Z.ltb_spec (stpos w) (Z.of_nat (length (stack w)) - 1)); [lia|].
    simpl. split_and!; [destruct Hw; lia|done..].
Qed.

Lemma run_undo this n : ∀ w,
  wf w → 0 ≤ stpos w →
  let w' := run toDataURL this (replicate n OUndo) w in
  stpos w' = Z.max 0 (stpos w - Z.of_nat n) ∧ stack w' = stack w ∧
  heap w' = heap w ∧ host w' = host w ∧ wf w'.
Proof.
  induction n as [|n IH]; intros w Hw Hp.
  - simpl. split_and!; [lia|done..].
  - cbn [replicate]. rewrite run_cons.
    destruct (step_undo this w Hw Hp) as (H1 & H2 & H3 & H4 & H5).
    destruct (IH _ H5) as (I1 & I2 & I3 & I4 & I5); [lia|].
    cbv zeta. rewrite I1, I2, I3, I4, H1, H2, H3, H4.
    split_and!; [lia|done..].
Qed.

Lemma run_redo this n : ∀ w,
  wf w →
  let w' := run toDataURL this (replicate n ORedo) w in
  stpos w' = Z.min (Z.of_nat (length (stack w)) - 1) (stpos w + Z.of_nat n) ∧
  stack w' = stack w ∧ heap w' = heap w ∧ host w' = host w ∧ wf w'.
Proof.
  induction n as [|n IH]; intros w Hw.
  - simpl. split_and!; [destruct Hw; lia|done..].
  - cbn [replicate]. rewrite run_cons.
    destruct (step_redo this w Hw) as (H1 & H2 & H3 & H4 & H5).
    destruct (IH _ H5) as (I1 & I2 & I3 & I4 & I5).
    cbv zeta. rewrite I1, I2, I3, I4, H1, H2, H3, H4.
    split_and!; [lia|done..].
Qed.

(** X12: [n] calls of [undo] take [stpos] down by [n] but never below
    0, [n] calls of [redo] take it up by [n] but never beyond the last
    slot, and [n] undos followed by [n] redos come back to where they
    started when there were [n] states to undo.  The stack, the entries
    and the widget's data are the same throughout. *)
Theorem repeated_undo_redo (this : Ref) (n : nat) (w : World) :
  reachable toDataURL this w → 0 ≤ stpos w →
  let wu := run toDataURL this (replicate n OUndo) w in
  let wr := run toDataURL this (replicate n ORedo) w in
  stpos wu = Z.max 0 (stpos w - Z.of_nat n) ∧
  stpos wr = Z.min (Z.of_nat (length (stack w)) - 1) (stpos w + Z.of_nat n) ∧
  (Z.of_nat n ≤ stpos w →
     stpos (run toDataURL this (replicate n OUndo ++ replicate n ORedo) w)
       = stpos w) ∧
  stack wu = stack w ∧ heap wu = heap w ∧ host wu = host w ∧
  stack wr = stack w ∧ heap wr = heap w ∧ host wr = host w.
Proof.
  intros Hr Hp. apply reachable_wf in Hr as Hw.
  destruct (run_undo this n w Hw Hp) as (U1 & U2 & U3 & U4 & U5).
  destruct (run_redo this n w Hw) as (R1 & R2 & R3 & R4 & R5).
  cbv zeta. split; [done|]. split; [done|]. split; [|done].
  intros Hn. rewrite run_app.
  destruct (run_redo this n _ U5) as (V1 & _).
  rewrite V1, U1, U2. destruct Hw. lia.
Qed.

(** ** Starting over *)

Lemma step_reset this w :
  step toDataURL this OReset w =
    set_stpos 0
      (set_stack [length (heap w)]
         (set_heap (heap w ++ [snapshot_of toDataURL (host w)]) w)).
Proof. unfold step, perform. by rewrite snd_drop, reset_spec. Qed.

Lemma step_loaded this i snapshot w :
  loading w !! i = Some snapshot →
  step toDataURL this (OLoaded i) w =
    snd (draw snapshot (set_loading (delete i (loading w)) w)).
Proof. intros Hl. unfold step, perform, bind, get, modify. by rewrite Hl. Qed.



Lemma draw_loaded snapshot e w :
  heap w !! state_ref snapshot = Some e →
  Sketch.constructed (data_sketch (host w)) →
  ∃ w', draw snapshot w = (Ok tt, w') ∧
    data_strokes (host w') = strokes e ∧
    Sketch.callStack (data_sketch (host w')) = callStack e ∧
    heap w' = heap w ∧ stack w' = stack w ∧ stpos w' = stpos w ∧
    loading w' = loading w ∧ keypress w' = keypress w.
Proof.
  intros He Hc. unfold draw, handler, bind, get, on_sketch.
  destruct (chainable_clear 0%nat _ Hc) as (r & s1 & E1 & Hc1 & _).
  rewrite E1.
  destruct (completes_native "drawImage"
              [Sketch.AImage (src snapshot); Sketch.APrim (num 0);
               Sketch.APrim (num 0)] s1 Hc1) as ([] & s2 & E2 & Hc2 & _).
  cbn [host set_host data_sketch data_strokes elem].
  rewrite E2. cbn [heap set_host]. rewrite He. eexists. split; [reflexivity|].
  done.
Qed.

(** X13: [reset] starts the history over: it returns the instance and
    leaves one entry, the snapshot of the widget as it is, with [stpos]
    on it, so that [undo] and [redo] then do nothing.  It does not touch
    the widget, and it does not call off a snapshot that is loading. *)
Theorem reset_starts_over (this : Ref) (w : World) :
  let w' := snd (reset toDataURL this w) in
  fst (reset toDataURL this w) = Ok this ∧
  stack w' = [length (heap w)] ∧ stpos w' = 0 ∧
  entry_at w' 0 =
    Some {| image := toDataURL (elem (host w));
            strokes := data_strokes (host w);
            callStack := Sketch.callStack (data_sketch (host w)) |} ∧
  undo this w' = (Ok this, w') ∧ redo this w' = (Ok this, w') ∧
  host w' = host w ∧ loading w' = loading w ∧ keypress w' = keypress w.
Proof.
  rewrite reset_spec. cbn [fst snd].
  split; [done|]. split; [done|]. split; [done|]. split.
  { unfold entry_at, index. simpl.
    change ((heap w ++ [snapshot_of toDataURL (host w)]) !! length (heap w) =
            Some (snapshot_of toDataURL (host w))).
    by apply list_lookup_middle. }
  split; [by rewrite undo_spec|]. split; [by rewrite redo_spec|]. done.
Qed.


(** ** Reading a state and restoring it *)


(** ** What a run does to the stack *)

Lemma step_grows this op w :
  resets op = false →
  stack (step toDataURL this op w) =
    stack w ++ (if pushes op then [length (heap w)] else []).
Proof.
  intros Hop. unfold step, perform.
  destruct op as [| |ev| | | | |st|ev|i|h|e|a e]; try done;
    rewrite ?snd_drop; cbn [pushes].
  - destruct (multi_touch ev) eqn:Hev; cbn [negb].
    + rewrite save_touch_spec, app_nil_r by done.
      by destruct (index (stack w) (stpos w)).
    + by rewrite save_push_spec.
  - rewrite app_nil_r. by destruct (undo_frame this w) as (_ & ? & _).
  - rewrite app_nil_r. by destruct (redo_frame this w) as (_ & ? & _).
  - rewrite state_spec, app_nil_r. by destruct (entry_at w (stpos w)).
  - rewrite app_nil_r. by destruct (restore_frame st this w) as (_ & ? & _).
  - rewrite app_nil_r. unfold bind, get. destruct (keypress w); [|done].
    by destruct (keyManager_frame this ev w).
  - rewrite app_nil_r. unfold bind, get.
    destruct (loading w !! i) as [sn|]; [|done]. unfold modify.
    by destruct (draw_frame sn (set_loading (delete i (loading w)) w))
      as (_ & -> & _).
  - by rewrite app_nil_r.
  - by rewrite app_nil_r.
  - rewrite app_nil_r. unfold bind, get.
    by destruct (bool_decide (a ∈ stack w)).
Qed.

(** X16: nothing but [reset] and [destroy] ever takes an entry off the
    stack.  Over a run without them the stack only grows at its end, by
    one slot for each [init] and each [save] of a first touch, whatever
    [undo], [redo], [restore] and the key manager do in between: the
    slots that were there stay where they were. *)
Theorem history_only_grows (this : Ref) (ops : list Op) (w : World) :
  Forall (λ op, resets op = false) ops →
  let w' := run toDataURL this ops w in
  ∃ added,
    stack w' = stack w ++ added ∧
    length added = length (List.filter pushes ops) ∧
    ∀ i a, index (stack w) i = Some a → index (stack w') i = Some a.
Proof.
  intros Hops. cbv zeta.
  assert (∃ added, stack (run toDataURL this ops w) = stack w ++ added ∧
                   length added = length (List.filter pushes ops))
    as (added & Hst & Hlen).
  { revert w. induction Hops as [|op ops Hop _ IH]; intros w.
    - exists []. by rewrite app_nil_r.
    - rewrite run_cons. destruct (IH (step toDataURL this op w)) as (l & E & Hl).
      rewrite (step_grows this op w Hop) in E.
      exists ((if pushes op then [length (heap w)] else []) ++ l).
      split; [by rewrite E, app_assoc|].
      cbn [List.filter]. rewrite length_app, Hl.
      by destruct (pushes op). }
  exists added. split; [done|]. split; [done|].
  intros i a. rewrite Hst. unfold index.
  destruct (0 <=? i); [|done]. apply lookup_app_l_Some.
Qed.

(** ** The key manager *)

Lemma keyManager_keypress this ev w :
  keypress (snd (keyManager this ev w)) = keypress w.
Proof.
  unfold keyManager, keyManager_on.
  destruct (ctrlKey ev); [|done].
  destruct (which ev =? 26).
  - destruct (shiftKey ev); unfold bind.
    + destruct (redo_frame this w) as (_ & _ & _ & ?).
      by destruct (redo this w) as [[?|?] ?].
    + destruct (undo_frame this w) as (_ & _ & _ & ?).
      by destruct (undo this w) as [[?|?] ?].
  - destruct (which ev =? 25); [|done]. unfold bind.
    destruct (redo_frame this w) as (_ & _ & _ & ?).
    by destruct (redo this w) as [[?|?] ?].
Qed.

Lemma step_keypress this op w :
  keypress (step toDataURL this op w) = attached_after (keypress w) [op].
Proof.
  unfold step, perform.
  destruct op as [| |ev| | | | |st|ev|i|h|e|a e];
    rewrite ?snd_drop; cbn [attached_after foldl].
  - by rewrite init_spec, save_push_spec.
  - by rewrite destroy_spec, reset_spec.
  - destruct (multi_touch ev) eqn:Hev.
    + rewrite save_touch_spec by done.
      by destruct (index (stack w) (stpos w)).
    + by rewrite save_push_spec.
  - by destruct (undo_frame this w) as (_ & _ & _ & ?).
  - by destruct (redo_frame this w) as (_ & _ & _ & ?).
  - by rewrite reset_spec.
  - rewrite state_spec. by destruct (entry_at w (stpos w)).
  - by destruct (restore_frame st this w) as (_ & _ & _ & _ & ?).
  - unfold bind, get. destruct (keypress w) eqn:E; [|done].
    by rewrite keyManager_keypress.
  - unfold bind, get. destruct (loading w !! i) as [sn|]; [|done].
    unfold modify.
    by destruct (draw_frame sn (set_loading (delete i (loading w)) w))
      as (_ & _ & _ & _ & ->).
  - done.
  - done.
  - unfold bind, get. by destruct (bool_decide (a ∈ stack w)).
Qed.

(** X17: the key manager listens from [init] to [destroy].  After a run
    it is attached when the last of the [init]s and [destroy]s of the
    run was an [init] (as it was before the run, if there was neither);
    while it is attached a key press runs [keyManager], and while it is
    not, a key press changes nothing. *)
Theorem key_manager_listens_between_init_and_destroy
    (this : Ref) (ops : list Op) (ev : KeyEvent) (w : World) :
  let w' := run toDataURL this ops w in
  keypress w' = attached_after (keypress w) ops ∧
  (attached_after (keypress w) ops = true →
     step toDataURL this (OKeypress ev) w' = snd (keyManager this ev w')) ∧
  (attached_after (keypress w) ops = false →
     step toDataURL this (OKeypress ev) w' = w').
Proof.
  cbv zeta.
  assert (keypress (run toDataURL this ops w) = attached_after (keypress w) ops)
    as Hk.
  { revert w. induction ops as [|op ops IH]; intros w; [done|].
    rewrite run_cons, IH, step_keypress. reflexivity. }
  split; [done|]. rewrite <- Hk.
  split; intros E; unfold step, perform, bind, get; by rewrite E.
Qed.

(** ** A gesture of two fingers *)

(** X18: a gesture of two fingers makes one entry.  With [stpos] on the
    last slot, the [save] of the first touch pushes an entry; the widget
    goes on drawing; the [save] of a further touch pushes nothing and
    gives that entry the strokes of the widget as they are by then.  The
    entry keeps the image and the call stack of the first [save], and
    the slots below hold what they held. *)
Theorem two_finger_gesture_is_one_entry
    (this : Ref) (ev0 ev1 : option TouchEvent) (h' : Host) (w : World) :
  reachable toDataURL this w →
  stpos w = Z.of_nat (length (stack w)) - 1 →
  multi_touch ev0 = false → multi_touch ev1 = true →
  let w' := run toDataURL this [OSave ev0; OHost h'; OSave ev1] w in
  stack w' = stack w ++ [length (heap w)] ∧
  stpos w' = stpos w + 1 ∧
  entry_at w' (stpos w') =
    Some {| image := toDataURL (elem (host w));
            strokes := data_strokes h';
            callStack := Sketch.callStack (data_sketch (host w)) |} ∧
  (∀ i, i < Z.of_nat (length (stack w)) → entry_at w' i = entry_at w i).
Proof.
  intros Hr Hp H0 H1. apply reachable_wf in Hr as Hw.
  unfold run. cbn [foldl]. unfold step, perform. rewrite !snd_drop.
  rewrite (save_push_spec _ _ _ _ H0). cbn [snd]. unfold modify. cbn [snd].
  set (w1 := set_host h' _).
  assert (index (stack w1) (stpos w1) = Some (length (heap w))) as Hidx.
  { unfold index. simpl. destruct (Z.leb_spec 0 (stpos w + 1)); [|lia].
    replace (Z.to_nat (stpos w + 1)) with (length (stack w)) by lia.
    by apply list_lookup_middle. }
  rewrite (save_touch_spec _ _ _ _ H1), Hidx. cbn [snd].
  split; [done|]. split; [done|]. split.
  - unfold entry_at. cbn [stack stpos set_heap]. rewrite Hidx. simpl.
    change (alter (with_strokes (data_strokes h')) (length (heap w))
              (heap w ++ [snapshot_of toDataURL (host w)]) !! length (heap w) =
            Some (with_strokes (data_strokes h') (snapshot_of toDataURL (host w)))).
    rewrite list_lookup_alter. destruct (decide _); [|done].
    by rewrite (list_lookup_middle (heap w) [] _ (length (heap w))).
  - intros i Hi. unfold entry_at. cbn [stack heap set_heap].
    change (stack w1) with (stack w ++ [length (heap w)]).
    change (heap w1) with (heap w ++ [snapshot_of toDataURL (host w)]).
    unfold index. destruct (Z.leb_spec 0 i) as [Hi0|]; [|done].
    rewrite lookup_app_l by lia.
    destruct (stack w !! Z.to_nat i) as [a|] eqn:Ha; [|done]. simpl.
    assert (a < length (heap w))%nat as Hlt.
    { pose proof (wf_alloc w Hw) as Hall. rewrite Forall_forall in Hall.
      apply Hall. by eapply list_elem_of_lookup_2. }
    rewrite list_lookup_alter_ne by lia.
    by rewrite lookup_app_l by lia.
Qed.

End MementoRuns.

(** * The further properties on the examples *)

Section MoreInstances.

Import Memento Examples.

Lemma demo_data_NoDup : NoDup (Sketch.demo_data.*1).
Proof. apply NoDup_keys_computed. by vm_compute. Qed.

Lemma demo_sketch_synced k :
  k ∈ Sketch.demo_data.*1 →
  obj_get (Sketch.context_props Sketch.demo_context) k =
    obj_get Sketch.demo_data k.
Proof. intros _. reflexivity. Qed.

Lemma demo_data_fillStyle : "fillStyle" ∈ Sketch.demo_data.*1.
Proof. vm_compute. repeat constructor. Qed.

(** X3 on the example instance: a thicker line, and a fill style that is
    not given. *)
Lemma saveGraphics_stores_options_witness :
  Sketch.data Sketch.demo_sketch = Some Sketch.demo_data ∧
  NoDup ([("lineWidth", num 5); ("fillStyle", PUndefined)].*1) ∧
  ("__proto__" ∉ [("lineWidth", num 5); ("fillStyle", PUndefined)].*1) ∧
  ∃ s' d',
    Sketch.saveGraphics (Some [("lineWidth", num 5); ("fillStyle", PUndefined)])
      1 Sketch.demo_sketch = (Ok 1, s') ∧
    Sketch.data s' = Some d' ∧
    strict_eq (num 5) (obj_get d' "lineWidth") = true ∧
    obj_get d' "fillStyle" = obj_get Sketch.demo_data "fillStyle".
Proof.
  assert (NoDup ([("lineWidth", num 5); ("fillStyle", PUndefined)].*1)) as Hnd.
  { apply NoDup_keys_computed. by vm_compute. }
  assert ("__proto__" ∉ [("lineWidth", num 5); ("fillStyle", PUndefined)].*1)
    as Hproto.
  { apply not_elem_computed. by vm_compute. }
  split; [reflexivity|]. split; [exact Hnd|]. split; [exact Hproto|].
  destruct (saveGraphics_stores_options 1
              [("lineWidth", num 5); ("fillStyle", PUndefined)]
              Sketch.demo_sketch Sketch.demo_data eq_refl Hnd Hproto)
    as (s' & d' & E & Hd & _ & _ & _ & _ & Ht & Hf & _).
  exists s', d'. split; [exact E|]. split; [exact Hd|].
  split; [apply (Ht "lineWidth" (num 5)); [constructor|reflexivity]|].
  apply (Hf "fillStyle" PUndefined); [repeat constructor|reflexivity].
Defined.

(** X4 on the example instance: a thicker line with a butt cap.  The
    first call records the two options, the second nothing. *)
Lemma saveGraphics_idempotent_witness :
  is_Some (Sketch.data Sketch.demo_sketch) ∧
  NoDup ([("lineWidth", num 5); ("lineCap", PString "butt")].*1) ∧
  ("__proto__" ∉ [("lineWidth", num 5); ("lineCap", PString "butt")].*1) ∧
  Sketch.callStack
    (snd (Sketch.saveGraphics
            (Some [("lineWidth", num 5); ("lineCap", PString "butt")])
            1 Sketch.demo_sketch)) =
    Sketch.callStack Sketch.demo_sketch ++
      [Sketch.property_entry "lineWidth" (num 5);
       Sketch.property_entry "lineCap" (PString "butt")] ∧
  ∃ s' d',
    Sketch.saveGraphics (Some [("lineWidth", num 5); ("lineCap", PString "butt")])
      1 Sketch.demo_sketch = (Ok 1, s') ∧
    Sketch.data s' = Some d' ∧
    strict_eq (num 5) (obj_get d' "lineWidth") = true ∧
    Sketch.saveGraphics (Some [("lineWidth", num 5); ("lineCap", PString "butt")])
      1 s' = (Ok 1, s').
Proof.
  assert (is_Some (Sketch.data Sketch.demo_sketch)) as Hd
    by (eexists; reflexivity).
  assert (NoDup ([("lineWidth", num 5); ("lineCap", PString "butt")].*1)) as Hnd.
  { apply NoDup_keys_computed. by vm_compute. }
  assert ("__proto__" ∉ [("lineWidth", num 5); ("lineCap", PString "butt")].*1)
    as Hproto.
  { apply not_elem_computed. by vm_compute. }
  split; [exact Hd|]. split; [exact Hnd|]. split; [exact Hproto|].
  split; [vm_compute; reflexivity|].
  destruct (saveGraphics_idempotent 1
              [("lineWidth", num 5); ("lineCap", PString "butt")]
              Sketch.demo_sketch Hd Hnd Hproto)
    as (s' & d' & E & Hd' & Hst & E2).
  exists s', d'. split; [exact E|]. split; [exact Hd'|].
  split; [apply (Hst "lineWidth" (num 5)); [constructor|reflexivity]|exact E2].
Defined.

(** X20 on the example instance: an option [__proto__] that is a
    string, given twice. *)
Lemma saveGraphics_proto_is_not_stored_witness :
  Sketch.data Sketch.demo_sketch = Some Sketch.demo_data ∧
  ("__proto__" ∉ Sketch.demo_data.*1) ∧
  Sketch.data_proto Sketch.demo_sketch = Sketch.ObjectPrototype ∧
  truthy (PString "x") = true ∧
  snd (Sketch.saveGraphics (Some [("__proto__", PString "x")]) 1
         (snd (Sketch.saveGraphics (Some [("__proto__", PString "x")]) 1
                 Sketch.demo_sketch))) =
    Sketch.set_callStack
      (Sketch.callStack Sketch.demo_sketch ++
         [Sketch.property_entry "__proto__" (PString "x");
          Sketch.property_entry "__proto__" (PString "x")])
      Sketch.demo_sketch.
Proof.
  assert ("__proto__" ∉ Sketch.demo_data.*1) as Hk.
  { apply not_elem_computed. by vm_compute. }
  split; [reflexivity|]. split; [exact Hk|]. split; [reflexivity|].
  split; [reflexivity|].
  exact (proj2 (proj2 (proj2 (proj2 (proj2
           (saveGraphics_proto_is_not_stored 1 (PString "x")
              Sketch.demo_sketch Sketch.demo_data eq_refl Hk eq_refl
              eq_refl)))))).
Defined.

(** X6 on the example instance: the canvas made larger. *)
Lemma size_reapplies_options_witness :
  Sketch.canvas Sketch.demo_sketch = Some Sketch.demo_context ∧
  Sketch.data Sketch.demo_sketch = Some Sketch.demo_data ∧
  NoDup (Sketch.demo_data.*1) ∧
  Sketch.size (num 640) (num 480) 1 Sketch.demo_sketch =
    (Ok 1,
     {| Sketch.canvas :=
          Some {| Sketch.width := num 640; Sketch.height := num 480;
                  Sketch.context_props := Sketch.demo_data;
                  Sketch.context_calls :=
                    Sketch.context_calls Sketch.demo_context |};
        Sketch.stageWidth := num 640; Sketch.stageHeight := num 480;
        Sketch.data := Some Sketch.demo_data;
        Sketch.callStack := Sketch.callStack Sketch.demo_sketch;
        Sketch.detached := Sketch.detached Sketch.demo_sketch;
        Sketch.data_proto := Sketch.data_proto Sketch.demo_sketch |}).
Proof.
  split; [reflexivity|]. split; [reflexivity|]. split; [exact demo_data_NoDup|].
  exact (size_reapplies_options 1 (num 640) (num 480) Sketch.demo_sketch
           Sketch.demo_context Sketch.demo_data eq_refl eq_refl demo_data_NoDup).
Defined.

(** X7 on the example instance: a blue line, three wide, the rest as it
    is. *)
Lemma lineStyle_sets_and_applies_witness :
  Sketch.canvas Sketch.demo_sketch = Some Sketch.demo_context ∧
  Sketch.data Sketch.demo_sketch = Some Sketch.demo_data ∧
  NoDup (Sketch.demo_data.*1) ∧
  ∃ s',
    Sketch.lineStyle (PString "#00F") (num 3) PUndefined PUndefined PUndefined
      1 Sketch.demo_sketch = (Ok 1, s') ∧
    Sketch.in_sync s'.
Proof.
  split; [reflexivity|]. split; [reflexivity|]. split; [exact demo_data_NoDup|].
  destruct (lineStyle_sets_and_applies 1 (PString "#00F") (num 3)
              PUndefined PUndefined PUndefined Sketch.demo_sketch
              Sketch.demo_context Sketch.demo_data eq_refl eq_refl
              demo_data_NoDup)
    as (s' & c' & d' & E & _ & _ & Hs & _).
  exists s'. split; [exact E|exact Hs].
Defined.

(** X8 on the example instance's own construction. *)
Lemma constructor_applies_defaults_witness :
  NoDup ([("lineWidth", num 3)].*1) ∧
  ∃ s,
    Sketch.new_jSketch (λ _, Sketch.ElValue PNull)
      (Sketch.ElCanvas Sketch.demo_canvas)
      (Some [("lineWidth", num 3)]) 1 = (Ok 1, s) ∧
    Sketch.in_sync s.
Proof.
  assert (NoDup ([("lineWidth", num 3)].*1)) as Hnd.
  { apply NoDup_keys_computed. by vm_compute. }
  split; [exact Hnd|].
  destruct (constructor_applies_defaults (λ _, Sketch.ElValue PNull)
              Sketch.demo_canvas
              [("lineWidth", num 3)] 1 Hnd)
    as (s & c' & d & E & _ & _ & Hs & _).
  exists s. split; [exact E|exact Hs].
Defined.

(** X9 on the example instance: a blue fill. *)
Lemma beginFill_endFill_restores_context_witness :
  Sketch.canvas Sketch.demo_sketch = Some Sketch.demo_context ∧
  Sketch.data Sketch.demo_sketch = Some Sketch.demo_data ∧
  NoDup (Sketch.demo_data.*1) ∧
  (∀ k, k ∈ Sketch.demo_data.*1 →
     obj_get (Sketch.context_props Sketch.demo_context) k =
       obj_get Sketch.demo_data k) ∧
  "fillStyle" ∈ Sketch.demo_data.*1 ∧
  ∃ s1 s2 c2,
    Sketch.beginFill (PString "#00F") 1 Sketch.demo_sketch = (Ok 1, s1) ∧
    Sketch.endFill 1 s1 = (Ok 1, s2) ∧
    Sketch.canvas s2 = Some c2 ∧
    ∀ k, obj_get (Sketch.context_props c2) k =
           obj_get (Sketch.context_props Sketch.demo_context) k.
Proof.
  split; [reflexivity|]. split; [reflexivity|]. split; [exact demo_data_NoDup|].
  split; [exact demo_sketch_synced|]. split; [exact demo_data_fillStyle|].
  destruct (beginFill_endFill_restores_context 1 (PString "#00F")
              Sketch.demo_sketch Sketch.demo_context Sketch.demo_data
              eq_refl eq_refl demo_data_NoDup demo_sketch_synced
              demo_data_fillStyle)
    as (s1 & s2 & c1 & c2 & E1 & E2 & _ & Hc2 & _ & _ & _ & Hk & _).
  exists s1, s2, c2. split; [exact E1|]. split; [exact E2|].
  split; [exact Hc2|exact Hk].
Defined.



(** X12 on the three-entry history: five undos, five redos. *)
Lemma repeated_undo_redo_witness :
  reachable demo_toDataURL 0 world3 ∧ (0 ≤ stpos world3)%Z ∧
  stpos (run demo_toDataURL 0 (replicate 5 OUndo) world3) =
    Z.max 0 (stpos world3 - Z.of_nat 5) ∧
  stpos (run demo_toDataURL 0 (replicate 5 ORedo) world3) =
    Z.min (Z.of_nat (length (stack world3)) - 1) (stpos world3 + Z.of_nat 5).
Proof.
  assert (0 ≤ stpos world3)%Z as Hp by (vm_compute; discriminate).
  split; [exact world3_reachable|]. split; [exact Hp|].
  pose proof (repeated_undo_redo demo_toDataURL 0 5 world3
                world3_reachable Hp) as (Hu & Hr & _).
  split; [exact Hu|exact Hr].
Defined.



(** X16 on the two-entry history: a touch, an undo, another touch. *)
Lemma history_only_grows_witness :
  Forall (λ op, resets op = false) [OSave None; OUndo; OSave None] ∧
  ∃ added,
    stack (run demo_toDataURL 0 [OSave None; OUndo; OSave None] world2) =
      stack world2 ++ added ∧
    length added = length (List.filter pushes [OSave None; OUndo; OSave None]).
Proof.
  assert (Forall (λ op, resets op = false) [OSave None; OUndo; OSave None])
    as Hops by (repeat constructor).
  split; [exact Hops|].
  destruct (history_only_grows demo_toDataURL 0
              [OSave None; OUndo; OSave None] world2 Hops)
    as (added & Hst & Hlen & _).
  exists added. split; [exact Hst|exact Hlen].
Defined.

(** X18 on the two-entry history: a second finger joins the stroke. *)
Lemma two_finger_gesture_is_one_entry_witness :
  reachable demo_toDataURL 0 world2 ∧
  stpos world2 = (Z.of_nat (length (stack world2)) - 1)%Z ∧
  multi_touch None = false ∧ multi_touch (Some second_touch) = true ∧
  stack (run demo_toDataURL 0
           [OSave None; OHost host2; OSave (Some second_touch)] world2) =
    stack world2 ++ [length (heap world2)].
Proof.
  split; [exact world2_reachable|]. split; [reflexivity|].
  split; [reflexivity|]. split; [reflexivity|].
  exact (proj1 (two_finger_gesture_is_one_entry demo_toDataURL 0 None
                  (Some second_touch) host2 world2 world2_reachable
                  eq_refl eq_refl eq_refl)).
Defined.

End MoreInstances.
